(** * The tree-node model of the Rust front end (rust-tree.h, rust-tree.cc)

    A shallow embedding of the accessor layer that rust-tree.h puts on top
    of GCC's generic [tree] nodes, and of the use-marking helpers of
    rust-tree.cc.

    - A [tree] is a pointer; nodes, [lang_decl] and [lang_type] records
      live in a [store] and are reached by address.
    - Bit-fields are ranges of a machine word, read and written with
      [Z.land], [Z.lor], [Z.shiftl] and [Z.shiftr].
    - An access has an [outcome]: a value, an internal compiler error raised
      by a checking macro, or undefined behaviour (a null or dangling
      dereference, a read of the inactive member of a union).  A loop or a
      recursion over pointers is unrolled a bounded number of times and
      reports when the bound did not suffice.
    - The macros exist in two configurations, selected by
      [ENABLE_TREE_CHECKING]; the model takes the configuration as an
      argument of type [build].
    - What the two files use and do not define is either modelled from the
      description of the node model or left as a parameter ([global_trees],
      [tree_h], [lang_type_layout]). *)

From stdpp Require Import base numbers option list gmap.

Set Warnings "-register-all,-clear-no-such-hyp".

Local Open Scope Z_scope.

(** ** Outcomes *)

(** The two fatal diagnostics of the checking macros. *)
Inductive internal_error : Set :=
| tree_check_failed
| lang_check_failed.

(** [Ok]: the access yields a value.  [ICE]: a checking macro aborts the
    compilation.  [Undefined]: the access has no defined behaviour.
    [OutOfFuel]: the unrolling bound of a loop was reached. *)
Inductive outcome (A : Type) : Type :=
| Ok (a : A)
| ICE (e : internal_error)
| Undefined
| OutOfFuel.

Arguments Ok {A} a.
Arguments ICE {A} e.
Arguments Undefined {A}.
Arguments OutOfFuel {A}.

#[global] Instance outcome_ret : MRet outcome := @Ok.

#[global] Instance outcome_bind : MBind outcome :=
  λ A B f m,
    match m with
    | Ok a => f a
    | ICE e => ICE e
    | Undefined => Undefined
    | OutOfFuel => OutOfFuel
    end.

(** [ENABLE_TREE_CHECKING && GCC_VERSION >= 2007], or not. *)
Inductive build : Set := checking | release.

(** C's [a && b] and [a || b]: the right operand is evaluated only when the
    left one does not decide the result. *)
Definition c_and (a b : outcome bool) : outcome bool :=
  x ← a; if x : bool then b else Ok false.

Definition c_or (a b : outcome bool) : outcome bool :=
  x ← a; if x : bool then Ok true else b.

(** C's [!x] on an integer, and the truth value of an integer. *)
Definition c_not (x : Z) : Z := if decide (x = 0) then 1 else 0.

Definition c_true (x : Z) : bool := bool_decide (x ≠ 0).

(** ** Bit-fields *)

Record bitfield : Set := BitField { bf_off : Z; bf_width : Z }.

Definition bf_mask (f : bitfield) : Z := Z.shiftl (Z.ones (bf_width f)) (bf_off f).

Definition bf_get (f : bitfield) (w : Z) : Z :=
  Z.land (Z.shiftr w (bf_off f)) (Z.ones (bf_width f)).

(** Assignment to a bit-field keeps the low [bf_width] bits of the value. *)
Definition bf_set (f : bitfield) (v w : Z) : Z :=
  Z.lor (Z.land w (Z.lnot (bf_mask f)))
        (Z.shiftl (Z.land v (Z.ones (bf_width f))) (bf_off f)).

Definition bf_disjoint (f g : bitfield) : Prop :=
  bf_off f + bf_width f <= bf_off g ∨ bf_off g + bf_width g <= bf_off f.

(** ** Tree codes *)

Inductive tree_code_class : Set :=
| tcc_exceptional | tcc_constant | tcc_type | tcc_declaration
| tcc_reference | tcc_unary | tcc_expression.

(** Modelled from the spec: the Tagged Node Kind, "an enumeration of all
    distinct node shapes (declarations of various sorts, types, statements,
    expressions, ...)"; tree.def is not among the sources.  The codes are
    those the modelled macros and functions name, each in the class its
    name shows; [OTHER_CODE] stands for every other code, with its
    class. *)
Inductive tree_code : Set :=
| ERROR_MARK | IDENTIFIER_NODE | TREE_LIST | OVERLOAD
| INTEGER_CST | STRING_CST
| VOID_TYPE | INTEGER_TYPE | BOOLEAN_TYPE | ENUMERAL_TYPE | POINTER_TYPE
| REFERENCE_TYPE | RECORD_TYPE | UNION_TYPE | QUAL_UNION_TYPE
| FUNCTION_TYPE | METHOD_TYPE
| FUNCTION_DECL | VAR_DECL | PARM_DECL | FIELD_DECL | CONST_DECL | TYPE_DECL
| TEMPLATE_DECL | USING_DECL | CONCEPT_DECL | NAMESPACE_DECL | LABEL_DECL
| COMPONENT_REF | ARRAY_REF | INDIRECT_REF | VIEW_CONVERT_EXPR
| REALPART_EXPR | IMAGPART_EXPR | MEMBER_REF
| NOP_EXPR | CONVERT_EXPR | FLOAT_EXPR | NON_LVALUE_EXPR
| MODIFY_EXPR | COMPOUND_EXPR | COND_EXPR | ADDR_EXPR | CALL_EXPR
| NON_DEPENDENT_EXPR
| OTHER_CODE (c : tree_code_class) (n : N).

#[global] Instance tree_code_class_eq_dec : EqDecision tree_code_class.
Proof. solve_decision. Defined.

#[global] Instance tree_code_eq_dec : EqDecision tree_code.
Proof. solve_decision. Defined.

Definition TREE_CODE_CLASS (c : tree_code) : tree_code_class :=
  match c with
  | ERROR_MARK | IDENTIFIER_NODE | TREE_LIST | OVERLOAD => tcc_exceptional
  | INTEGER_CST | STRING_CST => tcc_constant
  | VOID_TYPE | INTEGER_TYPE | BOOLEAN_TYPE | ENUMERAL_TYPE | POINTER_TYPE
  | REFERENCE_TYPE | RECORD_TYPE | UNION_TYPE | QUAL_UNION_TYPE
  | FUNCTION_TYPE | METHOD_TYPE =>
      tcc_type
  | FUNCTION_DECL | VAR_DECL | PARM_DECL | FIELD_DECL | CONST_DECL | TYPE_DECL
  | TEMPLATE_DECL | USING_DECL | CONCEPT_DECL | NAMESPACE_DECL | LABEL_DECL =>
      tcc_declaration
  | COMPONENT_REF | ARRAY_REF | INDIRECT_REF | VIEW_CONVERT_EXPR
  | REALPART_EXPR | IMAGPART_EXPR | MEMBER_REF => tcc_reference
  | NOP_EXPR | CONVERT_EXPR | FLOAT_EXPR | NON_LVALUE_EXPR => tcc_unary
  | MODIFY_EXPR | COMPOUND_EXPR | COND_EXPR | ADDR_EXPR | CALL_EXPR
  | NON_DEPENDENT_EXPR => tcc_expression
  | OTHER_CODE c _ => c
  end.

(** ** Nodes and the store *)

(** A [tree] is the address of a node; [NULL_TREE] is address 0. *)
Abbreviation tree := N (only parsing).

Definition NULL_TREE : tree := 0%N.

(** Modelled from the spec: the Generic Node of GCC's tree.h, which is not
    among the sources: "kind tag, a fixed bank of generic boolean flags, a
    type annotation slot, location info, and a payload area", with the
    type-specific and the declaration-specific flag bank and the pointers
    to the language-specific records.  Every node carries every part; the
    checking macros decide which part an accessor may touch.  The three
    [*_lang_flag] words hold flag [n] of their bank in bit [n]. *)
Record tree_node : Set := TreeNode {
  code : tree_code;            (* base.code *)
  side_effects_flag : bool;    (* base.side_effects_flag *)
  volatile_flag : bool;        (* base.volatile_flag *)
  lang_flag : Z;               (* base.u.bits.lang_flag_0 .. lang_flag_6 *)
  typed_type : tree;           (* typed.type *)
  chain : tree;                (* common.chain *)
  operands : list tree;        (* exp.operands *)
  name : tree;                 (* decl_minimal.name *)
  decl_read_flag : bool;       (* decl_common.decl_read_flag *)
  decl_lang_flag : Z;          (* decl_common.lang_flag_0 .. lang_flag_8 *)
  decl_lang_specific : N;      (* decl_common.lang_specific *)
  result : tree;               (* tree_template_decl.result *)
  type_lang_flag : Z;          (* type_common.lang_flag_0 .. lang_flag_7 *)
  type_lang_specific : N;      (* type_with_lang_specific.lang_specific *)
  size : tree                  (* type_common.size *)
}.

Definition with_code (c : tree_code) (n : tree_node) : tree_node :=
  TreeNode c (side_effects_flag n) (volatile_flag n) (lang_flag n)
    (typed_type n) (chain n) (operands n) (name n) (decl_read_flag n)
    (decl_lang_flag n) (decl_lang_specific n) (result n) (type_lang_flag n)
    (type_lang_specific n) (size n).

Definition with_side_effects_flag (b : bool) (n : tree_node) : tree_node :=
  TreeNode (code n) b (volatile_flag n) (lang_flag n)
    (typed_type n) (chain n) (operands n) (name n) (decl_read_flag n)
    (decl_lang_flag n) (decl_lang_specific n) (result n) (type_lang_flag n)
    (type_lang_specific n) (size n).

Definition with_lang_flag (w : Z) (n : tree_node) : tree_node :=
  TreeNode (code n) (side_effects_flag n) (volatile_flag n) w
    (typed_type n) (chain n) (operands n) (name n) (decl_read_flag n)
    (decl_lang_flag n) (decl_lang_specific n) (result n) (type_lang_flag n)
    (type_lang_specific n) (size n).

Definition with_operands (l : list tree) (n : tree_node) : tree_node :=
  TreeNode (code n) (side_effects_flag n) (volatile_flag n) (lang_flag n)
    (typed_type n) (chain n) l (name n) (decl_read_flag n)
    (decl_lang_flag n) (decl_lang_specific n) (result n) (type_lang_flag n)
    (type_lang_specific n) (size n).

Definition with_decl_read_flag (b : bool) (n : tree_node) : tree_node :=
  TreeNode (code n) (side_effects_flag n) (volatile_flag n) (lang_flag n)
    (typed_type n) (chain n) (operands n) (name n) b
    (decl_lang_flag n) (decl_lang_specific n) (result n) (type_lang_flag n)
    (type_lang_specific n) (size n).

Definition with_decl_lang_flag (w : Z) (n : tree_node) : tree_node :=
  TreeNode (code n) (side_effects_flag n) (volatile_flag n) (lang_flag n)
    (typed_type n) (chain n) (operands n) (name n) (decl_read_flag n)
    w (decl_lang_specific n) (result n) (type_lang_flag n)
    (type_lang_specific n) (size n).

Definition with_type_lang_flag (w : Z) (n : tree_node) : tree_node :=
  TreeNode (code n) (side_effects_flag n) (volatile_flag n) (lang_flag n)
    (typed_type n) (chain n) (operands n) (name n) (decl_read_flag n)
    (decl_lang_flag n) (decl_lang_specific n) (result n) w
    (type_lang_specific n) (size n).

(** *** [struct lang_decl] *)

(** [enum lang_decl_selector], with the value of each enumerator. *)
Inductive lang_decl_selector : Set :=
| lds_min | lds_fn | lds_ns | lds_parm | lds_decomp.

Definition selector_value (sel : lang_decl_selector) : Z :=
  match sel with
  | lds_min => 0 | lds_fn => 1 | lds_ns => 2 | lds_parm => 3 | lds_decomp => 4
  end.

(** [struct lang_decl_base]: one 32-bit word; the bit-fields in the order
    of their declaration. *)
Definition base_selector : bitfield := BitField 0 3.
Definition base_language : bitfield := BitField 3 1.
Definition base_use_template : bitfield := BitField 4 2.
Definition base_not_really_extern : bitfield := BitField 6 1.
Definition base_initialized_in_class : bitfield := BitField 7 1.
Definition base_threadprivate_or_deleted_p : bitfield := BitField 8 1.
Definition base_anticipated_p : bitfield := BitField 9 1.
Definition base_friend_or_tls : bitfield := BitField 10 1.
Definition base_unknown_bound_p : bitfield := BitField 11 1.
Definition base_odr_used : bitfield := BitField 12 1.
Definition base_concept_p : bitfield := BitField 13 1.
Definition base_var_declared_inline_p : bitfield := BitField 14 1.
Definition base_dependent_init_p : bitfield := BitField 15 1.
Definition base_module_purview_p : bitfield := BitField 16 1.
Definition base_module_import_p : bitfield := BitField 17 1.
Definition base_module_entity_p : bitfield := BitField 18 1.
Definition base_module_attached_p : bitfield := BitField 19 1.

(** The bit-fields of [struct lang_decl_fn] that follow its [min]. *)
Definition fn_ovl_op_code : bitfield := BitField 0 6.
Definition fn_global_ctor_p : bitfield := BitField 6 1.
Definition fn_global_dtor_p : bitfield := BitField 7 1.
Definition fn_static_function : bitfield := BitField 8 1.
Definition fn_pure_virtual : bitfield := BitField 9 1.
Definition fn_defaulted_p : bitfield := BitField 10 1.
Definition fn_has_in_charge_parm_p : bitfield := BitField 11 1.
Definition fn_has_vtt_parm_p : bitfield := BitField 12 1.
Definition fn_pending_inline_p : bitfield := BitField 13 1.
Definition fn_nonconverting : bitfield := BitField 14 1.
Definition fn_thunk_p : bitfield := BitField 15 1.
Definition fn_this_thunk_p : bitfield := BitField 16 1.
Definition fn_omp_declare_reduction_p : bitfield := BitField 17 1.
Definition fn_has_dependent_explicit_spec_p : bitfield := BitField 18 1.
Definition fn_immediate_fn_p : bitfield := BitField 19 1.
Definition fn_maybe_deleted : bitfield := BitField 20 1.
Definition fn_coroutine_p : bitfield := BitField 21 1.
Definition fn_implicit_constexpr : bitfield := BitField 22 1.

(** [union lang_decl_u5] and [union lang_decl_u3]: the constructor is the
    member that was written last. *)
Inductive lang_decl_u5 : Set :=
| cloned_function (t : tree)
| fixed_offset (v : Z).

Inductive lang_decl_u3 : Set :=
| pending_inline_info (p : N)
| saved_auto_return_type (t : tree).

Record lang_decl_min : Set := LangDeclMin {
  template_info : tree;
  access : tree
}.

Record lang_decl_fn : Set := LangDeclFn {
  fn_min : lang_decl_min;
  fn_bits : Z;
  befriending_classes : tree;
  context : tree;
  u5 : lang_decl_u5;
  u3 : lang_decl_u3
}.

Record lang_decl_ns : Set := LangDeclNs {
  ns_level : N;
  inlinees : N;
  bindings : N
}.

Record lang_decl_parm : Set := LangDeclParm {
  parm_level : Z;
  parm_index : Z
}.

Record lang_decl_decomp : Set := LangDeclDecomp {
  decomp_min : lang_decl_min;
  decomp_base : tree
}.

(** The members of [union lang_decl_u] behind their common initial
    [struct lang_decl_base]. *)
Inductive lang_decl_u : Set :=
| u_min (m : lang_decl_min)
| u_fn (f : lang_decl_fn)
| u_ns (n : lang_decl_ns)
| u_parm (p : lang_decl_parm)
| u_decomp (d : lang_decl_decomp).

(** [struct lang_decl]; [base] is [u.base], which every member starts
    with. *)
Record lang_decl : Set := LangDecl {
  base : Z;
  u : lang_decl_u
}.

(** Modelled from the spec: [struct lang_type], which the sources use and
    do not define: "a flat record of layout/ABI/template properties" with,
    among them, the 2-bit [use_template], the [being_defined] flag and the
    2-bit [gets_delete] that the modelled macros read.  The record is the
    word that holds these bit-fields; where each one starts is left to
    [lang_type_layout]. *)
Record lang_type : Set := LangType { lang_type_bits : Z }.

Class lang_type_layout : Set := LangTypeLayout {
  use_template_off : Z;
  being_defined_off : Z;
  gets_delete_off : Z
}.

Record store : Type := Store {
  trees : gmap N tree_node;
  lang_decls : gmap N lang_decl;
  lang_types : gmap N lang_type
}.

Definition with_trees (m : gmap N tree_node) (s : store) : store :=
  Store m (lang_decls s) (lang_types s).

Definition with_lang_decls (m : gmap N lang_decl) (s : store) : store :=
  Store (trees s) m (lang_types s).

(** Dereferencing: the null pointer and a pointer to nothing have no
    pointee. *)
Definition deref (s : store) (t : tree) : outcome tree_node :=
  if decide (t = NULL_TREE) then Undefined
  else match trees s !! t with Some n => Ok n | None => Undefined end.

Definition deref_lang_decl (s : store) (p : N) : outcome lang_decl :=
  if decide (p = 0%N) then Undefined
  else match lang_decls s !! p with Some d => Ok d | None => Undefined end.

Definition deref_lang_type (s : store) (p : N) : outcome lang_type :=
  if decide (p = 0%N) then Undefined
  else match lang_types s !! p with Some d => Ok d | None => Undefined end.

(** Writing through a pointer. *)
Definition store_node (s : store) (t : tree) (n : tree_node) : store :=
  with_trees (<[t := n]> (trees s)) s.

Definition store_lang_decl (s : store) (p : N) (d : lang_decl) : store :=
  with_lang_decls (<[p := d]> (lang_decls s)) s.

(** ** The generic accessors of tree.h *)

(** Modelled from the spec: the accessors of tree.h for the parts of the
    Generic Node ("kind tag ..., a type annotation slot, ..., a payload
    area"); tree.h is not among the sources.  Each is the read of one
    member of the node its argument points to. *)
Definition TREE_CODE (s : store) (t : tree) : outcome tree_code :=
  n ← deref s t; Ok (code n).

Definition TREE_TYPE (s : store) (t : tree) : outcome tree :=
  n ← deref s t; Ok (typed_type n).

Definition DECL_NAME (s : store) (t : tree) : outcome tree :=
  n ← deref s t; Ok (name n).

Definition DECL_CHAIN (s : store) (t : tree) : outcome tree :=
  n ← deref s t; Ok (chain n).

(** Modelled from the spec: [DECL_LANG_SPECIFIC] of tree.h, which is not
    among the sources, the pointer to the "Declaration Extension Data":
    "per declaration node, a selector-tagged union of extension record
    shapes".  The model is the read of [decl_common.lang_specific], as
    [THUNK_FUNCTION_CHECK] in the sources spells the access: it is the
    macro on declaration nodes, the nodes that own such a record.  The
    test of tree.h that the node is a declaration at all, which comes
    before the read in a checking build, is not part of the model. *)
Definition DECL_LANG_SPECIFIC (s : store) (t : tree) : outcome N :=
  n ← deref s t; Ok (decl_lang_specific n).

Definition TREE_OPERAND (s : store) (t : tree) (i : nat) : outcome tree :=
  n ← deref s t;
  match operands n !! i with Some op => Ok op | None => Undefined end.

(** Modelled from the spec: [TREE_CHECK (NODE, CODE)], [TREE_CHECK2], ...
    of tree.h, "macros that assert a node's kind before exposing a field,
    failing loudly on mismatch", "the identical access with the check
    compiled out" in a release build: the node itself when its code is one
    of the listed ones, [tree_check_failed] otherwise.  This is the shape
    of [template_info_decl_check] and [THUNK_FUNCTION_CHECK] in the
    sources. *)
Definition TREE_CHECK (b : build) (s : store) (t : tree)
    (codes : list tree_code) : outcome tree :=
  match b with
  | checking =>
      c ← TREE_CODE s t;
      if bool_decide (c ∈ codes) then Ok t else ICE tree_check_failed
  | release => Ok t
  end.

Definition FUNCTION_DECL_CHECK b s t := TREE_CHECK b s t [FUNCTION_DECL].
Definition TEMPLATE_DECL_CHECK b s t := TREE_CHECK b s t [TEMPLATE_DECL].
Definition IDENTIFIER_NODE_CHECK b s t := TREE_CHECK b s t [IDENTIFIER_NODE].

(** Modelled from the spec: [TYPE_CHECK (NODE)] of tree.h, the check of
    the class of the code in front of what exists "only on type-kind
    nodes", "failing loudly on mismatch" and "compiled out" in a release
    build.  [tree_check_failed] stands for the failure tree.h reports
    when the class of the code is not the expected one. *)
Definition TYPE_CHECK (b : build) (s : store) (t : tree) : outcome tree :=
  match b with
  | checking =>
      c ← TREE_CODE s t;
      if bool_decide (TREE_CODE_CLASS c = tcc_type) then Ok t
      else ICE tree_check_failed
  | release => Ok t
  end.

(** Modelled from the spec: the kind predicates of tree.h, tests of the
    node's "kind tag" or of the class of its kind. *)
Definition VAR_P (s : store) (t : tree) : outcome bool :=
  c ← TREE_CODE s t; Ok (bool_decide (c = VAR_DECL)).

Definition VAR_OR_FUNCTION_DECL_P (s : store) (t : tree) : outcome bool :=
  c ← TREE_CODE s t;
  Ok (bool_decide (c = VAR_DECL) || bool_decide (c = FUNCTION_DECL)).

Definition TYPE_P (s : store) (t : tree) : outcome bool :=
  c ← TREE_CODE s t; Ok (bool_decide (TREE_CODE_CLASS c = tcc_type)).

Definition DECL_P (s : store) (t : tree) : outcome bool :=
  c ← TREE_CODE s t; Ok (bool_decide (TREE_CODE_CLASS c = tcc_declaration)).

Definition CONSTANT_CLASS_P (s : store) (t : tree) : outcome bool :=
  c ← TREE_CODE s t; Ok (bool_decide (TREE_CODE_CLASS c = tcc_constant)).

(** *** The three flag banks *)

(** Modelled from the spec: [TREE_LANG_FLAG_n], [TYPE_LANG_FLAG_n] and
    [DECL_LANG_FLAG_n] of tree.h, which is not among the sources: "three
    independent bit-banks exist per node: node-generic flags (available on
    almost any kind), type-specific flags (only on type-kind nodes), and
    declaration-specific flags (only on declaration-kind nodes).
    Accessing bank X on a node whose kind does not support bank X is
    undefined/rejected": rejected in a checking build, undefined in a
    release build. *)
Inductive flag_bank : Set := tree_bank | type_bank | decl_bank.

#[global] Instance flag_bank_eq_dec : EqDecision flag_bank.
Proof. solve_decision. Defined.

Definition bank_supported (k : flag_bank) (c : tree_code) : bool :=
  match k with
  | tree_bank => true
  | type_bank => bool_decide (TREE_CODE_CLASS c = tcc_type)
  | decl_bank => bool_decide (TREE_CODE_CLASS c = tcc_declaration)
  end.

Definition bank_word (k : flag_bank) (n : tree_node) : Z :=
  match k with
  | tree_bank => lang_flag n
  | type_bank => type_lang_flag n
  | decl_bank => decl_lang_flag n
  end.

Definition with_bank_word (k : flag_bank) (w : Z) (n : tree_node) : tree_node :=
  match k with
  | tree_bank => with_lang_flag w n
  | type_bank => with_type_lang_flag w n
  | decl_bank => with_decl_lang_flag w n
  end.

Definition bank_check (b : build) (k : flag_bank) (n : tree_node) : outcome unit :=
  if bank_supported k (code n) then Ok ()
  else match b with checking => ICE tree_check_failed | release => Undefined end.

(** Reading and writing flag [i] of bank [k]; the flag is a 1-bit
    bit-field. *)
Definition LANG_FLAG (k : flag_bank) (i : Z) (b : build) (s : store)
    (t : tree) : outcome Z :=
  n ← deref s t;
  _ ← bank_check b k n;
  Ok (bf_get (BitField i 1) (bank_word k n)).

Definition SET_LANG_FLAG (k : flag_bank) (i : Z) (v : Z) (b : build)
    (s : store) (t : tree) : outcome store :=
  n ← deref s t;
  _ ← bank_check b k n;
  Ok (store_node s t (with_bank_word k (bf_set (BitField i 1) v (bank_word k n)) n)).

Definition TREE_LANG_FLAG (i : Z) := LANG_FLAG tree_bank i.
Definition TYPE_LANG_FLAG (i : Z) := LANG_FLAG type_bank i.
Definition DECL_LANG_FLAG (i : Z) := LANG_FLAG decl_bank i.

(** this is a helper to differentiate RECORD types between actual records
    and slices *)
Definition SLICE_FLAG := TREE_LANG_FLAG 0.

Definition SLICE_TYPE_P (b : build) (s : store) (t : tree) : outcome bool :=
  c_and (c ← TREE_CODE s t; Ok (bool_decide (c = RECORD_TYPE)))
        (v ← TREE_LANG_FLAG 0 b s t; Ok (c_true v)).

(** *** What the sources use and do not define *)

(** The global identifier and error nodes. *)
Class global_trees : Set := GlobalTrees {
  error_mark_node : tree;
  ctor_identifier : tree;
  dtor_identifier : tree
}.

(** The accessors and functions of tree.h and tree.cc whose bodies are not
    among the sources. *)
Class tree_h : Type := TreeH {
  TYPE_LANG_SPECIFIC : build → store → tree → outcome N;
  COMPLETE_TYPE_P : build → store → tree → outcome bool;
  error_operand_p : store → tree → bool;
  location_wrapper_p : store → tree → bool;
  EXPR_LOCATION : store → tree → N;
  protected_set_expr_location : tree → N → store → store;
  build1 : tree_code → tree → tree → store → tree * store
}.

(** Modelled from the spec: the body that tree.h gives TYPE_LANG_SPECIFIC,
    [TYPE_CHECK (NODE)->type_with_lang_specific.lang_specific], the
    pointer to the "Class/Type Extension Data" behind the check of the
    "Checked Accessor / Downcast Layer". *)
Definition tree_h_TYPE_LANG_SPECIFIC (b : build) (s : store) (t : tree) : outcome N :=
  t' ← TYPE_CHECK b s t; n ← deref s t'; Ok (type_lang_specific n).

(** ** rust-tree.h: identifiers *)

(** Kind bits. *)
Definition IDENTIFIER_KIND_BIT_0 (b : build) (s : store) (t : tree) : outcome Z :=
  t' ← IDENTIFIER_NODE_CHECK b s t; TREE_LANG_FLAG 0 b s t'.

Definition IDENTIFIER_KIND_BIT_1 (b : build) (s : store) (t : tree) : outcome Z :=
  t' ← IDENTIFIER_NODE_CHECK b s t; TREE_LANG_FLAG 1 b s t'.

Definition IDENTIFIER_KIND_BIT_2 (b : build) (s : store) (t : tree) : outcome Z :=
  t' ← IDENTIFIER_NODE_CHECK b s t; TREE_LANG_FLAG 2 b s t'.

(** True if this identifier is a reserved word.  Value 1. *)
Definition IDENTIFIER_KEYWORD_P (b : build) (s : store) (t : tree) : outcome Z :=
  b2 ← IDENTIFIER_KIND_BIT_2 b s t;
  b1 ← IDENTIFIER_KIND_BIT_1 b s t;
  b0 ← IDENTIFIER_KIND_BIT_0 b s t;
  Ok (Z.land (Z.land (c_not b2) (c_not b1)) b0).

(** True if this identifier is the name of a constructor or destructor.
    Value 2 or 3. *)
Definition IDENTIFIER_CDTOR_P (b : build) (s : store) (t : tree) : outcome Z :=
  b2 ← IDENTIFIER_KIND_BIT_2 b s t;
  b1 ← IDENTIFIER_KIND_BIT_1 b s t;
  Ok (Z.land (c_not b2) b1).

(** True if this identifier is the name of a constructor.  Value 2. *)
Definition IDENTIFIER_CTOR_P (b : build) (s : store) (t : tree) : outcome Z :=
  cd ← IDENTIFIER_CDTOR_P b s t;
  b0 ← IDENTIFIER_KIND_BIT_0 b s t;
  Ok (Z.land cd (c_not b0)).

(** True if this identifier is the name of a destructor.  Value 3. *)
Definition IDENTIFIER_DTOR_P (b : build) (s : store) (t : tree) : outcome Z :=
  cd ← IDENTIFIER_CDTOR_P b s t;
  b0 ← IDENTIFIER_KIND_BIT_0 b s t;
  Ok (Z.land cd b0).

(** True if this identifier is for any operator name (including
    conversions).  Value 4, 5, 6 or 7. *)
Definition IDENTIFIER_ANY_OP_P (b : build) (s : store) (t : tree) : outcome Z :=
  IDENTIFIER_KIND_BIT_2 b s t.

(** True if this identifier is for an overloaded operator.  Values 4, 5. *)
Definition IDENTIFIER_OVL_OP_P (b : build) (s : store) (t : tree) : outcome Z :=
  op ← IDENTIFIER_ANY_OP_P b s t;
  b1 ← IDENTIFIER_KIND_BIT_1 b s t;
  Ok (Z.land op (c_not b1)).

(** True if this identifier is for any assignment.  Values 5. *)
Definition IDENTIFIER_ASSIGN_OP_P (b : build) (s : store) (t : tree) : outcome Z :=
  ovl ← IDENTIFIER_OVL_OP_P b s t;
  b0 ← IDENTIFIER_KIND_BIT_0 b s t;
  Ok (Z.land ovl b0).

(** True if this identifier is the name of a type-conversion operator. *)
Definition IDENTIFIER_CONV_OP_P (b : build) (s : store) (t : tree) : outcome Z :=
  op ← IDENTIFIER_ANY_OP_P b s t;
  b1 ← IDENTIFIER_KIND_BIT_1 b s t;
  b0 ← IDENTIFIER_KIND_BIT_0 b s t;
  Ok (Z.land (Z.land op b1) (c_not b0)).

(** The six category predicates of an identifier. *)
Inductive identifier_category : Set :=
| cat_keyword | cat_ctor | cat_dtor | cat_ovl_op | cat_assign_op | cat_conv_op.

#[global] Instance identifier_category_eq_dec : EqDecision identifier_category.
Proof. solve_decision. Defined.

Definition category_predicate (c : identifier_category) :
    build → store → tree → outcome Z :=
  match c with
  | cat_keyword => IDENTIFIER_KEYWORD_P
  | cat_ctor => IDENTIFIER_CTOR_P
  | cat_dtor => IDENTIFIER_DTOR_P
  | cat_ovl_op => IDENTIFIER_OVL_OP_P
  | cat_assign_op => IDENTIFIER_ASSIGN_OP_P
  | cat_conv_op => IDENTIFIER_CONV_OP_P
  end.

(** A predicate holds when it evaluates to a nonzero integer. *)
Definition holds (o : outcome Z) : Prop := ∃ v, o = Ok v ∧ v ≠ 0.

(** The 3-bit kind code: [IDENTIFIER_KIND_BIT_2 .. IDENTIFIER_KIND_BIT_0]
    of a node, read as a number. *)
Definition identifier_kind (n : tree_node) : Z := bf_get (BitField 0 3) (lang_flag n).

(** The kind codes that the mask of each predicate selects; they are the
    values its comment in the sources gives, but for IDENTIFIER_CONV_OP_P,
    whose comment says 7 and whose mask selects 6. *)
Definition category_codes (c : identifier_category) : list Z :=
  match c with
  | cat_keyword => [1]
  | cat_ctor => [2]
  | cat_dtor => [3]
  | cat_ovl_op => [4; 5]
  | cat_assign_op => [5]
  | cat_conv_op => [6]
  end.

(** ** rust-tree.h: class types *)

Section ClassTypes.
Context `{!tree_h} `{!lang_type_layout}.

(** We used to have a variant type for lang_type.  Keep the name of the
    checking accessor for the sole survivor. *)
Definition LANG_TYPE_CLASS_CHECK (b : build) (s : store) (t : tree) : outcome N :=
  TYPE_LANG_SPECIFIC b s t.

(** [LANG_TYPE_CLASS_CHECK (NODE)->member], for a member that is a
    bit-field of [width] bits at offset [off]. *)
Definition lang_type_member (off width : Z) (b : build) (s : store)
    (t : tree) : outcome Z :=
  p ← LANG_TYPE_CLASS_CHECK b s t;
  lt ← deref_lang_type s p;
  Ok (bf_get (BitField off width) (lang_type_bits lt)).

Definition TYPE_GETS_DELETE := lang_type_member gets_delete_off 2.

Definition TYPE_GETS_REG_DELETE (b : build) (s : store) (t : tree) : outcome Z :=
  v ← TYPE_GETS_DELETE b s t; Ok (Z.land v 1).

Definition TYPE_GETS_VEC_DELETE (b : build) (s : store) (t : tree) : outcome Z :=
  v ← TYPE_GETS_DELETE b s t; Ok (Z.land v 2).

Definition TYPE_BEING_DEFINED := lang_type_member being_defined_off 1.

Definition CLASSTYPE_USE_TEMPLATE := lang_type_member use_template_off 2.

Definition RECORD_OR_UNION_CODE_P (c : tree_code) : bool :=
  bool_decide (c = RECORD_TYPE) || bool_decide (c = UNION_TYPE).

Definition CLASS_TYPE_P (b : build) (s : store) (t : tree) : outcome bool :=
  c_and (c ← TREE_CODE s t; Ok (RECORD_OR_UNION_CODE_P c))
        (v ← TYPE_LANG_FLAG 5 b s t; Ok (c_true v)).

(** Nonzero means that this type is either complete or being defined, so
    we can do lookup in it. *)
Definition COMPLETE_OR_OPEN_TYPE_P (b : build) (s : store) (t : tree) : outcome bool :=
  c_or (COMPLETE_TYPE_P b s t)
       (c_and (CLASS_TYPE_P b s t)
              (v ← TYPE_BEING_DEFINED b s t; Ok (c_true v))).

Definition CLASSTYPE_TEMPLATE_INSTANTIATION (b : build) (s : store) (t : tree) : outcome Z :=
  v ← CLASSTYPE_USE_TEMPLATE b s t; Ok (Z.land v 1).

Definition CLASSTYPE_TEMPLATE_SPECIALIZATION (b : build) (s : store) (t : tree) : outcome bool :=
  v ← CLASSTYPE_USE_TEMPLATE b s t; Ok (bool_decide (v = 2)).

Definition CLASSTYPE_IMPLICIT_INSTANTIATION (b : build) (s : store) (t : tree) : outcome bool :=
  v ← CLASSTYPE_USE_TEMPLATE b s t; Ok (bool_decide (v = 1)).

Definition CLASSTYPE_EXPLICIT_INSTANTIATION (b : build) (s : store) (t : tree) : outcome bool :=
  v ← CLASSTYPE_USE_TEMPLATE b s t; Ok (bool_decide (v = 3)).

End ClassTypes.

(** ** rust-tree.h: the template classification of a declaration *)

Definition DECL_USE_TEMPLATE (s : store) (t : tree) : outcome Z :=
  p ← DECL_LANG_SPECIFIC s t;
  d ← deref_lang_decl s p;
  Ok (bf_get base_use_template (base d)).

(** [DECL_USE_TEMPLATE (NODE) = v]. *)
Definition assign_DECL_USE_TEMPLATE (v : Z) (s : store) (t : tree) : outcome store :=
  p ← DECL_LANG_SPECIFIC s t;
  d ← deref_lang_decl s p;
  Ok (store_lang_decl s p (LangDecl (bf_set base_use_template v (base d)) (u d))).

Definition DECL_TEMPLATE_INSTANTIATION (s : store) (t : tree) : outcome Z :=
  v ← DECL_USE_TEMPLATE s t; Ok (Z.land v 1).

Definition DECL_TEMPLATE_SPECIALIZATION (s : store) (t : tree) : outcome bool :=
  v ← DECL_USE_TEMPLATE s t; Ok (bool_decide (v = 2)).

Definition SET_DECL_TEMPLATE_SPECIALIZATION := assign_DECL_USE_TEMPLATE 2.

Definition DECL_IMPLICIT_INSTANTIATION (s : store) (t : tree) : outcome bool :=
  v ← DECL_USE_TEMPLATE s t; Ok (bool_decide (v = 1)).

Definition SET_DECL_IMPLICIT_INSTANTIATION := assign_DECL_USE_TEMPLATE 1.

Definition DECL_EXPLICIT_INSTANTIATION (s : store) (t : tree) : outcome bool :=
  v ← DECL_USE_TEMPLATE s t; Ok (bool_decide (v = 3)).

Definition SET_DECL_EXPLICIT_INSTANTIATION := assign_DECL_USE_TEMPLATE 3.

(** ** rust-tree.h: the checked accessors of [struct lang_decl] *)

(** For function, method, class-data templates. *)
Definition DECL_TEMPLATE_RESULT (b : build) (s : store) (t : tree) : outcome tree :=
  t' ← TEMPLATE_DECL_CHECK b s t;
  n ← deref s t';
  Ok (result n).

(** True for DECL codes which have template info and access. *)
Definition LANG_DECL_HAS_MIN (s : store) (t : tree) : outcome bool :=
  c_or (VAR_OR_FUNCTION_DECL_P s t)
       (c ← TREE_CODE s t;
        Ok (bool_decide (c = FIELD_DECL) || bool_decide (c = CONST_DECL)
            || bool_decide (c = TYPE_DECL) || bool_decide (c = TEMPLATE_DECL)
            || bool_decide (c = USING_DECL) || bool_decide (c = CONCEPT_DECL))).

(** Looks through a template (if present) to find what it declares. *)
Definition STRIP_TEMPLATE (b : build) (s : store) (t : tree) : outcome tree :=
  c ← TREE_CODE s t;
  if bool_decide (c = TEMPLATE_DECL) then DECL_TEMPLATE_RESULT b s t else Ok t.

(** Nonzero for a DECL that represents a function template. *)
Definition DECL_FUNCTION_TEMPLATE_P (b : build) (s : store) (t : tree) : outcome bool :=
  c_and (c ← TREE_CODE s t; Ok (bool_decide (c = TEMPLATE_DECL)))
        (c_and (r ← DECL_TEMPLATE_RESULT b s t; Ok (bool_decide (r ≠ NULL_TREE)))
               (r ← DECL_TEMPLATE_RESULT b s t;
                c ← TREE_CODE s r;
                Ok (bool_decide (c = FUNCTION_DECL)))).

(** Nonzero if NODE declares a function. *)
Definition DECL_DECLARES_FUNCTION_P (b : build) (s : store) (t : tree) : outcome bool :=
  c_or (c ← TREE_CODE s t; Ok (bool_decide (c = FUNCTION_DECL)))
       (DECL_FUNCTION_TEMPLATE_P b s t).

(** The member of [union lang_decl_u] an accessor hands out. *)
Inductive lang_decl_member : Set :=
| member_min | member_fn | member_ns | member_parm | member_decomp.

#[global] Instance lang_decl_member_eq_dec : EqDecision lang_decl_member.
Proof. solve_decision. Defined.

(** [&lt->u.member]: the [lang_decl] and the member of its union. *)
Definition member_ref : Set := N * lang_decl_member.

(** [lt->u.base.selector != sel]. *)
Definition selector_differs (s : store) (lt : N) (sel : lang_decl_selector) : outcome bool :=
  d ← deref_lang_decl s lt;
  Ok (bool_decide (bf_get base_selector (base d) ≠ selector_value sel)).

Definition LANG_DECL_MIN_CHECK (b : build) (s : store) (t : tree) : outcome member_ref :=
  match b with
  | checking =>
      lt ← DECL_LANG_SPECIFIC s t;
      has ← LANG_DECL_HAS_MIN s t;
      if negb has then ICE lang_check_failed else Ok (lt, member_min)
  | release =>
      lt ← DECL_LANG_SPECIFIC s t; Ok (lt, member_min)
  end.

(** We want to be able to check DECL_CONSTRUCTOR_P and such on a function
    template, not just on a FUNCTION_DECL.  So when looking for things in
    lang_decl_fn, look down through a TEMPLATE_DECL into its result. *)
Definition LANG_DECL_FN_CHECK (b : build) (s : store) (t : tree) : outcome member_ref :=
  match b with
  | checking =>
      sub ← STRIP_TEMPLATE b s t;
      lt ← DECL_LANG_SPECIFIC s sub;
      bad ← c_or (f ← DECL_DECLARES_FUNCTION_P b s t; Ok (negb f))
                 (selector_differs s lt lds_fn);
      if bad : bool then ICE lang_check_failed else Ok (lt, member_fn)
  | release =>
      sub ← STRIP_TEMPLATE b s t;
      lt ← DECL_LANG_SPECIFIC s sub;
      Ok (lt, member_fn)
  end.

Definition LANG_DECL_NS_CHECK (b : build) (s : store) (t : tree) : outcome member_ref :=
  match b with
  | checking =>
      lt ← DECL_LANG_SPECIFIC s t;
      bad ← c_or (c ← TREE_CODE s t; Ok (bool_decide (c ≠ NAMESPACE_DECL)))
                 (selector_differs s lt lds_ns);
      if bad : bool then ICE lang_check_failed else Ok (lt, member_ns)
  | release =>
      lt ← DECL_LANG_SPECIFIC s t; Ok (lt, member_ns)
  end.

Definition LANG_DECL_PARM_CHECK (b : build) (s : store) (t : tree) : outcome member_ref :=
  match b with
  | checking =>
      lt ← DECL_LANG_SPECIFIC s t;
      bad ← c_or (c ← TREE_CODE s t; Ok (bool_decide (c ≠ PARM_DECL)))
                 (selector_differs s lt lds_parm);
      if bad : bool then ICE lang_check_failed else Ok (lt, member_parm)
  | release =>
      lt ← DECL_LANG_SPECIFIC s t; Ok (lt, member_parm)
  end.

Definition LANG_DECL_DECOMP_CHECK (b : build) (s : store) (t : tree) : outcome member_ref :=
  match b with
  | checking =>
      lt ← DECL_LANG_SPECIFIC s t;
      bad ← c_or (v ← VAR_P s t; Ok (negb v))
                 (selector_differs s lt lds_decomp);
      if bad : bool then ICE lang_check_failed else Ok (lt, member_decomp)
  | release =>
      lt ← DECL_LANG_SPECIFIC s t; Ok (lt, member_decomp)
  end.

Definition LANG_DECL_CHECK (m : lang_decl_member) :
    build → store → tree → outcome member_ref :=
  match m with
  | member_min => LANG_DECL_MIN_CHECK
  | member_fn => LANG_DECL_FN_CHECK
  | member_ns => LANG_DECL_NS_CHECK
  | member_parm => LANG_DECL_PARM_CHECK
  | member_decomp => LANG_DECL_DECOMP_CHECK
  end.

(** The variants of [union lang_decl_u] that hold a member: [struct
    lang_decl_fn] and [struct lang_decl_decomp] start with a [struct
    lang_decl_min], the other two with the bare [struct lang_decl_base]. *)
Definition variant_holds (sel : lang_decl_selector) (m : lang_decl_member) : bool :=
  match m, sel with
  | member_min, (lds_min | lds_fn | lds_decomp) => true
  | member_fn, lds_fn => true
  | member_ns, lds_ns => true
  | member_parm, lds_parm => true
  | member_decomp, lds_decomp => true
  | _, _ => false
  end.

(** The selector an accessor compares [u.base.selector] with; none for
    [LANG_DECL_MIN_CHECK]. *)
Definition checked_selector (m : lang_decl_member) : option lang_decl_selector :=
  match m with
  | member_min => None
  | member_fn => Some lds_fn
  | member_ns => Some lds_ns
  | member_parm => Some lds_parm
  | member_decomp => Some lds_decomp
  end.

(** The tree codes an accessor admits, on the node [n] it is given and the
    node [sub] it takes the [lang_decl] of. *)
Definition code_admitted (m : lang_decl_member) (n sub : tree_node) : bool :=
  match m with
  | member_min =>
      bool_decide (code n ∈ [VAR_DECL; FUNCTION_DECL; FIELD_DECL; CONST_DECL;
                             TYPE_DECL; TEMPLATE_DECL; USING_DECL; CONCEPT_DECL])
  | member_fn =>
      bool_decide (code n = FUNCTION_DECL)
      || (bool_decide (code n = TEMPLATE_DECL) && bool_decide (code sub = FUNCTION_DECL))
  | member_ns => bool_decide (code n = NAMESPACE_DECL)
  | member_parm => bool_decide (code n = PARM_DECL)
  | member_decomp => bool_decide (code n = VAR_DECL)
  end.

Definition selector_admitted (m : lang_decl_member) (d : lang_decl) : bool :=
  match checked_selector m with
  | None => true
  | Some sel => bool_decide (bf_get base_selector (base d) = selector_value sel)
  end.

(** The node whose [lang_decl] an accessor hands out. *)
Definition subject (m : lang_decl_member) (b : build) (s : store) (t : tree) : outcome tree :=
  match m with
  | member_fn => STRIP_TEMPLATE b s t
  | _ => Ok t
  end.

(** ** rust-tree.h: thunks and cloned functions *)

Definition as_fn (d : lang_decl) : outcome lang_decl_fn :=
  match u d with u_fn f => Ok f | _ => Undefined end.

Definition THUNK_FUNCTION_CHECK (b : build) (s : store) (t : tree) : outcome tree :=
  match b with
  | checking =>
      bad ← c_or (c ← TREE_CODE s t; Ok (bool_decide (c ≠ FUNCTION_DECL)))
            (c_or (p ← DECL_LANG_SPECIFIC s t; Ok (bool_decide (p = 0%N)))
                  (p ← DECL_LANG_SPECIFIC s t;
                   d ← deref_lang_decl s p;
                   f ← as_fn d;
                   Ok (negb (c_true (bf_get fn_thunk_p (fn_bits f))))));
      if bad : bool then ICE tree_check_failed else Ok t
  | release => Ok t
  end.

(** The [lang_decl] whose [u.fn.u5] an accessor designates. *)
Definition THUNK_FIXED_OFFSET_slot (b : build) (s : store) (t : tree) : outcome N :=
  t' ← THUNK_FUNCTION_CHECK b s t; DECL_LANG_SPECIFIC s t'.

Definition DECL_CLONED_FUNCTION_slot (b : build) (s : store) (t : tree) : outcome N :=
  t' ← FUNCTION_DECL_CHECK b s t; DECL_LANG_SPECIFIC s t'.

(** An integer indicating how many bytes should be subtracted from the
    this or result pointer when this function is called. *)
Definition THUNK_FIXED_OFFSET (b : build) (s : store) (t : tree) : outcome Z :=
  p ← THUNK_FIXED_OFFSET_slot b s t;
  d ← deref_lang_decl s p;
  f ← as_fn d;
  match u5 f with fixed_offset v => Ok v | cloned_function _ => Undefined end.

(** [THUNK_FIXED_OFFSET (DECL) = v]. *)
Definition assign_THUNK_FIXED_OFFSET (v : Z) (b : build) (s : store) (t : tree) : outcome store :=
  p ← THUNK_FIXED_OFFSET_slot b s t;
  d ← deref_lang_decl s p;
  f ← as_fn d;
  Ok (store_lang_decl s p
        (LangDecl (base d)
           (u_fn (LangDeclFn (fn_min f) (fn_bits f) (befriending_classes f)
                    (context f) (fixed_offset v) (u3 f))))).

(** If DECL_CLONED_FUNCTION_P holds, this is the function that was
    cloned. *)
Definition DECL_CLONED_FUNCTION (b : build) (s : store) (t : tree) : outcome tree :=
  p ← DECL_CLONED_FUNCTION_slot b s t;
  d ← deref_lang_decl s p;
  f ← as_fn d;
  match u5 f with cloned_function c => Ok c | fixed_offset _ => Undefined end.

(** An access is rejected when a checking macro raises its diagnostic. *)
Definition rejected {A} (o : outcome A) : Prop := ∃ e, o = ICE e.

(** ** rust-tree.h: the clones of a constructor or destructor *)

Section Clones.
Context `{!global_trees}.

(** Nonzero if NODE (a FUNCTION_DECL) is a constructor, but not either the
    specialized in-charge constructor or the specialized not-in-charge
    constructor. *)
Definition DECL_MAYBE_IN_CHARGE_CONSTRUCTOR_P (s : store) (t : tree) : outcome bool :=
  nm ← DECL_NAME s t; Ok (bool_decide (nm = ctor_identifier)).

(** Nonzero if NODE (a FUNCTION_DECL) is a destructor, but not the
    specialized in-charge constructor, in-charge deleting constructor, or
    the base destructor. *)
Definition DECL_MAYBE_IN_CHARGE_DESTRUCTOR_P (s : store) (t : tree) : outcome bool :=
  nm ← DECL_NAME s t; Ok (bool_decide (nm = dtor_identifier)).

Definition DECL_MAYBE_IN_CHARGE_CDTOR_P (s : store) (t : tree) : outcome bool :=
  c_or (DECL_MAYBE_IN_CHARGE_CONSTRUCTOR_P s t)
       (DECL_MAYBE_IN_CHARGE_DESTRUCTOR_P s t).

(** Nonzero if NODE (a _DECL) is a cloned constructor or destructor. *)
Definition DECL_CLONED_FUNCTION_P (b : build) (s : store) (t : tree) : outcome bool :=
  c_and (nm ← DECL_NAME s t; Ok (bool_decide (nm ≠ NULL_TREE)))
        (c_and (nm ← DECL_NAME s t;
                v ← IDENTIFIER_CDTOR_P b s nm;
                Ok (c_true v))
               (m ← DECL_MAYBE_IN_CHARGE_CDTOR_P s t; Ok (negb m))).

(** The [for] loop of [FOR_EACH_CLONE], entered with [CLONE = clone]: the
    values [CLONE] takes in the loop body, in order.  The body is taken not
    to relink the chain. *)
Fixpoint clone_loop (fuel : nat) (b : build) (s : store) (clone : tree) : outcome (list tree) :=
  match fuel with
  | O => OutOfFuel
  | S fuel' =>
      if decide (clone = NULL_TREE) then Ok []
      else
        p ← DECL_CLONED_FUNCTION_P b s clone;
        if p : bool then
          next ← DECL_CHAIN s clone;
          rest ← clone_loop fuel' b s next;
          Ok (clone :: rest)
        else Ok []
  end.

(** Perform an action for each clone of FN, if FN is a function with
    clones. *)
Definition FOR_EACH_CLONE (fuel : nat) (b : build) (s : store) (fn : tree) : outcome (list tree) :=
  g ← c_and (c ← TREE_CODE s fn; Ok (bool_decide (c = FUNCTION_DECL)))
            (DECL_MAYBE_IN_CHARGE_CDTOR_P s fn);
  if negb g then Ok []
  else
    first ← DECL_CHAIN s fn;
    clone_loop fuel b s first.

(** The guard of [FOR_EACH_CLONE] on the node of [fn]:
    [TREE_CODE (FN) == FUNCTION_DECL && DECL_MAYBE_IN_CHARGE_CDTOR_P (FN)]. *)
Definition has_clones (n : tree_node) : bool :=
  bool_decide (code n = FUNCTION_DECL)
  && (bool_decide (name n = ctor_identifier) || bool_decide (name n = dtor_identifier)).

(** [DECL_CLONED_FUNCTION_P (clone)] evaluates to true. *)
Definition is_clone (b : build) (s : store) (clone : tree) : bool :=
  match DECL_CLONED_FUNCTION_P b s clone with Ok true => true | _ => false end.

(** The declaration [t] has no name, or its DECL_NAME points to an
    identifier. *)
Definition named_by_identifier (b : build) (s : store) (t : tree) : Prop :=
  ∃ n, deref s t = Ok n
       ∧ (name n = NULL_TREE
          ∨ ∃ id, deref s (name n) = Ok id
                  ∧ (b = checking → code id = IDENTIFIER_NODE)).

End Clones.

(** The declarations that follow [t] on its chain, up to the null link. *)
Inductive chain_from (s : store) : tree → list tree → Prop :=
| chain_end : chain_from s NULL_TREE []
| chain_link t n l :
    t ≠ NULL_TREE →
    trees s !! t = Some n →
    chain_from s (chain n) l →
    chain_from s t (t :: l).

(** The longest prefix of [l] whose elements all satisfy [p]. *)
Fixpoint maximal_run {A} (p : A → bool) (l : list A) : list A :=
  match l with
  | [] => []
  | x :: l' => if p x then x :: maximal_run p l' else []
  end.

(** ** rust-tree.cc: marking uses *)

Section MarkUse.
Context `{!global_trees} `{!tree_h}.

(** [DECL_READ_P (exp) = 1]. *)
Definition set_DECL_READ_P (s : store) (exp : tree) : outcome store :=
  n ← deref s exp; Ok (store_node s exp (with_decl_read_flag true n)).

(** [TREE_OPERAND (expr, i) = op]. *)
Definition assign_TREE_OPERAND (s : store) (expr : tree) (i : nat) (op : tree) : outcome store :=
  n ← deref s expr;
  if bool_decide (i < length (operands n))%nat
  then Ok (store_node s expr (with_operands (<[i := op]> (operands n)) n))
  else Undefined.

Definition TREE_SET_CODE (s : store) (t : tree) (c : tree_code) : outcome store :=
  n ← deref s t; Ok (store_node s t (with_code c n)).

Fixpoint mark_exp_read (fuel : nat) (s : store) (exp : tree) : outcome store :=
  match fuel with
  | O => OutOfFuel
  | S fuel' =>
      if decide (exp = NULL_TREE) then Ok s
      else
        c ← TREE_CODE s exp;
        match c with
        | VAR_DECL | PARM_DECL => set_DECL_READ_P s exp
        | ARRAY_REF | COMPONENT_REF | MODIFY_EXPR | REALPART_EXPR
        | IMAGPART_EXPR | NOP_EXPR | CONVERT_EXPR | ADDR_EXPR | INDIRECT_REF
        | FLOAT_EXPR | NON_DEPENDENT_EXPR | VIEW_CONVERT_EXPR =>
            op ← TREE_OPERAND s exp 0; mark_exp_read fuel' s op
        | COMPOUND_EXPR =>
            op ← TREE_OPERAND s exp 1; mark_exp_read fuel' s op
        | COND_EXPR =>
            op1 ← TREE_OPERAND s exp 1;
            s1 ← (if decide (op1 = NULL_TREE) then Ok s else mark_exp_read fuel' s op1);
            op2 ← TREE_OPERAND s1 exp 2;
            if decide (op2 = NULL_TREE) then Ok s1 else mark_exp_read fuel' s1 op2
        | _ => Ok s
        end
  end.

(** Returns true if NODE is a reference. *)
Definition TYPE_REF_P (s : store) (t : tree) : outcome bool :=
  c ← TREE_CODE s t; Ok (bool_decide (c = REFERENCE_TYPE)).

(** True if NODE is an implicit INDIRECT_REF from
    convert_from_reference. *)
Definition REFERENCE_REF_P (s : store) (t : tree) : outcome bool :=
  c_and (c ← TREE_CODE s t; Ok (bool_decide (c = INDIRECT_REF)))
        (c_and (op ← TREE_OPERAND s t 0; ty ← TREE_TYPE s op;
                Ok (bool_decide (ty ≠ NULL_TREE)))
               (op ← TREE_OPERAND s t 0; ty ← TREE_TYPE s op; TYPE_REF_P s ty)).

Definition convert_from_reference (fuel : nat) (s : store) (val : tree) : outcome (tree * store) :=
  is_ref ← c_and (ty ← TREE_TYPE s val; Ok (bool_decide (ty ≠ NULL_TREE)))
                 (ty ← TREE_TYPE s val; TYPE_REF_P s ty);
  if is_ref : bool then
    ty ← TREE_TYPE s val;
    t ← TREE_TYPE s ty;
    let '(ref, s1) := build1 INDIRECT_REF t val s in
    s2 ← mark_exp_read fuel s1 val;
    nref ← deref s2 ref;
    nval ← deref s2 val;
    Ok (ref, store_node s2 ref
               (with_side_effects_flag (volatile_flag nref || side_effects_flag nval) nref))
  else Ok (val, s).

(** The closing loop of [mark_use] over the operands [i] with
    [recurse_op[i]] set; [recur] is [RECUR]. *)
Fixpoint mark_use_operands (recur : store → tree → outcome (tree * store))
    (expr : tree) (recurse_op : list (nat * bool)) (s : store) : outcome (tree * store) :=
  match recurse_op with
  | [] => Ok (expr, s)
  | (i, true) :: rest =>
      op ← TREE_OPERAND s expr i;
      r ← recur s op;
      if decide (r.1 = error_mark_node) then Ok (error_mark_node, r.2)
      else
        s' ← assign_TREE_OPERAND r.2 expr i r.1;
        mark_use_operands recur expr rest s'
  | (_, false) :: rest => mark_use_operands recur expr rest s
  end.

Fixpoint mark_use (fuel : nat) (s : store) (expr : tree) (rvalue_p read_p : bool)
    (loc : N) (reject_builtin : bool) {struct fuel} : outcome (tree * store) :=
  match fuel with
  | O => OutOfFuel
  | S fuel' =>
      if bool_decide (expr = NULL_TREE) || error_operand_p s expr then Ok (expr, s)
      else if reject_builtin then Ok (error_mark_node, s)
      else
        s ← (if read_p then mark_exp_read fuel s expr else Ok s);
        c ← TREE_CODE s expr;
        let RECUR := λ (loc : N) (s : store) (t : tree),
          mark_use fuel' s t rvalue_p read_p loc reject_builtin in
        match c with
        | COMPONENT_REF | NON_DEPENDENT_EXPR =>
            mark_use_operands (RECUR loc) expr [(0, true); (1, false); (2, false)]%nat s
        | COMPOUND_EXPR =>
            mark_use_operands (RECUR loc) expr [(0, false); (1, true); (2, false)]%nat s
        | COND_EXPR =>
            op1 ← TREE_OPERAND s expr 1;
            mark_use_operands (RECUR loc) expr
              [(0, false); (1, bool_decide (op1 ≠ NULL_TREE)); (2, true)]%nat s
        | INDIRECT_REF =>
            is_ref ← REFERENCE_REF_P s expr;
            if is_ref : bool then
              (* Try to look through the reference. *)
              ref ← TREE_OPERAND s expr 0;
              (* mark_rvalue_use (ref, loc, reject_builtin) *)
              r ← mark_use fuel' s ref true true loc reject_builtin;
              if decide (r.1 ≠ ref) then convert_from_reference fuel r.2 r.1
              else Ok (expr, r.2)
            else Ok (expr, s)
        | VIEW_CONVERT_EXPR =>
            if location_wrapper_p s expr then
              let loc := EXPR_LOCATION s expr in
              op ← TREE_OPERAND s expr 0;
              r ← RECUR loc s op;
              let nop := r.1 in
              if decide (nop = error_mark_node) then Ok (error_mark_node, r.2)
              else if decide (op = nop) then (* No change. *) Ok (expr, r.2)
              else
                reuse ← c_or (DECL_P r.2 nop) (CONSTANT_CLASS_P r.2 nop);
                if reuse : bool then
                  (* Reuse the location wrapper. *)
                  s1 ← assign_TREE_OPERAND r.2 expr 0 nop;
                  s2 ← (if rvalue_p then TREE_SET_CODE s1 expr NON_LVALUE_EXPR else Ok s1);
                  Ok (expr, s2)
                else
                  (* Drop the location wrapper. *)
                  Ok (nop, protected_set_expr_location nop loc r.2)
            else
              mark_use_operands (RECUR loc) expr [(0, true); (1, false); (2, false)]%nat s
        | NOP_EXPR | CONVERT_EXPR =>
            mark_use_operands (RECUR loc) expr [(0, true); (1, false); (2, false)]%nat s
        | _ => Ok (expr, s)
        end
  end.

Definition mark_rvalue_use (fuel : nat) (s : store) (e : tree) (loc : N)
    (reject_builtin : bool) : outcome (tree * store) :=
  mark_use fuel s e true true loc reject_builtin.

End MarkUse.

(** ** Type comparison *)

Module Comptypes.

(** Used with comptypes, and related functions, to guide type
    comparison. *)
Definition COMPARE_STRICT : Z := 0.
Definition COMPARE_BASE : Z := 1.
Definition COMPARE_DERIVED : Z := 2.
Definition COMPARE_REDECLARATION : Z := 4.
Definition COMPARE_STRUCTURAL : Z := 8.

(** Modelled from the spec: the type nodes [comptypes] compares.  The
    function and the inheritance graph it consults ([lookup_base]) are not
    among the sources, so a type is described by what the comparison looks
    at: a class by its name and its direct bases, a pointer or reference by
    what it points or refers to, any other type by its name. *)
Inductive type_node : Set :=
| scalar (id : N)
| class (id : N) (bases : list type_node)
| pointer (to : type_node)
| reference (to : type_node).

(** "Just check if the types are the same." *)
Fixpoint same_type (t1 t2 : type_node) : bool :=
  match t1, t2 with
  | scalar i, scalar j => bool_decide (i = j)
  | class i bs, class j cs =>
      bool_decide (i = j)
      && (fix same_list (l1 l2 : list type_node) : bool :=
            match l1, l2 with
            | [], [] => true
            | x :: l1', y :: l2' => same_type x y && same_list l1' l2'
            | _, _ => false
            end) bs cs
  | pointer a, pointer b => same_type a b
  | reference a, reference b => same_type a b
  | _, _ => false
  end.

(** "Nonzero iff TYPE is derived from PARENT": [parent] is a direct or an
    indirect base of [type]. *)
Fixpoint DERIVED_FROM_P (parent type : type_node) : bool :=
  match type with
  | class _ bs =>
      (fix some_base (l : list type_node) : bool :=
         match l with
         | [] => false
         | b :: l' => same_type parent b || DERIVED_FROM_P parent b || some_base l'
         end) bs
  | _ => false
  end.

(** "if TYPE2 is derived from TYPE1, or if TYPE2 is a pointer (reference)
    to a class derived from the type pointed to (referred to) by TYPE1". *)
Definition base_of (t1 t2 : type_node) : bool :=
  DERIVED_FROM_P t1 t2
  || match t1, t2 with
     | pointer a, pointer b => DERIVED_FROM_P a b
     | reference a, reference b => DERIVED_FROM_P a b
     | _, _ => false
     end.

(** Modelled from the spec: [comptypes], "a same-type structural-equality
    predicate over type nodes, parameterized by a small comparison-mode
    enumeration": COMPARE_BASE "check to see if the second type is derived
    from the first", COMPARE_DERIVED "like COMPARE_BASE, but in reverse";
    the other modes compare as COMPARE_STRICT does. *)
Definition comptypes (t1 t2 : type_node) (strict : Z) : bool :=
  same_type t1 t2
  || (c_true (Z.land strict COMPARE_BASE) && base_of t1 t2)
  || (c_true (Z.land strict COMPARE_DERIVED) && base_of t2 t1).

(** Returns nonzero iff TYPE1 and TYPE2 are the same type, in the usual
    sense of `same'. *)
Definition same_type_p (t1 t2 : type_node) : bool := comptypes t1 t2 COMPARE_STRICT.

(** Returns nonzero iff TYPE1 and TYPE2 are the same type, or if TYPE2 is
    derived from TYPE1, or if TYPE2 is a pointer (reference) to a class
    derived from the type pointed to (referred to) by TYPE1. *)
Definition same_or_base_type_p (t1 t2 : type_node) : bool := comptypes t1 t2 COMPARE_BASE.

Fixpoint type_size (t : type_node) : nat :=
  match t with
  | scalar _ => 1
  | class _ bs => S (list_sum (map type_size bs))
  | pointer a | reference a => S (type_size a)
  end.

End Comptypes.

(** * Further accessors of rust-tree.h *)

(** ** The language linkage of a declaration *)

(** [enum languages], with the value of each enumerator. *)
Inductive languages : Set := lang_c | lang_cplusplus.

#[global] Instance languages_eq_dec : EqDecision languages.
Proof. solve_decision. Defined.

Definition languages_value (l : languages) : Z :=
  match l with lang_c => 0 | lang_cplusplus => 1 end.

(** For a FUNCTION_DECL or a VAR_DECL, the language linkage for the
    declaration.  A FUNCTION_DECL without DECL_LANG_SPECIFIC was created by
    language-independent code, and has C linkage. *)
Definition DECL_LANGUAGE (s : store) (t : tree) : outcome Z :=
  p ← DECL_LANG_SPECIFIC s t;
  if decide (p ≠ 0%N) then
    p ← DECL_LANG_SPECIFIC s t;
    d ← deref_lang_decl s p;
    Ok (bf_get base_language (base d))
  else
    c ← TREE_CODE s t;
    Ok (if bool_decide (c = FUNCTION_DECL) then languages_value lang_c
        else languages_value lang_cplusplus).

(** Set the language linkage for NODE to LANGUAGE. *)
Definition SET_DECL_LANGUAGE (l : languages) (s : store) (t : tree) : outcome store :=
  p ← DECL_LANG_SPECIFIC s t;
  d ← deref_lang_decl s p;
  Ok (store_lang_decl s p (LangDecl (bf_set base_language (languages_value l) (base d)) (u d))).

(** Nonzero if NODE is `extern "C"'. *)
Definition DECL_EXTERN_C_P (s : store) (t : tree) : outcome bool :=
  l ← DECL_LANGUAGE s t; Ok (bool_decide (l = languages_value lang_c)).

Definition VAR_DECL_CHECK b s t := TREE_CHECK b s t [VAR_DECL].

(** Nonzero if NODE, a static data member, was declared in its class as an
    array of unknown bound. *)
Definition VAR_HAD_UNKNOWN_BOUND (b : build) (s : store) (t : tree) : outcome bool :=
  t' ← VAR_DECL_CHECK b s t;
  p ← DECL_LANG_SPECIFIC s t';
  if decide (p ≠ 0%N) then
    p ← DECL_LANG_SPECIFIC s t;
    d ← deref_lang_decl s p;
    Ok (c_true (bf_get base_unknown_bound_p (base d)))
  else Ok false.

Definition SET_VAR_HAD_UNKNOWN_BOUND (b : build) (s : store) (t : tree) : outcome store :=
  t' ← VAR_DECL_CHECK b s t;
  p ← DECL_LANG_SPECIFIC s t';
  d ← deref_lang_decl s p;
  Ok (store_lang_decl s p (LangDecl (bf_set base_unknown_bound_p 1 (base d)) (u d))).

(** The three assignments to a bit-field of [u.base] above. *)
Inductive base_assignment : Set :=
| to_use_template (v : Z)
| to_language (l : languages)
| to_unknown_bound_p (b : build).

Definition assign_base (a : base_assignment) : store → tree → outcome store :=
  match a with
  | to_use_template v => assign_DECL_USE_TEMPLATE v
  | to_language l => SET_DECL_LANGUAGE l
  | to_unknown_bound_p b => SET_VAR_HAD_UNKNOWN_BOUND b
  end.

(** ** The members of [struct lang_decl_min] and [struct lang_decl_fn] *)

(** [u.min]: [struct lang_decl_fn] and [struct lang_decl_decomp] start with
    a [struct lang_decl_min], which [u.min] then designates. *)
Definition as_min (d : lang_decl) : outcome lang_decl_min :=
  match u d with
  | u_min m => Ok m
  | u_fn f => Ok (fn_min f)
  | u_decomp c => Ok (decomp_min c)
  | _ => Undefined
  end.

(** [u.min = m], for the variant the union holds. *)
Definition with_min (m : lang_decl_min) (d : lang_decl) : outcome lang_decl :=
  match u d with
  | u_min _ => Ok (LangDecl (base d) (u_min m))
  | u_fn f =>
      Ok (LangDecl (base d)
            (u_fn (LangDeclFn m (fn_bits f) (befriending_classes f) (context f)
                     (u5 f) (u3 f))))
  | u_decomp c => Ok (LangDecl (base d) (u_decomp (LangDeclDecomp m (decomp_base c))))
  | _ => Undefined
  end.

(** Returns t iff the node can have a TEMPLATE_INFO field. *)
Definition template_info_decl_check (s : store) (t : tree) : outcome tree :=
  c ← TREE_CODE s t;
  match c with
  | VAR_DECL | FUNCTION_DECL | FIELD_DECL | TYPE_DECL | CONCEPT_DECL
  | TEMPLATE_DECL => Ok t
  | _ => ICE tree_check_failed
  end.

Definition TEMPLATE_INFO_DECL_CHECK (b : build) (s : store) (t : tree) : outcome tree :=
  match b with
  | checking => template_info_decl_check s t
  | release => Ok t
  end.

(** [DECL_LANG_SPECIFIC (TEMPLATE_INFO_DECL_CHECK (NODE))->u.min.template_info] *)
Definition DECL_TEMPLATE_INFO (b : build) (s : store) (t : tree) : outcome tree :=
  t' ← TEMPLATE_INFO_DECL_CHECK b s t;
  p ← DECL_LANG_SPECIFIC s t';
  d ← deref_lang_decl s p;
  m ← as_min d;
  Ok (template_info m).

(** [LANG_DECL_MIN_CHECK (NODE)->access] *)
Definition DECL_ACCESS (b : build) (s : store) (t : tree) : outcome tree :=
  r ← LANG_DECL_MIN_CHECK b s t;
  d ← deref_lang_decl s r.1;
  m ← as_min d;
  Ok (access m).

(** Discriminator for name mangling. *)
Definition DECL_DISCRIMINATOR := DECL_ACCESS.

(** For a lambda capture proxy, its captured variable. *)
Definition DECL_CAPTURED_VARIABLE := DECL_ACCESS.

(** A tree indicating how to perform the virtual adjustment. *)
Definition THUNK_VIRTUAL_OFFSET (b : build) (s : store) (t : tree) : outcome tree :=
  t' ← FUNCTION_DECL_CHECK b s t; DECL_ACCESS b s t'.

(** [THUNK_VIRTUAL_OFFSET (DECL) = v]. *)
Definition assign_THUNK_VIRTUAL_OFFSET (v : tree) (b : build) (s : store) (t : tree) : outcome store :=
  t' ← FUNCTION_DECL_CHECK b s t;
  r ← LANG_DECL_MIN_CHECK b s t';
  d ← deref_lang_decl s r.1;
  m ← as_min d;
  d' ← with_min (LangDeclMin (template_info m) v) d;
  Ok (store_lang_decl s r.1 d').

(** A thunk which is equivalent to another thunk. *)
Definition THUNK_ALIAS (b : build) (s : store) (t : tree) : outcome tree :=
  t' ← FUNCTION_DECL_CHECK b s t;
  p ← DECL_LANG_SPECIFIC s t';
  d ← deref_lang_decl s p;
  m ← as_min d;
  Ok (template_info m).

(** [THUNK_ALIAS (DECL) = v]. *)
Definition assign_THUNK_ALIAS (v : tree) (b : build) (s : store) (t : tree) : outcome store :=
  t' ← FUNCTION_DECL_CHECK b s t;
  p ← DECL_LANG_SPECIFIC s t';
  d ← deref_lang_decl s p;
  m ← as_min d;
  d' ← with_min (LangDeclMin v (access m)) d;
  Ok (store_lang_decl s p d').

(** [LANG_DECL_FN_CHECK (NODE)->member], for a member that is the bit-field
    [f] of [struct lang_decl_fn]. *)
Definition lang_decl_fn_member (f : bitfield) (b : build) (s : store) (t : tree) : outcome Z :=
  r ← LANG_DECL_FN_CHECK b s t;
  d ← deref_lang_decl s r.1;
  fn ← as_fn d;
  Ok (bf_get f (fn_bits fn)).

(** [LANG_DECL_FN_CHECK (NODE)->member = v]. *)
Definition assign_lang_decl_fn_member (f : bitfield) (v : Z) (b : build) (s : store)
    (t : tree) : outcome store :=
  r ← LANG_DECL_FN_CHECK b s t;
  d ← deref_lang_decl s r.1;
  fn ← as_fn d;
  Ok (store_lang_decl s r.1
        (LangDecl (base d)
           (u_fn (LangDeclFn (fn_min fn) (bf_set f v (fn_bits fn))
                    (befriending_classes fn) (context fn) (u5 fn) (u3 fn))))).

(** Nonzero if the VTT parm has been added to NODE. *)
Definition DECL_HAS_VTT_PARM_P := lang_decl_fn_member fn_has_vtt_parm_p.

(** For FUNCTION_DECLs: nonzero means that this function is a constructor
    or a destructor with an extra in-charge parameter to control whether or
    not virtual bases are constructed. *)
Definition DECL_HAS_IN_CHARGE_PARM_P := lang_decl_fn_member fn_has_in_charge_parm_p.

(** NODE is a function_decl for an overloaded operator.  Return its
    compressed (raw) operator code. *)
Definition DECL_OVERLOADED_OPERATOR_CODE_RAW := lang_decl_fn_member fn_ovl_op_code.

(** ** Thunks *)

(** Nonzero if NODE is a thunk, rather than an ordinary function. *)
Definition DECL_THUNK_P (b : build) (s : store) (t : tree) : outcome bool :=
  c_and (c ← TREE_CODE s t; Ok (bool_decide (c = FUNCTION_DECL)))
        (c_and (p ← DECL_LANG_SPECIFIC s t; Ok (bool_decide (p ≠ 0%N)))
               (v ← lang_decl_fn_member fn_thunk_p b s t; Ok (c_true v))).

(** Set DECL_THUNK_P for node. *)
Definition SET_DECL_THUNK_P (this_adjusting : Z) (b : build) (s : store) (t : tree) : outcome store :=
  s1 ← assign_lang_decl_fn_member fn_thunk_p 1 b s t;
  assign_lang_decl_fn_member fn_this_thunk_p this_adjusting b s1 t.

(** Nonzero if NODE is a this pointer adjusting thunk. *)
Definition DECL_THIS_THUNK_P (b : build) (s : store) (t : tree) : outcome bool :=
  c_and (DECL_THUNK_P b s t)
        (v ← lang_decl_fn_member fn_this_thunk_p b s t; Ok (c_true v)).

(** Nonzero if NODE is a result pointer adjusting thunk. *)
Definition DECL_RESULT_THUNK_P (b : build) (s : store) (t : tree) : outcome bool :=
  c_and (DECL_THUNK_P b s t)
        (v ← lang_decl_fn_member fn_this_thunk_p b s t; Ok (negb (c_true v))).

(** Nonzero if NODE is a FUNCTION_DECL, but not a thunk. *)
Definition DECL_NON_THUNK_FUNCTION_P (b : build) (s : store) (t : tree) : outcome bool :=
  c_and (c ← TREE_CODE s t; Ok (bool_decide (c = FUNCTION_DECL)))
        (v ← DECL_THUNK_P b s t; Ok (negb v)).

(** Nonzero if NODE is an `extern "C"' function. *)
Definition DECL_EXTERN_C_FUNCTION_P (b : build) (s : store) (t : tree) : outcome bool :=
  c_and (DECL_NON_THUNK_FUNCTION_P b s t) (DECL_EXTERN_C_P s t).

(** The bit-field of [u.base] an assignment writes. *)
Definition assigned_field (a : base_assignment) : bitfield :=
  match a with
  | to_use_template _ => base_use_template
  | to_language _ => base_language
  | to_unknown_bound_p _ => base_unknown_bound_p
  end.

(** ** Class types *)

(** Modelled from the spec: [RECORD_OR_UNION_CHECK] of tree.h, which is
    not among the sources, one of the "macros that assert a node's kind
    before exposing a field": [TREE_CHECK3 (T, RECORD_TYPE, UNION_TYPE,
    QUAL_UNION_TYPE)].  It lets one code more through than
    [RECORD_OR_UNION_CODE_P] of rust-tree.h lists. *)
Definition RECORD_OR_UNION_CHECK b s t :=
  TREE_CHECK b s t [RECORD_TYPE; UNION_TYPE; QUAL_UNION_TYPE].

(** Set CLASS_TYPE_P for T to VAL.  T must be a class, struct, or union
    type. *)
Definition SET_CLASS_TYPE_P (val : Z) (b : build) (s : store) (t : tree) : outcome store :=
  t' ← RECORD_OR_UNION_CHECK b s t; SET_LANG_FLAG type_bank 5 val b s t'.

(** Nonzero if T is a class type but not a union. *)
Definition NON_UNION_CLASS_TYPE_P (b : build) (s : store) (t : tree) : outcome bool :=
  c_and (c ← TREE_CODE s t; Ok (bool_decide (c = RECORD_TYPE)))
        (v ← TYPE_LANG_FLAG 5 b s t; Ok (c_true v)).

Definition OVERLOAD_TYPE_P (b : build) (s : store) (t : tree) : outcome bool :=
  c_or (CLASS_TYPE_P b s t)
       (c ← TREE_CODE s t; Ok (bool_decide (c = ENUMERAL_TYPE))).

(** ** Identifiers and the names of declarations *)

(** Used by various search routines. *)
Definition IDENTIFIER_MARKED (b : build) (s : store) (t : tree) : outcome Z :=
  t' ← IDENTIFIER_NODE_CHECK b s t; TREE_LANG_FLAG 4 b s t'.

(** [IDENTIFIER_MARKED (NODE) = v]. *)
Definition assign_IDENTIFIER_MARKED (v : Z) (b : build) (s : store) (t : tree) : outcome store :=
  t' ← IDENTIFIER_NODE_CHECK b s t; SET_LANG_FLAG tree_bank 4 v b s t'.

(** Nonzero if this identifier is used as a virtual function name somewhere
    (optimizes searches). *)
Definition IDENTIFIER_VIRTUAL_P (b : build) (s : store) (t : tree) : outcome Z :=
  t' ← IDENTIFIER_NODE_CHECK b s t; TREE_LANG_FLAG 5 b s t'.

(** [IDENTIFIER_VIRTUAL_P (NODE) = v]. *)
Definition assign_IDENTIFIER_VIRTUAL_P (v : Z) (b : build) (s : store) (t : tree) : outcome store :=
  t' ← IDENTIFIER_NODE_CHECK b s t; SET_LANG_FLAG tree_bank 5 v b s t'.

(** True iff decl NODE is for an overloaded operator. *)
Definition DECL_OVERLOADED_OPERATOR_P (b : build) (s : store) (t : tree) : outcome Z :=
  nm ← DECL_NAME s t; IDENTIFIER_ANY_OP_P b s nm.

(** Nonzero if NODE is an assignment operator (including += and such). *)
Definition DECL_ASSIGNMENT_OPERATOR_P (b : build) (s : store) (t : tree) : outcome Z :=
  nm ← DECL_NAME s t; IDENTIFIER_ASSIGN_OP_P b s nm.

(** Nonzero if NODE is a user-defined conversion operator. *)
Definition DECL_CONV_FN_P (b : build) (s : store) (t : tree) : outcome Z :=
  nm ← DECL_NAME s t; IDENTIFIER_CONV_OP_P b s nm.

(** * Further functions of rust-tree.cc *)

(** What [mark_exp_read] may change between two stores: nothing but
    DECL_READ_P of VAR_DECL and PARM_DECL nodes, which it sets. *)
Definition read_marked (s s' : store) : Prop :=
  lang_decls s' = lang_decls s
  ∧ lang_types s' = lang_types s
  ∧ ∀ t, trees s' !! t = trees s !! t
         ∨ ∃ n, trees s !! t = Some n
                ∧ (code n = VAR_DECL ∨ code n = PARM_DECL)
                ∧ trees s' !! t = Some (with_decl_read_flag true n).

(** The codes [mark_exp_read] looks through to operand 0. *)
Definition read_through_codes : list tree_code :=
  [ARRAY_REF; COMPONENT_REF; MODIFY_EXPR; REALPART_EXPR; IMAGPART_EXPR; NOP_EXPR;
   CONVERT_EXPR; ADDR_EXPR; INDIRECT_REF; FLOAT_EXPR; NON_DEPENDENT_EXPR;
   VIEW_CONVERT_EXPR].

(** [read_path s exp v k]: the variable or parameter [v] is what [exp]
    reads, [k] operands down: through operand 0 of the codes above and
    through operand 1 of a COMPOUND_EXPR. *)
Inductive read_path (s : store) : tree → tree → nat → Prop :=
| read_here v n :
    deref s v = Ok n →
    code n = VAR_DECL ∨ code n = PARM_DECL →
    read_path s v v 0
| read_operand_0 exp n op v k :
    deref s exp = Ok n →
    code n ∈ read_through_codes →
    operands n !! 0%nat = Some op →
    read_path s op v k →
    read_path s exp v (S k)
| read_operand_1 exp n op v k :
    deref s exp = Ok n →
    code n = COMPOUND_EXPR →
    operands n !! 1%nat = Some op →
    read_path s op v k →
    read_path s exp v (S k).

(** What these functions use of tree.h, tree.cc and input.h and the sources
    do not define: the current location, the functions behind
    STRIP_ANY_LOCATION_WRAPPER and STRIP_NOPS, and the code FDESC_EXPR of
    tree.def. *)
Class tree_cc : Type := TreeCc {
  input_location : N;
  tree_strip_any_location_wrapper : store → tree → tree;
  tree_strip_nop_conversions : store → tree → tree;
  FDESC_EXPR : tree_code
}.

Section MarkUseCallers.
Context `{!global_trees} `{!tree_h} `{!tree_cc}.

Definition mark_lvalue_use (fuel : nat) (s : store) (expr : tree) : outcome (tree * store) :=
  mark_use fuel s expr false true input_location false.

Definition mark_lvalue_use_nonread (fuel : nat) (s : store) (expr : tree) : outcome (tree * store) :=
  mark_use fuel s expr false false input_location false.

Fixpoint mark_discarded_use (fuel : nat) (s : store) (expr : tree) : outcome (tree * store) :=
  match fuel with
  | O => OutOfFuel
  | S fuel' =>
      if decide (expr = NULL_TREE) then Ok (expr, s)
      else
        let expr := tree_strip_any_location_wrapper s expr in
        c ← TREE_CODE s expr;
        match c with
        | COND_EXPR =>
            op2 ← TREE_OPERAND s expr 2;
            r2 ← mark_discarded_use fuel' s op2;
            s2 ← assign_TREE_OPERAND r2.2 expr 2 r2.1;
            op1 ← TREE_OPERAND s2 expr 1;
            r1 ← mark_discarded_use fuel' s2 op1;
            s1 ← assign_TREE_OPERAND r1.2 expr 1 r1.1;
            Ok (expr, s1)
        | COMPOUND_EXPR =>
            op1 ← TREE_OPERAND s expr 1;
            r1 ← mark_discarded_use fuel' s op1;
            s1 ← assign_TREE_OPERAND r1.2 expr 1 r1.1;
            Ok (expr, s1)
        | COMPONENT_REF | ARRAY_REF | INDIRECT_REF | MEMBER_REF =>
            mark_use fuel s expr true true input_location false
        | _ =>
            d ← DECL_P s expr;
            if d : bool then mark_use fuel s expr true true input_location false
            else Ok (expr, s)
        end
  end.

(** Returns true if NODE is a pointer. *)
Definition TYPE_PTR_P (s : store) (t : tree) : outcome bool :=
  c ← TREE_CODE s t; Ok (bool_decide (c = POINTER_TYPE)).

(** Returns true if NODE is a pointer or a reference. *)
Definition INDIRECT_TYPE_P (s : store) (t : tree) : outcome bool :=
  c_or (TYPE_PTR_P s t) (TYPE_REF_P s t).

(** FN is the callee of a CALL_EXPR or AGGR_INIT_EXPR; return the
    FUNCTION_DECL if we can. *)
Definition get_fndecl_from_callee (s : store) (fn : tree) : outcome tree :=
  if decide (fn = NULL_TREE) then Ok fn
  else
    c ← TREE_CODE s fn;
    if bool_decide (c = FUNCTION_DECL) then Ok fn
    else
      type ← TREE_TYPE s fn;
      stop ← c_or (Ok (bool_decide (type = NULL_TREE)))
                  (i ← INDIRECT_TYPE_P s type; Ok (negb i));
      if stop : bool then Ok NULL_TREE
      else
        let fn := tree_strip_nop_conversions s fn in
        c ← TREE_CODE s fn;
        fn ← (if bool_decide (c = ADDR_EXPR) || bool_decide (c = FDESC_EXPR)
              then TREE_OPERAND s fn 0 else Ok fn);
        c ← TREE_CODE s fn;
        if bool_decide (c = FUNCTION_DECL) then Ok fn else Ok NULL_TREE.

End MarkUseCallers.

(** ** Pointer arithmetic *)

(** What [pointer_offset_expression] uses of tree.h, tree.def and
    fold-const.h and the sources do not define. *)
Class fold_const_h : Type := FoldConstH {
  sizetype : tree;
  TYPE_SIZE_UNIT : store → tree → outcome tree;
  fold_convert_loc : N → tree → tree → store → tree * store;
  fold_build2_loc : N → tree_code → tree → tree → tree → store → tree * store;
  MULT_EXPR : tree_code;
  POINTER_PLUS_EXPR : tree_code
}.

Section PointerOffset.
Context `{!global_trees} `{!fold_const_h}.

Definition pointer_offset_expression (s : store) (base_tree index_tree : tree)
    (location : N) : outcome (tree * store) :=
  base_type ← TREE_TYPE s base_tree;
  element_type_tree ← TREE_TYPE s base_type;
  if bool_decide (base_tree = error_mark_node)
     || bool_decide (base_type = error_mark_node)
     || bool_decide (index_tree = error_mark_node)
     || bool_decide (element_type_tree = error_mark_node)
  then Ok (error_mark_node, s)
  else
    element_size ← TYPE_SIZE_UNIT s element_type_tree;
    let '(index_tree, s1) := fold_convert_loc location sizetype index_tree s in
    let '(offset, s2) :=
      fold_build2_loc location MULT_EXPR sizetype index_tree element_size s1 in
    base_type ← TREE_TYPE s2 base_tree;
    Ok (fold_build2_loc location POINTER_PLUS_EXPR base_type base_tree offset s2).

End PointerOffset.

(** ** Conversion to void *)

(** Possible cases of implicit or explicit bad conversions to void. *)
Inductive impl_conv_void : Set :=
| ICV_CAST             (* (explicit) conversion to void *)
| ICV_SECOND_OF_COND   (* second operand of conditional expression *)
| ICV_THIRD_OF_COND    (* third operand of conditional expression *)
| ICV_RIGHT_OF_COMMA   (* right operand of comma operator *)
| ICV_LEFT_OF_COMMA    (* left operand of comma operator *)
| ICV_STATEMENT        (* statement *)
| ICV_THIRD_IN_FOR.    (* for increment expression *)

#[global] Instance impl_conv_void_eq_dec : EqDecision impl_conv_void.
Proof. solve_decision. Defined.

(** The second argument of [warning_at] and [warning_suppressed_p]: 0, an
    option, or the default [all_warnings]. *)
Inductive warning_option : Set :=
| no_option | all_warnings | OPT_Wunused_value | OPT_Wunused_result.

#[global] Instance warning_option_eq_dec : EqDecision warning_option.
Proof. solve_decision. Defined.

(** The messages of [convert_to_void] and [maybe_warn_nodiscard], with
    their arguments.  The four groups of seven texts that the switches on
    [implicit] choose from are one message each, with [implicit] as an
    argument. *)
Inductive message : Set :=
| not_accessed_incomplete_type (implicit : impl_conv_void) (type : tree)
| not_accessed_implicit_dereference (implicit : impl_conv_void) (type : tree)
| not_accessed_non_trivially_copyable (implicit : impl_conv_void) (type : tree)
| not_accessed_incomplete_variable (implicit : impl_conv_void) (expr type : tree)
| value_computed_is_not_used
| ignoring_return_value_of (fn : tree) (with_message : bool)
| ignoring_returned_value_of_type (rettype : tree) (with_message : bool)
| declared_here
| in_call_to_declared_here (fn : tree)
| type_declared_here (rettype : tree).

(** A call of [warning_at] or of [inform]. *)
Inductive diagnostic : Set :=
| warning (loc : N) (opt : warning_option) (m : message)
| note (loc : N) (m : message).

(** Modelled from the spec: two further accessors of tree.h, a test of the
    "kind tag" and the read of one of the "generic boolean flags" of the
    Generic Node. *)
Definition VOID_TYPE_P (s : store) (t : tree) : outcome bool :=
  c ← TREE_CODE s t; Ok (bool_decide (c = VOID_TYPE)).

Definition TREE_SIDE_EFFECTS (s : store) (t : tree) : outcome bool :=
  n ← deref s t; Ok (side_effects_flag n).

(** What the conversion uses of tree.h, tree.cc, the diagnostics and the
    options and the sources do not define.  [warning_at] is what the call
    returns; [escaped] is the truth value of the [escaped_string] after
    [msg.escape (TREE_STRING_POINTER (...))];
    [lookup_attribute_nodiscard] is [lookup_attribute] for the name
    nodiscard. *)
Class convert_h : Type := ConvertH {
  void_node : tree;
  UNKNOWN_LOCATION : N;
  warn_unused_value : bool;
  TYPE_VOLATILE : build → store → tree → outcome bool;
  TREE_ADDRESSABLE : build → store → tree → outcome bool;
  warning_suppressed_p : store → tree → warning_option → bool;
  warning_at : N → warning_option → message → store → bool;
  build2_loc : N → tree_code → tree → tree → tree → store → tree * store;
  build3_loc : N → tree_code → tree → tree → tree → tree → store → tree * store;
  TARGET_EXPR : tree_code;
  TARGET_EXPR_INITIAL : store → tree → outcome tree;
  CALL_EXPR_FN : store → tree → outcome tree;
  lookup_attribute_nodiscard : store → tree → outcome tree;
  DECL_ATTRIBUTES : store → tree → outcome tree;
  TYPE_ATTRIBUTES : store → tree → outcome tree;
  TREE_VALUE : store → tree → outcome tree;
  escaped : store → tree → outcome bool;
  DECL_SOURCE_LOCATION : store → tree → outcome N;
  TYPE_NAME : store → tree → outcome tree
}.

(** The [implicit] a message was chosen for. *)
Definition message_implicit (m : message) : option impl_conv_void :=
  match m with
  | not_accessed_incomplete_type i _ | not_accessed_implicit_dereference i _
  | not_accessed_non_trivially_copyable i _
  | not_accessed_incomplete_variable i _ _ => Some i
  | _ => None
  end.

(** The diagnostics an explicit cast to void can give: the warnings that
    no option controls, in their wording for a cast. *)
Definition cast_diagnostic (d : diagnostic) : Prop :=
  ∃ loc m, d = warning loc no_option m ∧ message_implicit m = Some ICV_CAST.

Section ConvertToVoid.
Context `{!global_trees} `{!tree_h} `{!tree_cc} `{!convert_h}.

Definition expr_loc_or_loc (s : store) (t : tree) (or_loc : N) : N :=
  let loc := EXPR_LOCATION s t in
  if bool_decide (loc = UNKNOWN_LOCATION) then or_loc else loc.

Definition expr_loc_or_input_loc (s : store) (t : tree) : N :=
  expr_loc_or_loc s t input_location.

(** Subroutine of convert_to_void.  Warn if we're discarding something with
    attribute [[nodiscard]]. *)
Definition maybe_warn_nodiscard (s : store) (log : list diagnostic) (expr : tree)
    (implicit : impl_conv_void) : outcome (list diagnostic) :=
  c ← TREE_CODE s expr;
  call ← (if bool_decide (c = TARGET_EXPR) then TARGET_EXPR_INITIAL s expr else Ok expr);
  let loc := expr_loc_or_input_loc s call in
  callee ← CALL_EXPR_FN s call;
  if bool_decide (callee = NULL_TREE) then Ok log
  else
    type ← TREE_TYPE s callee;
    indirect ← INDIRECT_TYPE_P s type;
    type ← (if indirect : bool then TREE_TYPE s type else Ok type);
    rettype ← TREE_TYPE s type;
    fn ← get_fndecl_from_callee s callee;
    let fn_attr := l ← DECL_ATTRIBUTES s fn; lookup_attribute_nodiscard s l in
    let type_attr := l ← TYPE_ATTRIBUTES s rettype; lookup_attribute_nodiscard s l in
    let msg_of := λ attr : tree,
      args ← TREE_VALUE s attr;
      if bool_decide (args ≠ NULL_TREE) then v ← TREE_VALUE s args; escaped s v
      else Ok false in
    on_fn ← c_and (Ok (bool_decide (implicit ≠ ICV_CAST) && bool_decide (fn ≠ NULL_TREE)))
                  (attr ← fn_attr; Ok (bool_decide (attr ≠ NULL_TREE)));
    if on_fn : bool then
      attr ← fn_attr;
      msg ← msg_of attr;
      let log := warning loc OPT_Wunused_result (ignoring_return_value_of fn msg) :: log in
      if warning_at loc OPT_Wunused_result (ignoring_return_value_of fn msg) s then
        l ← DECL_SOURCE_LOCATION s fn;
        Ok (note l declared_here :: log)
      else Ok log
    else
      on_type ← c_and (Ok (bool_decide (implicit ≠ ICV_CAST)))
                      (attr ← type_attr; Ok (bool_decide (attr ≠ NULL_TREE)));
      if on_type : bool then
        attr ← type_attr;
        msg ← msg_of attr;
        let log :=
          warning loc OPT_Wunused_result (ignoring_returned_value_of_type rettype msg)
          :: log in
        if warning_at loc OPT_Wunused_result
             (ignoring_returned_value_of_type rettype msg) s then
          log ← (if bool_decide (fn ≠ NULL_TREE) then
                   l ← DECL_SOURCE_LOCATION s fn;
                   Ok (note l (in_call_to_declared_here fn) :: log)
                 else Ok log);
          nm ← TYPE_NAME s rettype;
          l ← DECL_SOURCE_LOCATION s nm;
          Ok (note l (type_declared_here rettype) :: log)
        else Ok log
      else Ok log.

Fixpoint convert_to_void (fuel : nat) (b : build) (s : store) (log : list diagnostic)
    (expr : tree) (implicit : impl_conv_void) {struct fuel} :
    outcome (tree * store * list diagnostic) :=
  match fuel with
  | O => OutOfFuel
  | S fuel' =>
      let loc := expr_loc_or_input_loc s expr in
      err ← c_or (Ok (bool_decide (expr = error_mark_node)))
                 (ty ← TREE_TYPE s expr; Ok (bool_decide (ty = error_mark_node)));
      if err : bool then Ok (error_mark_node, s, log)
      else
        r ← mark_discarded_use fuel s expr;
        let expr := r.1 in
        (* An explicit cast to void avoids all -Wunused-but-set* warnings. *)
        s ← (if bool_decide (implicit = ICV_CAST) then mark_exp_read fuel r.2 expr
             else Ok r.2);
        ty ← TREE_TYPE s expr;
        if bool_decide (ty = NULL_TREE) then Ok (expr, s, log)
        else
          void ← VOID_TYPE_P s ty;
          if void : bool then Ok (expr, s, log)
          else
            c ← TREE_CODE s expr;
            r ← match c with
                | COND_EXPR =>
                    (* The two parts of a cond expr might be separate lvalues. *)
                    op1 ← TREE_OPERAND s expr 1;
                    op2 ← TREE_OPERAND s expr 2;
                    side_effects ←
                      c_or (c_and (Ok (bool_decide (op1 ≠ NULL_TREE)))
                                  (TREE_SIDE_EFFECTS s op1))
                           (TREE_SIDE_EFFECTS s op2);
                    let arms := λ i1 i2 : impl_conv_void,
                      r1 ← (if bool_decide (op1 ≠ NULL_TREE)
                            then convert_to_void fuel' b s log op1 i1
                            else Ok (NULL_TREE, s, log));
                      r2 ← convert_to_void fuel' b r1.1.2 r1.2 op2 i2;
                      Ok (r1.1.1, r2) in
                    a ← (if bool_decide (implicit ≠ ICV_CAST) && negb side_effects
                         then arms ICV_SECOND_OF_COND ICV_THIRD_OF_COND
                         else arms ICV_CAST ICV_CAST);
                    let new_op1 := a.1 in
                    let new_op2 := a.2.1.1 in
                    ty2 ← TREE_TYPE a.2.1.2 new_op2;
                    op0 ← TREE_OPERAND a.2.1.2 expr 0;
                    let e := build3_loc loc COND_EXPR ty2 op0 new_op1 new_op2 a.2.1.2 in
                    Ok (e.1, e.2, a.2.2)
                | COMPOUND_EXPR =>
                    (* The second part of a compound expr contains the value. *)
                    op1 ← TREE_OPERAND s expr 1;
                    n ← (if bool_decide (implicit ≠ ICV_CAST)
                            && negb (warning_suppressed_p s expr all_warnings)
                         then convert_to_void fuel' b s log op1 ICV_RIGHT_OF_COMMA
                         else convert_to_void fuel' b s log op1 ICV_CAST);
                    let new_op1 := n.1.1 in
                    if bool_decide (new_op1 ≠ op1) then
                      ty1 ← TREE_TYPE n.1.2 new_op1;
                      op0 ← TREE_OPERAND n.1.2 expr 0;
                      let t := build2_loc loc COMPOUND_EXPR ty1 op0 new_op1 n.1.2 in
                      Ok (t.1, t.2, n.2)
                    else Ok (expr, n.1.2, n.2)
                | NON_LVALUE_EXPR | NOP_EXPR =>
                    (* These have already decayed to rvalue. *)
                    Ok (expr, s, log)
                | CALL_EXPR =>
                    log ← maybe_warn_nodiscard s log expr implicit;
                    Ok (expr, s, log)
                | INDIRECT_REF =>
                    type ← TREE_TYPE s expr;
                    op0 ← TREE_OPERAND s expr 0;
                    ty0 ← TREE_TYPE s op0;
                    is_reference ← TYPE_REF_P s ty0;
                    is_volatile ← TYPE_VOLATILE b s type;
                    is_complete ← COMPLETE_TYPE_P b s type;
                    (* Can't load the value if we don't know the type. *)
                    log ← (if is_volatile && negb is_complete then
                             Ok (warning loc no_option
                                   (not_accessed_incomplete_type implicit type) :: log)
                           (* Don't load the value if this is an implicit
                              dereference, or if the type needs to be handled by
                              ctors/dtors. *)
                           else if is_volatile && is_reference then
                             Ok (warning loc no_option
                                   (not_accessed_implicit_dereference implicit type)
                                 :: log)
                           else
                             a ← c_and (Ok is_volatile) (TREE_ADDRESSABLE b s type);
                             if a : bool then
                               Ok (warning loc no_option
                                     (not_accessed_non_trivially_copyable implicit type)
                                   :: log)
                             else Ok log);
                    strip ← c_or (Ok (is_reference || negb is_volatile || negb is_complete))
                                 (TREE_ADDRESSABLE b s type);
                    if strip : bool then
                      let log :=
                        if warn_unused_value && bool_decide (implicit ≠ ICV_CAST)
                           && negb (warning_suppressed_p s expr OPT_Wunused_value)
                           && negb is_reference
                        then warning loc OPT_Wunused_value value_computed_is_not_used :: log
                        else log in
                      expr ← TREE_OPERAND s expr 0;
                      c ← TREE_CODE s expr;
                      log ← (if bool_decide (c = CALL_EXPR)
                             then maybe_warn_nodiscard s log expr implicit else Ok log);
                      Ok (expr, s, log)
                    else Ok (expr, s, log)
                | VAR_DECL =>
                    (* External variables might be incomplete. *)
                    type ← TREE_TYPE s expr;
                    is_complete ← COMPLETE_TYPE_P b s type;
                    w ← c_and (TYPE_VOLATILE b s type) (Ok (negb is_complete));
                    Ok (expr, s,
                        if w : bool
                        then warning loc no_option
                               (not_accessed_incomplete_variable implicit expr type) :: log
                        else log)
                | _ => Ok (expr, s, log)
                end;
            se ← TREE_SIDE_EFFECTS r.1.2 r.1.1;
            Ok (if se : bool then r.1.1 else void_node, r.1.2, r.2)
  end.

End ConvertToVoid.

(** * Example stores *)

Definition blank_node (c : tree_code) : tree_node :=
  TreeNode c false false 0 0%N 0%N [] 0%N false 0 0%N 0%N 0 0%N 0%N.

(** An identifier with kind code 5, the name of an assignment operator. *)
Definition assign_op_identifier : tree_node :=
  with_lang_flag 5 (blank_node IDENTIFIER_NODE).

Definition identifier_store : store :=
  Store {[ 1%N := assign_op_identifier ]} ∅ ∅.

Definition decl_node (c : tree_code) (nm next : tree) (ls : N) : tree_node :=
  TreeNode c false false 0 0%N next [] nm false 0 ls 0%N 0 0%N 0%N.

Definition type_node (c : tree_code) (flags : Z) (ls sz : N) : tree_node :=
  TreeNode c false false 0 0%N 0%N [] 0%N false 0 0%N 0%N flags ls sz.

Definition expr_node (c : tree_code) (ty : tree) (ops : list tree) : tree_node :=
  TreeNode c false false 0 ty 0%N ops 0%N false 0 0%N 0%N 0 0%N 0%N.

(** The global nodes, at addresses of their own. *)
Definition example_globals : global_trees := GlobalTrees 100%N 101%N 102%N.

(** One reading of the bodies that tree.h and tree.cc provide: plain member
    reads without checks, [error_operand_p] as the test for the error node
    or a node whose type is the error node, no location wrappers, and
    [build1] allocating above every address in use. *)
Definition example_tree_h : tree_h :=
  TreeH
    (λ _ s t, n ← deref s t; Ok (type_lang_specific n))
    (λ _ s t, n ← deref s t; Ok (bool_decide (size n ≠ NULL_TREE)))
    (λ s t, bool_decide (t = 100%N)
            || match TREE_TYPE s t with Ok ty => bool_decide (ty = 100%N) | _ => false end)
    (λ _ _, false)
    (λ _ _, 0%N)
    (λ _ _ s, s)
    (λ c ty op s,
       let a := N.succ (N.of_nat (max_list_with N.to_nat (elements (dom (trees s))))) in
       (a, store_node s a (expr_node c ty [op]))).

(** The reading in which TYPE_LANG_SPECIFIC and COMPLETE_TYPE_P go
    through [TYPE_CHECK], as tree.h has them; the rest as above. *)
Definition checking_tree_h : tree_h :=
  TreeH
    tree_h_TYPE_LANG_SPECIFIC
    (λ b s t, t' ← TYPE_CHECK b s t; n ← deref s t';
              Ok (bool_decide (size n ≠ NULL_TREE)))
    (λ s t, bool_decide (t = 100%N)
            || match TREE_TYPE s t with Ok ty => bool_decide (ty = 100%N) | _ => false end)
    (λ _ _, false)
    (λ _ _, 0%N)
    (λ _ _ s, s)
    (λ c ty op s,
       let a := N.succ (N.of_nat (max_list_with N.to_nat (elements (dom (trees s))))) in
       (a, store_node s a (expr_node c ty [op]))).

(** The bit-fields of [struct lang_type] laid out one after the other. *)
Definition example_layout : lang_type_layout := LangTypeLayout 0 2 3.

Definition no_min : lang_decl_min := LangDeclMin 0%N 0%N.

(** Two variables, an implicit instantiation (use_template 1) and an
    explicit instantiation (use_template 3), and a class type that is an
    explicit specialization (use_template 2) being defined. *)
Definition template_store : store :=
  Store
    {[ 1%N := decl_node VAR_DECL 0%N 0%N 1%N;
       2%N := decl_node VAR_DECL 0%N 0%N 2%N;
       3%N := type_node RECORD_TYPE 32 1%N 0%N ]}
    {[ 1%N := LangDecl (bf_set base_use_template 1 0) (u_min no_min);
       2%N := LangDecl (bf_set base_use_template 3 0) (u_min no_min) ]}
    {[ 1%N := LangType 6 ]}.

(** A this-adjusting thunk: a FUNCTION_DECL whose [lang_decl] has selector
    [lds_fn], [thunk_p] set and the fixed offset -16 in [u5]. *)
Definition thunk_lang_decl : lang_decl :=
  LangDecl (bf_set base_selector (selector_value lds_fn) 0)
    (u_fn (LangDeclFn no_min (bf_set fn_thunk_p 1 0) 0%N 0%N
             (fixed_offset (-16)) (saved_auto_return_type 0%N))).

Definition thunk_store : store :=
  Store {[ 1%N := decl_node FUNCTION_DECL 0%N 0%N 1%N ]}
        {[ 1%N := thunk_lang_decl ]} ∅.

(** A VAR_DECL whose [lang_decl] carries the selector of a parameter, a
    PARM_DECL with a parameter's [lang_decl], and a function template
    with the FUNCTION_DECL it declares. *)
Definition parm_lang_decl : lang_decl :=
  LangDecl (bf_set base_selector (selector_value lds_parm) 0)
    (u_parm (LangDeclParm 1 2)).

Definition fn_lang_decl : lang_decl :=
  LangDecl (bf_set base_selector (selector_value lds_fn) 0)
    (u_fn (LangDeclFn no_min 0 0%N 0%N (cloned_function 0%N)
             (saved_auto_return_type 0%N))).

Definition TEMPLATE_DECL_node (res : tree) : tree_node :=
  TreeNode TEMPLATE_DECL false false 0 0%N 0%N [] 0%N false 0 0%N res 0 0%N 0%N.

Definition accessor_store : store :=
  Store
    {[ 1%N := decl_node VAR_DECL 0%N 0%N 1%N;
       2%N := decl_node PARM_DECL 0%N 0%N 1%N;
       3%N := TEMPLATE_DECL_node 4%N;
       4%N := decl_node FUNCTION_DECL 0%N 0%N 2%N ]}
    {[ 1%N := parm_lang_decl; 2%N := fn_lang_decl ]} ∅.

(** An INTEGER_TYPE, which is no class type, with a [lang_type] attached. *)
Definition wrong_kind_store : store :=
  Store {[ 1%N := type_node INTEGER_TYPE 0 1%N 0%N ]} ∅ {[ 1%N := LangType 8 ]}.

(** A member list: the maybe-in-charge constructor 1, its complete-object
    clone 2 and base-object clone 3, an ordinary member function 4, and a
    further cloned constructor 5 behind it.  The identifiers 101 (the
    constructor name of [example_globals]), 103 and 104 have kind code 2;
    105 is an ordinary name. *)
Definition ctor_name_node : tree_node := with_lang_flag 2 (blank_node IDENTIFIER_NODE).

Definition clone_store : store :=
  Store
    {[ 1%N := decl_node FUNCTION_DECL 101%N 2%N 0%N;
       2%N := decl_node FUNCTION_DECL 103%N 3%N 0%N;
       3%N := decl_node FUNCTION_DECL 104%N 4%N 0%N;
       4%N := decl_node FUNCTION_DECL 105%N 5%N 0%N;
       5%N := decl_node FUNCTION_DECL 103%N 0%N 0%N;
       101%N := ctor_name_node;
       103%N := ctor_name_node;
       104%N := ctor_name_node;
       105%N := blank_node IDENTIFIER_NODE ]}
    ∅ ∅.

(** A read of variable 1, whose type 2 is an INTEGER_TYPE; the error node
    of [example_globals] is at address 100. *)
Definition use_store : store :=
  Store
    {[ 1%N := TreeNode VAR_DECL false false 0 2%N 0%N [] 0%N false 0 0%N 0%N 0 0%N 0%N;
       2%N := type_node INTEGER_TYPE 0 0%N 0%N;
       100%N := blank_node ERROR_MARK ]}
    ∅ ∅.

(** A two-level hierarchy. *)
Definition Base : Comptypes.type_node := Comptypes.class 1 [].

Definition Derived : Comptypes.type_node := Comptypes.class 2 [Base].

(** An enumerator: a CONST_DECL whose [lang_decl] is a bare [min] with a
    template info at 7 and an access at 8. *)
Definition min_store : store :=
  Store {[ 1%N := decl_node CONST_DECL 0%N 0%N 1%N ]}
        {[ 1%N := LangDecl 0 (u_min (LangDeclMin 7%N 8%N)) ]} ∅.

(** One reading of what tree.cc provides besides: an unknown current
    location, no location wrappers and no conversions to strip. *)
Definition example_tree_cc : tree_cc :=
  TreeCc 0%N (λ _ t, t) (λ _ t, t) (OTHER_CODE tcc_expression 0%N).

(** The comma expression 4, [(5, a[5])]: its right operand 3 is the
    ARRAY_REF of the variable 1 and the constant 5; 2 is their type. *)
Definition read_store : store :=
  Store
    {[ 1%N := TreeNode VAR_DECL false false 0 2%N 0%N [] 0%N false 0 0%N 0%N 0 0%N 0%N;
       2%N := type_node INTEGER_TYPE 0 0%N 0%N;
       3%N := expr_node ARRAY_REF 2%N [1%N; 5%N];
       4%N := expr_node COMPOUND_EXPR 2%N [5%N; 3%N];
       5%N := expr_node INTEGER_CST 2%N [];
       100%N := blank_node ERROR_MARK ]}
    ∅ ∅.

(** The implicit dereference 4 of the parameter 1, whose type 2 is a
    reference to the type 3. *)
Definition reference_store : store :=
  Store
    {[ 1%N := TreeNode PARM_DECL false false 0 2%N 0%N [] 0%N false 0 0%N 0%N 0 0%N 0%N;
       2%N := type_node REFERENCE_TYPE 0 0%N 0%N;
       3%N := type_node INTEGER_TYPE 0 0%N 0%N;
       4%N := expr_node INDIRECT_REF 3%N [1%N];
       100%N := blank_node ERROR_MARK ]}
    ∅ ∅.

(** The callee 3 of a direct call: the address of the function 1, of the
    pointer type 2. *)
Definition callee_store : store :=
  Store
    {[ 1%N := decl_node FUNCTION_DECL 0%N 0%N 0%N;
       2%N := type_node POINTER_TYPE 0 0%N 0%N;
       3%N := expr_node ADDR_EXPR 2%N [1%N] ]}
    ∅ ∅.

(** One reading of fold-const.h: no folding, every size the constant 5 of
    [read_store], and nodes built above every address in use. *)
Definition example_fold_const_h : fold_const_h :=
  FoldConstH 2%N
    (λ _ _, Ok 5%N)
    (λ _ _ t s, (t, s))
    (λ _ c ty a b s,
       let r := N.succ (N.of_nat (max_list_with N.to_nat (elements (dom (trees s))))) in
       (r, store_node s r (expr_node c ty [a; b])))
    (OTHER_CODE tcc_expression 1%N)
    (OTHER_CODE tcc_expression 2%N).

(** One reading of what the conversion to void uses besides: every warning
    enabled and none suppressed, plain member reads, no attributes, and
    nodes built above every address in use; the void node is at 50. *)
Definition example_convert_h : convert_h :=
  ConvertH 50%N 0%N true
    (λ _ s t, n ← deref s t; Ok (volatile_flag n))
    (λ _ _ _, Ok false)
    (λ _ _ _, false)
    (λ _ _ _ _, true)
    (λ _ c ty a b s,
       let r := N.succ (N.of_nat (max_list_with N.to_nat (elements (dom (trees s))))) in
       (r, store_node s r (expr_node c ty [a; b])))
    (λ _ c ty a b d s,
       let r := N.succ (N.of_nat (max_list_with N.to_nat (elements (dom (trees s))))) in
       (r, store_node s r (expr_node c ty [a; b; d])))
    (OTHER_CODE tcc_expression 3%N)
    (λ s t, TREE_OPERAND s t 1)
    (λ s t, TREE_OPERAND s t 1)
    (λ _ _, Ok 0%N)
    (λ _ _, Ok 0%N)
    (λ _ _, Ok 0%N)
    (λ _ _, Ok 0%N)
    (λ _ _, Ok false)
    (λ _ _, Ok 0%N)
    (λ _ _, Ok 0%N).

(** The variable 1 of an incomplete volatile type 2. *)
Definition volatile_store : store :=
  Store
    {[ 1%N := TreeNode VAR_DECL false false 0 2%N 0%N [] 0%N false 0 0%N 0%N 0 0%N 0%N;
       2%N := TreeNode RECORD_TYPE false true 0 0%N 0%N [] 0%N false 0 0%N 0%N 0 0%N 0%N;
       100%N := blank_node ERROR_MARK ]}
    ∅ ∅.

(** The call 4 of the function 1 through its address 3, of the pointer
    type 2 to the function type 5, which returns the type 6; in this
    reading of CALL_EXPR_FN the callee is operand 1 of the call. *)
Definition call_store : store :=
  Store
    {[ 1%N := decl_node FUNCTION_DECL 0%N 0%N 0%N;
       2%N := TreeNode POINTER_TYPE false false 0 5%N 0%N [] 0%N false 0 0%N 0%N 0 0%N 0%N;
       3%N := expr_node ADDR_EXPR 2%N [1%N];
       4%N := expr_node CALL_EXPR 6%N [0%N; 3%N];
       5%N := TreeNode FUNCTION_TYPE false false 0 6%N 0%N [] 0%N false 0 0%N 0%N 0 0%N 0%N;
       6%N := type_node INTEGER_TYPE 0 0%N 0%N ]}
    ∅ ∅.

(** A second reading, in which every declaration carries a nodiscard
    attribute without a message, at address 7. *)
Definition nodiscard_convert_h : convert_h :=
  ConvertH 50%N 0%N true
    (λ _ s t, n ← deref s t; Ok (volatile_flag n))
    (λ _ _ _, Ok false)
    (λ _ _ _, false)
    (λ _ _ _ _, true)
    (λ _ c ty a b s,
       let r := N.succ (N.of_nat (max_list_with N.to_nat (elements (dom (trees s))))) in
       (r, store_node s r (expr_node c ty [a; b])))
    (λ _ c ty a b d s,
       let r := N.succ (N.of_nat (max_list_with N.to_nat (elements (dom (trees s))))) in
       (r, store_node s r (expr_node c ty [a; b; d])))
    (OTHER_CODE tcc_expression 3%N)
    (λ s t, TREE_OPERAND s t 1)
    (λ s t, TREE_OPERAND s t 1)
    (λ _ l, Ok l)
    (λ _ _, Ok 7%N)
    (λ _ _, Ok 0%N)
    (λ _ _, Ok 0%N)
    (λ _ _, Ok false)
    (λ _ _, Ok 0%N)
    (λ _ _, Ok 0%N).

(** A QUAL_UNION_TYPE, which no front end for C-like languages creates. *)
Definition qual_union_store : store :=
  Store {[ 1%N := type_node QUAL_UNION_TYPE 0 0%N 0%N ]} ∅ ∅.

(** The comma expression 7, [(5, e.f)], whose right operand 6 is a
    COMPONENT_REF of the error node 100. *)
Definition discarded_store : store :=
  Store
    {[ 2%N := type_node INTEGER_TYPE 0 0%N 0%N;
       5%N := expr_node INTEGER_CST 2%N [];
       6%N := expr_node COMPONENT_REF 2%N [100%N];
       7%N := expr_node COMPOUND_EXPR 2%N [5%N; 6%N];
       100%N := blank_node ERROR_MARK ]}
    ∅ ∅.

(** * Properties *)

(** ** Bit-fields *)

Lemma bf_get_range (f : bitfield) (w : Z) :
  0 ≤ bf_width f → 0 ≤ bf_get f w < 2 ^ bf_width f.
Proof.
  intros Hw. unfold bf_get. rewrite Z.land_ones by done.
  apply Z.mod_pos_bound. by apply Z.pow_pos_nonneg.
Qed.

Lemma bf_get_set (f : bitfield) (v w : Z) :
  0 ≤ bf_off f → 0 ≤ bf_width f →
  bf_get f (bf_set f v w) = Z.land v (Z.ones (bf_width f)).
Proof.
  intros Ho Hw. unfold bf_get, bf_set, bf_mask.
  apply Z.bits_inj'. intros n Hn.
  rewrite !Z.land_spec, Z.shiftr_spec, Z.lor_spec, Z.land_spec, Z.lnot_spec,
    !Z.shiftl_spec, Z.land_spec by lia.
  rewrite !Z.testbit_ones_nonneg by lia.
  replace (n + bf_off f - bf_off f) with n by lia.
  destruct (n <? bf_width f); simpl.
  - by rewrite andb_false_r, andb_true_r.
  - by rewrite !andb_false_r.
Qed.

Lemma bf_get_set_other (f g : bitfield) (v w : Z) :
  0 ≤ bf_off f → 0 ≤ bf_width f → 0 ≤ bf_off g → 0 ≤ bf_width g →
  bf_disjoint f g →
  bf_get g (bf_set f v w) = bf_get g w.
Proof.
  intros Hof Hwf Hog Hwg Hd. unfold bf_get, bf_set, bf_mask.
  apply Z.bits_inj'. intros n Hn.
  rewrite !Z.land_spec, !Z.shiftr_spec, Z.lor_spec, Z.land_spec, Z.lnot_spec,
    !Z.shiftl_spec, Z.land_spec by lia.
  rewrite (Z.testbit_ones_nonneg (bf_width g)) by lia.
  destruct (Z.ltb_spec n (bf_width g)) as [Hlt|Hge]; simpl.
  2: by rewrite !andb_false_r.
  rewrite !andb_true_r.
  destruct (Z.lt_ge_cases (n + bf_off g) (bf_off f)) as [Hlo|Hhi].
  - rewrite !(Z.testbit_neg_r _ (n + bf_off g - bf_off f)) by lia.
    simpl. by rewrite andb_true_r, orb_false_r.
  - rewrite !Z.testbit_ones_nonneg by lia.
    assert ((n + bf_off g - bf_off f <? bf_width f) = false) as ->
      by (apply Z.ltb_ge; destruct Hd; lia).
    simpl. by rewrite andb_true_r, andb_false_r, orb_false_r.
Qed.

Lemma bf_get_bit (i w : Z) :
  0 ≤ i → bf_get (BitField i 1) w = Z.b2z (Z.testbit w i).
Proof.
  intros Hi. unfold bf_get. simpl.
  rewrite Z.land_ones by done.
  change (2 ^ 1) with 2. rewrite <- Z.bit0_mod, Z.shiftr_spec by done.
  done.
Qed.

(** ** Identifiers *)

Lemma identifier_kind_bit (i : Z) (b : build) (s : store) (t : tree) (n : tree_node) :
  0 ≤ i →
  deref s t = Ok n →
  (b = checking → code n = IDENTIFIER_NODE) →
  (t' ← IDENTIFIER_NODE_CHECK b s t; TREE_LANG_FLAG i b s t')
  = Ok (Z.b2z (Z.testbit (lang_flag n) i)).
Proof.
  intros Hi Hn Hc.
  unfold IDENTIFIER_NODE_CHECK, TREE_CHECK, TREE_CODE, TREE_LANG_FLAG, LANG_FLAG.
  destruct b; rewrite ?Hn; simpl.
  - rewrite Hc by done. rewrite bool_decide_true by set_solver. simpl.
    rewrite Hn. simpl. by rewrite bf_get_bit.
  - rewrite Hn. simpl. by rewrite bf_get_bit.
Qed.

Lemma identifier_kind_bits (n : tree_node) :
  identifier_kind n
  = Z.b2z (Z.testbit (lang_flag n) 0) + 2 * Z.b2z (Z.testbit (lang_flag n) 1)
    + 4 * Z.b2z (Z.testbit (lang_flag n) 2).
Proof.
  unfold identifier_kind, bf_get. cbn [bf_off bf_width].
  rewrite Z.shiftr_0_r, Z.land_ones by done.
  rewrite !Z.testbit_spec' by done.
  change (2 ^ 3) with 8. change (2 ^ 0) with 1. change (2 ^ 1) with 2.
  change (2 ^ 2) with 4.
  Z.to_euclidean_division_equations. lia.
Qed.

Lemma category_predicate_value (c : identifier_category) (b : build) (s : store)
    (t : tree) (n : tree_node) :
  deref s t = Ok n →
  (b = checking → code n = IDENTIFIER_NODE) →
  category_predicate c b s t
  = Ok (if bool_decide (identifier_kind n ∈ category_codes c) then 1 else 0).
Proof.
  intros Hn Hc.
  pose proof (identifier_kind_bit 0 b s t n ltac:(done) Hn Hc) as H0.
  pose proof (identifier_kind_bit 1 b s t n ltac:(done) Hn Hc) as H1.
  pose proof (identifier_kind_bit 2 b s t n ltac:(done) Hn Hc) as H2.
  rewrite identifier_kind_bits.
  revert H0 H1 H2.
  destruct (Z.testbit (lang_flag n) 0), (Z.testbit (lang_flag n) 1),
    (Z.testbit (lang_flag n) 2); intros H0 H1 H2;
  destruct c; simpl;
    unfold IDENTIFIER_KEYWORD_P, IDENTIFIER_CTOR_P, IDENTIFIER_DTOR_P,
      IDENTIFIER_ASSIGN_OP_P, IDENTIFIER_CONV_OP_P, IDENTIFIER_OVL_OP_P,
      IDENTIFIER_CDTOR_P, IDENTIFIER_ANY_OP_P,
      IDENTIFIER_KIND_BIT_0, IDENTIFIER_KIND_BIT_1, IDENTIFIER_KIND_BIT_2;
    rewrite ?H0, ?H1, ?H2; simpl; rewrite ?H0, ?H1, ?H2; simpl;
    rewrite ?H0, ?H1, ?H2; reflexivity.
Qed.

Lemma IDENTIFIER_CDTOR_P_value (b : build) (s : store) (t : tree) (n : tree_node) :
  deref s t = Ok n →
  (b = checking → code n = IDENTIFIER_NODE) →
  IDENTIFIER_CDTOR_P b s t
  = Ok (if bool_decide (identifier_kind n ∈ [2; 3]) then 1 else 0).
Proof.
  intros Hn Hc.
  pose proof (identifier_kind_bit 1 b s t n ltac:(done) Hn Hc) as H1.
  pose proof (identifier_kind_bit 2 b s t n ltac:(done) Hn Hc) as H2.
  rewrite identifier_kind_bits.
  revert H1 H2.
  destruct (Z.testbit (lang_flag n) 0), (Z.testbit (lang_flag n) 1),
    (Z.testbit (lang_flag n) 2); intros H1 H2;
    unfold IDENTIFIER_CDTOR_P, IDENTIFIER_KIND_BIT_1, IDENTIFIER_KIND_BIT_2;
    rewrite H2; simpl; rewrite H1; reflexivity.
Qed.

(** C3, as amended.  On an identifier node each of the six category
    predicates is a test of the 3-bit kind code alone: it yields 1 at the
    codes its mask selects and 0 elsewhere.  IDENTIFIER_KEYWORD_P,
    IDENTIFIER_CTOR_P, IDENTIFIER_DTOR_P, IDENTIFIER_OVL_OP_P and
    IDENTIFIER_CONV_OP_P exclude one another; IDENTIFIER_ASSIGN_OP_P implies
    IDENTIFIER_OVL_OP_P and excludes the other four; at the codes 0 and 7
    none of them holds. *)
Theorem identifier_categories (b : build) (s : store) (t : tree) (n : tree_node) :
  deref s t = Ok n →
  (b = checking → code n = IDENTIFIER_NODE) →
  (∀ c, category_predicate c b s t
        = Ok (if bool_decide (identifier_kind n ∈ category_codes c) then 1 else 0))
  ∧ (∀ c1 c2,
       holds (category_predicate c1 b s t) →
       holds (category_predicate c2 b s t) →
       c1 = c2 ∨ (c1 = cat_assign_op ∧ c2 = cat_ovl_op)
       ∨ (c1 = cat_ovl_op ∧ c2 = cat_assign_op))
  ∧ (holds (IDENTIFIER_ASSIGN_OP_P b s t) → holds (IDENTIFIER_OVL_OP_P b s t))
  ∧ (identifier_kind n ∈ [0; 7] → ∀ c, ¬ holds (category_predicate c b s t)).
Proof.
  intros Hn Hc.
  assert (Hv := λ c, category_predicate_value c b s t n Hn Hc).
  assert (Hk : ∀ c, holds (category_predicate c b s t) →
                    identifier_kind n ∈ category_codes c).
  { intros c [v [Hv' Hne]]. rewrite Hv in Hv'.
    case_bool_decide; [done|]. congruence. }
  split; [exact Hv|].
  split; [|split].
  - intros c1 c2 H1 H2. apply Hk, list_elem_of_In in H1. apply Hk, list_elem_of_In in H2.
    destruct c1, c2; simpl in H1, H2;
      first [ by left | by right; left | by right; right | exfalso; lia ].
  - intros H. apply (Hk cat_assign_op), list_elem_of_In in H. simpl in H.
    exists 1. split; [|done].
    change (IDENTIFIER_OVL_OP_P b s t) with (category_predicate cat_ovl_op b s t).
    rewrite Hv, bool_decide_true; [done|].
    apply list_elem_of_In. simpl. lia.
  - intros H07 c H. apply list_elem_of_In in H07. apply Hk, list_elem_of_In in H.
    destruct c; simpl in H07, H; lia.
Qed.

Lemma identifier_categories_witness :
  deref identifier_store 1%N = Ok assign_op_identifier
  ∧ (checking = checking → code assign_op_identifier = IDENTIFIER_NODE)
  ∧ (holds (IDENTIFIER_ASSIGN_OP_P checking identifier_store 1%N) →
     holds (IDENTIFIER_OVL_OP_P checking identifier_store 1%N)).
Proof.
  split; [reflexivity|]. split; [reflexivity|].
  apply (identifier_categories checking identifier_store 1%N assign_op_identifier);
    reflexivity.
Defined.

(** C3, as stated, fails: at kind code 5 IDENTIFIER_OVL_OP_P and
    IDENTIFIER_ASSIGN_OP_P both hold for the same identifier. *)
Lemma ovl_op_and_assign_op_overlap :
  code assign_op_identifier = IDENTIFIER_NODE
  ∧ identifier_kind assign_op_identifier = 5
  ∧ IDENTIFIER_OVL_OP_P checking identifier_store 1%N = Ok 1
  ∧ IDENTIFIER_ASSIGN_OP_P checking identifier_store 1%N = Ok 1
  ∧ IDENTIFIER_OVL_OP_P release identifier_store 1%N = Ok 1
  ∧ IDENTIFIER_ASSIGN_OP_P release identifier_store 1%N = Ok 1.
Proof. repeat split; reflexivity. Qed.

(** ** The template classification *)

Lemma two_bit_values (off w : Z) : bf_get (BitField off 2) w ∈ [0; 1; 2; 3].
Proof.
  pose proof (bf_get_range (BitField off 2) w ltac:(done)) as H.
  cbn [bf_width] in H. change (2 ^ 2) with 4 in H.
  apply list_elem_of_In. simpl. lia.
Qed.

Lemma low_bit_of_two_bits (v : Z) :
  v ∈ [0; 1; 2; 3] → Z.land v 1 = if bool_decide (v ∈ [1; 3]) then 1 else 0.
Proof.
  intros H. apply list_elem_of_In in H. simpl in H.
  destruct H as [<-|[<-|[<-|[<-|[]]]]]; reflexivity.
Qed.

Lemma deref_lang_decl_nonnull (s : store) (p : N) (d : lang_decl) :
  deref_lang_decl s p = Ok d → p ≠ 0%N ∧ lang_decls s !! p = Some d.
Proof.
  unfold deref_lang_decl. case_decide; [done|].
  destruct (lang_decls s !! p); [|done]. intros [= ->]. done.
Qed.

Lemma deref_lang_decl_stored (s : store) (p : N) (d : lang_decl) :
  p ≠ 0%N → deref_lang_decl (store_lang_decl s p d) p = Ok d.
Proof.
  intros Hp. unfold deref_lang_decl, store_lang_decl. simpl.
  rewrite decide_False by done. by rewrite lookup_insert_eq.
Qed.

Lemma DECL_USE_TEMPLATE_read (s : store) (t : tree) (p : N) (d : lang_decl) :
  DECL_LANG_SPECIFIC s t = Ok p → deref_lang_decl s p = Ok d →
  DECL_USE_TEMPLATE s t = Ok (bf_get base_use_template (base d)).
Proof. intros Hp Hd. unfold DECL_USE_TEMPLATE. rewrite Hp. simpl. by rewrite Hd. Qed.

Lemma DECL_USE_TEMPLATE_assigned (v : Z) (s : store) (t : tree) (p : N) (d : lang_decl) :
  DECL_LANG_SPECIFIC s t = Ok p → deref_lang_decl s p = Ok d →
  ∃ s', assign_DECL_USE_TEMPLATE v s t = Ok s'
        ∧ DECL_USE_TEMPLATE s' t = Ok (Z.land v 3).
Proof.
  intros Hp Hd. unfold assign_DECL_USE_TEMPLATE. rewrite Hp. simpl. rewrite Hd. simpl.
  eexists. split; [done|].
  destruct (deref_lang_decl_nonnull _ _ _ Hd) as [Hnz _].
  erewrite DECL_USE_TEMPLATE_read; [| exact Hp | by apply deref_lang_decl_stored].
  simpl. by rewrite bf_get_set.
Qed.

(** C1, as amended.  The [use_template] field of a declaration and of a
    class type with language-specific data holds one of 0, 1, 2, 3.
    DECL_TEMPLATE_SPECIALIZATION, DECL_IMPLICIT_INSTANTIATION and
    DECL_EXPLICIT_INSTANTIATION, and their CLASSTYPE_ counterparts, are
    the equality tests against 2, 1 and 3; DECL_TEMPLATE_INSTANTIATION and
    CLASSTYPE_TEMPLATE_INSTANTIATION test the low bit, and so hold at the
    two values 1 and 3.  After SET_DECL_EXPLICIT_INSTANTIATION the field is
    3: DECL_EXPLICIT_INSTANTIATION is true and DECL_IMPLICIT_INSTANTIATION
    is false. *)
Theorem use_template_classification `{!tree_h} `{!lang_type_layout} :
  (∀ (s : store) (d : tree) (p : N) (ld : lang_decl),
     DECL_LANG_SPECIFIC s d = Ok p → deref_lang_decl s p = Ok ld →
     ∃ v, DECL_USE_TEMPLATE s d = Ok v
          ∧ v ∈ [0; 1; 2; 3]
          ∧ DECL_TEMPLATE_SPECIALIZATION s d = Ok (bool_decide (v = 2))
          ∧ DECL_IMPLICIT_INSTANTIATION s d = Ok (bool_decide (v = 1))
          ∧ DECL_EXPLICIT_INSTANTIATION s d = Ok (bool_decide (v = 3))
          ∧ DECL_TEMPLATE_INSTANTIATION s d
            = Ok (if bool_decide (v ∈ [1; 3]) then 1 else 0)
          ∧ ∃ s', SET_DECL_EXPLICIT_INSTANTIATION s d = Ok s'
                  ∧ DECL_USE_TEMPLATE s' d = Ok 3
                  ∧ DECL_EXPLICIT_INSTANTIATION s' d = Ok true
                  ∧ DECL_IMPLICIT_INSTANTIATION s' d = Ok false)
  ∧ (∀ (b : build) (s : store) (t : tree) (p : N) (lt : lang_type),
       TYPE_LANG_SPECIFIC b s t = Ok p → deref_lang_type s p = Ok lt →
       ∃ v, CLASSTYPE_USE_TEMPLATE b s t = Ok v
            ∧ v ∈ [0; 1; 2; 3]
            ∧ CLASSTYPE_TEMPLATE_SPECIALIZATION b s t = Ok (bool_decide (v = 2))
            ∧ CLASSTYPE_IMPLICIT_INSTANTIATION b s t = Ok (bool_decide (v = 1))
            ∧ CLASSTYPE_EXPLICIT_INSTANTIATION b s t = Ok (bool_decide (v = 3))
            ∧ CLASSTYPE_TEMPLATE_INSTANTIATION b s t
              = Ok (if bool_decide (v ∈ [1; 3]) then 1 else 0)).
Proof.
  split.
  - intros s d p ld Hp Hd.
    pose proof (DECL_USE_TEMPLATE_read s d p ld Hp Hd) as Hv.
    pose proof (two_bit_values 4 (base ld)) as Hr.
    change (BitField 4 2) with base_use_template in Hr.
    revert Hv Hr. generalize (bf_get base_use_template (base ld)). intros v Hv Hr.
    exists v.
    unfold DECL_TEMPLATE_SPECIALIZATION, DECL_IMPLICIT_INSTANTIATION,
      DECL_EXPLICIT_INSTANTIATION, DECL_TEMPLATE_INSTANTIATION.
    rewrite Hv. simpl. rewrite (low_bit_of_two_bits _ Hr).
    repeat (split; [done|]).
    destruct (DECL_USE_TEMPLATE_assigned 3 s d p ld Hp Hd) as (s' & Hs' & Hv').
    exists s'. unfold SET_DECL_EXPLICIT_INSTANTIATION.
    unfold DECL_EXPLICIT_INSTANTIATION, DECL_IMPLICIT_INSTANTIATION.
    rewrite Hv'. done.
  - intros b s t p lt Hp Hd.
    pose proof (two_bit_values use_template_off (lang_type_bits lt)) as Hr.
    assert (Hv : CLASSTYPE_USE_TEMPLATE b s t
                 = Ok (bf_get (BitField use_template_off 2) (lang_type_bits lt))).
    { unfold CLASSTYPE_USE_TEMPLATE, lang_type_member, LANG_TYPE_CLASS_CHECK.
      rewrite Hp. simpl. by rewrite Hd. }
    revert Hv Hr.
    generalize (bf_get (BitField use_template_off 2) (lang_type_bits lt)).
    intros v Hv Hr. exists v.
    unfold CLASSTYPE_TEMPLATE_SPECIALIZATION, CLASSTYPE_IMPLICIT_INSTANTIATION,
      CLASSTYPE_EXPLICIT_INSTANTIATION, CLASSTYPE_TEMPLATE_INSTANTIATION.
    rewrite Hv. simpl. rewrite (low_bit_of_two_bits _ Hr). done.
Qed.

Lemma use_template_classification_witness :
  DECL_LANG_SPECIFIC template_store 1%N = Ok 1%N
  ∧ deref_lang_decl template_store 1%N
    = Ok (LangDecl (bf_set base_use_template 1 0) (u_min no_min))
  ∧ ∃ v, DECL_USE_TEMPLATE template_store 1%N = Ok v ∧ v ∈ [0; 1; 2; 3].
Proof.
  split; [reflexivity|]. split; [reflexivity|].
  destruct (@use_template_classification example_tree_h example_layout) as [H _].
  destruct (H template_store 1%N 1%N _ eq_refl eq_refl) as (v & Hv & Hr & _).
  exists v. split; assumption.
Defined.

(** C1, as stated, fails: DECL_TEMPLATE_INSTANTIATION is no equality test
    against one value of the field, it holds of a declaration whose
    [use_template] is 1 and of one whose [use_template] is 3. *)
Lemma template_instantiation_is_no_equality_test :
  DECL_USE_TEMPLATE template_store 1%N = Ok 1
  ∧ DECL_USE_TEMPLATE template_store 2%N = Ok 3
  ∧ DECL_TEMPLATE_INSTANTIATION template_store 1%N = Ok 1
  ∧ DECL_TEMPLATE_INSTANTIATION template_store 2%N = Ok 1
  ∧ ¬ ∃ k, ∀ (s : store) (d : tree) (v : Z),
        DECL_USE_TEMPLATE s d = Ok v →
        (holds (DECL_TEMPLATE_INSTANTIATION s d) ↔ v = k).
Proof.
  repeat (split; [reflexivity|]).
  intros [k Hk].
  assert (H1 : holds (DECL_TEMPLATE_INSTANTIATION template_store 1%N))
    by (exists 1; done).
  assert (H3 : holds (DECL_TEMPLATE_INSTANTIATION template_store 2%N))
    by (exists 1; done).
  apply (Hk template_store 1%N 1 eq_refl) in H1.
  apply (Hk template_store 2%N 3 eq_refl) in H3.
  congruence.
Qed.

(** ** Thunks *)

Lemma THUNK_FUNCTION_CHECK_thunk (b : build) (s : store) (d : tree) (n : tree_node)
    (ld : lang_decl) (f : lang_decl_fn) :
  deref s d = Ok n →
  (b = checking → code n = FUNCTION_DECL) →
  deref_lang_decl s (decl_lang_specific n) = Ok ld →
  u ld = u_fn f →
  c_true (bf_get fn_thunk_p (fn_bits f)) = true →
  THUNK_FUNCTION_CHECK b s d = Ok d.
Proof.
  intros Hn Hc Hld Hu Hthunk. destruct b; [|done].
  destruct (deref_lang_decl_nonnull _ _ _ Hld) as [Hnz _].
  unfold THUNK_FUNCTION_CHECK, TREE_CODE, DECL_LANG_SPECIFIC, as_fn, c_or.
  rewrite Hn. simpl. rewrite Hc by done.
  rewrite bool_decide_false by (intros H; by apply H).
  rewrite bool_decide_false by done.
  rewrite Hld. simpl. rewrite Hu. simpl. by rewrite Hthunk.
Qed.

(** C2, as amended.  On a thunk (a FUNCTION_DECL whose [lang_decl] holds
    the function member with [thunk_p] set) THUNK_FIXED_OFFSET reads the
    integer that was stored in the union slot, in both builds.
    DECL_CLONED_FUNCTION designates the same slot and is not rejected on
    that node: its only check is FUNCTION_DECL_CHECK, which looks at the
    tree code and not at [thunk_p]. *)
Theorem thunk_fixed_offset_contract (b : build) (s : store) (d : tree)
    (n : tree_node) (ld : lang_decl) (f : lang_decl_fn) :
  deref s d = Ok n →
  (b = checking → code n = FUNCTION_DECL) →
  deref_lang_decl s (decl_lang_specific n) = Ok ld →
  u ld = u_fn f →
  c_true (bf_get fn_thunk_p (fn_bits f)) = true →
  (∀ v, u5 f = fixed_offset v → THUNK_FIXED_OFFSET b s d = Ok v)
  ∧ (∀ v, ∃ s', assign_THUNK_FIXED_OFFSET v b s d = Ok s'
                ∧ THUNK_FIXED_OFFSET b s' d = Ok v)
  ∧ THUNK_FIXED_OFFSET_slot b s d = Ok (decl_lang_specific n)
  ∧ DECL_CLONED_FUNCTION_slot b s d = Ok (decl_lang_specific n)
  ∧ ¬ rejected (DECL_CLONED_FUNCTION b s d).
Proof.
  intros Hn Hc Hld Hu Hthunk.
  pose proof (THUNK_FUNCTION_CHECK_thunk b s d n ld f Hn Hc Hld Hu Hthunk) as Hck.
  destruct (deref_lang_decl_nonnull _ _ _ Hld) as [Hnz _].
  assert (Hslot : THUNK_FIXED_OFFSET_slot b s d = Ok (decl_lang_specific n)).
  { unfold THUNK_FIXED_OFFSET_slot, DECL_LANG_SPECIFIC. rewrite Hck. simpl.
    by rewrite Hn. }
  assert (Hcl : DECL_CLONED_FUNCTION_slot b s d = Ok (decl_lang_specific n)).
  { unfold DECL_CLONED_FUNCTION_slot, FUNCTION_DECL_CHECK, TREE_CHECK, TREE_CODE,
      DECL_LANG_SPECIFIC.
    destruct b; simpl; rewrite Hn; simpl; [|done].
    rewrite Hc by done. rewrite bool_decide_true by apply list_elem_of_here.
    simpl. by rewrite Hn. }
  split; [|split; [|split; [done|split; [done|]]]].
  - intros v Hv. unfold THUNK_FIXED_OFFSET, as_fn. rewrite Hslot. simpl.
    rewrite Hld. simpl. rewrite Hu. simpl. by rewrite Hv.
  - intros v. unfold assign_THUNK_FIXED_OFFSET, as_fn. rewrite Hslot. simpl.
    rewrite Hld. simpl. rewrite Hu. simpl. eexists. split; [done|].
    unfold THUNK_FIXED_OFFSET, THUNK_FIXED_OFFSET_slot.
    erewrite THUNK_FUNCTION_CHECK_thunk;
      [| exact Hn | exact Hc | by apply deref_lang_decl_stored | done | done].
    simpl. unfold DECL_LANG_SPECIFIC.
    change (deref (store_lang_decl s (decl_lang_specific n) _) d) with (deref s d).
    rewrite Hn. simpl. by rewrite deref_lang_decl_stored.
  - intros [e He]. unfold DECL_CLONED_FUNCTION, as_fn in He. rewrite Hcl in He.
    simpl in He. rewrite Hld in He. simpl in He. rewrite Hu in He. simpl in He.
    by destruct (u5 f).
Qed.

Lemma thunk_fixed_offset_contract_witness :
  deref thunk_store 1%N = Ok (decl_node FUNCTION_DECL 0%N 0%N 1%N)
  ∧ deref_lang_decl thunk_store 1%N = Ok thunk_lang_decl
  ∧ THUNK_FIXED_OFFSET checking thunk_store 1%N = Ok (-16)
  ∧ DECL_CLONED_FUNCTION_slot checking thunk_store 1%N = Ok 1%N.
Proof.
  split; [reflexivity|]. split; [reflexivity|].
  destruct (thunk_fixed_offset_contract checking thunk_store 1%N
              (decl_node FUNCTION_DECL 0%N 0%N 1%N) thunk_lang_decl
              (LangDeclFn no_min (bf_set fn_thunk_p 1 0) 0%N 0%N
                 (fixed_offset (-16)) (saved_auto_return_type 0%N))
              eq_refl (λ _, eq_refl) eq_refl eq_refl eq_refl)
    as (Hread & _ & _ & Hslot & _).
  split; [exact (Hread (-16) eq_refl) | exact Hslot].
Defined.

(** C2, as stated, fails: on a thunk with selector [lds_fn] and [thunk_p]
    set, the checking build does not reject DECL_CLONED_FUNCTION; it hands
    out the slot that THUNK_FIXED_OFFSET reads. *)
Lemma cloned_function_of_thunk_not_rejected :
  TREE_CODE thunk_store 1%N = Ok FUNCTION_DECL
  ∧ bf_get base_selector (base thunk_lang_decl) = selector_value lds_fn
  ∧ THUNK_FUNCTION_CHECK checking thunk_store 1%N = Ok 1%N
  ∧ THUNK_FIXED_OFFSET checking thunk_store 1%N = Ok (-16)
  ∧ DECL_CLONED_FUNCTION_slot checking thunk_store 1%N
    = THUNK_FIXED_OFFSET_slot checking thunk_store 1%N
  ∧ DECL_CLONED_FUNCTION_slot checking thunk_store 1%N = Ok 1%N
  ∧ ¬ rejected (DECL_CLONED_FUNCTION checking thunk_store 1%N).
Proof.
  repeat (split; [reflexivity|]).
  intros [e He]. vm_compute in He. discriminate He.
Qed.

(** ** The checked accessors of [struct lang_decl] *)

Lemma TREE_CODE_deref (s : store) (t : tree) (n : tree_node) :
  deref s t = Ok n → TREE_CODE s t = Ok (code n).
Proof. intros H. unfold TREE_CODE. by rewrite H. Qed.

Lemma deref_nonnull (s : store) (t : tree) (n : tree_node) :
  deref s t = Ok n → t ≠ NULL_TREE ∧ trees s !! t = Some n.
Proof.
  unfold deref. case_decide; [done|].
  destruct (trees s !! t); [|done]. intros [= ->]. done.
Qed.

Lemma STRIP_TEMPLATE_cases (b : build) (s : store) (t sub : tree) (n : tree_node) :
  deref s t = Ok n →
  STRIP_TEMPLATE b s t = Ok sub →
  (code n ≠ TEMPLATE_DECL ∧ sub = t) ∨ (code n = TEMPLATE_DECL ∧ sub = result n).
Proof.
  intros Hn. unfold STRIP_TEMPLATE, DECL_TEMPLATE_RESULT, TEMPLATE_DECL_CHECK,
    TREE_CHECK, TREE_CODE.
  rewrite Hn. simpl. case_bool_decide as Hc.
  - destruct b; simpl; rewrite ?Hn; simpl.
    + rewrite bool_decide_true by (rewrite Hc; apply list_elem_of_here).
      simpl. rewrite Hn. simpl. intros [= <-]. by right.
    + intros [= <-]. by right.
  - intros [= <-]. by left.
Qed.

Lemma STRIP_TEMPLATE_build (b : build) (s : store) (t sub : tree) (n : tree_node) :
  deref s t = Ok n →
  STRIP_TEMPLATE checking s t = Ok sub → STRIP_TEMPLATE b s t = Ok sub.
Proof.
  intros Hn H. destruct b; [done|].
  destruct (STRIP_TEMPLATE_cases _ _ _ _ _ Hn H) as [[Hc ->]|[Hc ->]];
    unfold STRIP_TEMPLATE, DECL_TEMPLATE_RESULT, TEMPLATE_DECL_CHECK, TREE_CHECK,
      TREE_CODE; rewrite Hn; simpl.
  - by rewrite bool_decide_false.
  - rewrite bool_decide_true by done. simpl. by rewrite Hn.
Qed.

Lemma DECL_DECLARES_FUNCTION_P_value (b : build) (s : store) (t sub : tree)
    (n nsub : tree_node) :
  deref s t = Ok n →
  STRIP_TEMPLATE b s t = Ok sub →
  deref s sub = Ok nsub →
  DECL_DECLARES_FUNCTION_P b s t = Ok (code_admitted member_fn n nsub).
Proof.
  intros Hn Hsub Hnsub.
  destruct (deref_nonnull _ _ _ Hnsub) as [Hnz _].
  destruct (STRIP_TEMPLATE_cases _ _ _ _ _ Hn Hsub) as [[Hc ->]|[Hc ->]].
  - assert (nsub = n) as -> by congruence.
    unfold DECL_DECLARES_FUNCTION_P, DECL_FUNCTION_TEMPLATE_P, TREE_CODE, c_or, c_and.
    rewrite Hn. simpl. rewrite (bool_decide_false (code n = TEMPLATE_DECL)) by done.
    by destruct (bool_decide (code n = FUNCTION_DECL)).
  - assert (Hres : DECL_TEMPLATE_RESULT b s t = Ok (result n)).
    { unfold DECL_TEMPLATE_RESULT, TEMPLATE_DECL_CHECK, TREE_CHECK, TREE_CODE.
      destruct b; simpl; rewrite Hn; simpl; [|done].
      rewrite bool_decide_true by (rewrite Hc; apply list_elem_of_here).
      simpl. by rewrite Hn. }
    unfold DECL_DECLARES_FUNCTION_P, DECL_FUNCTION_TEMPLATE_P, c_or, c_and.
    rewrite Hres. unfold TREE_CODE. rewrite Hn. simpl. rewrite Hnsub. simpl.
    rewrite Hc. simpl. by rewrite bool_decide_true.
Qed.

(** C5, as amended.  In a checking build LANG_DECL_FN_CHECK,
    LANG_DECL_NS_CHECK, LANG_DECL_PARM_CHECK and LANG_DECL_DECOMP_CHECK
    raise [lang_check_failed] exactly when the tree code of the node is
    not one the accessor admits or the selector of its [lang_decl] is not
    the accessor's; LANG_DECL_MIN_CHECK raises it exactly when the tree
    code is not one of those that have a [min], and does not look at the
    selector.  When the check passes, the checking build hands out the
    reference the release build hands out, which performs no check. *)
Theorem lang_decl_check_contract (m : lang_decl_member) (s : store) (t sub : tree)
    (n nsub : tree_node) (ld : lang_decl) :
  deref s t = Ok n →
  subject m checking s t = Ok sub →
  deref s sub = Ok nsub →
  deref_lang_decl s (decl_lang_specific nsub) = Ok ld →
  (LANG_DECL_CHECK m checking s t = ICE lang_check_failed
   ↔ code_admitted m n nsub && selector_admitted m ld = false)
  ∧ (code_admitted m n nsub && selector_admitted m ld = true →
     LANG_DECL_CHECK m checking s t = Ok (decl_lang_specific nsub, m))
  ∧ LANG_DECL_CHECK m release s t = Ok (decl_lang_specific nsub, m)
  ∧ (∀ r, LANG_DECL_CHECK m checking s t = Ok r →
          LANG_DECL_CHECK m release s t = Ok r).
Proof.
  intros Hn Hsub Hnsub Hld.
  assert (Hrel : LANG_DECL_CHECK m release s t = Ok (decl_lang_specific nsub, m)).
  { destruct m; simpl in *;
      try (injection Hsub as <-; assert (nsub = n) as -> by congruence;
           unfold LANG_DECL_MIN_CHECK, LANG_DECL_NS_CHECK, LANG_DECL_PARM_CHECK,
             LANG_DECL_DECOMP_CHECK, DECL_LANG_SPECIFIC; by rewrite Hn).
    unfold LANG_DECL_FN_CHECK, DECL_LANG_SPECIFIC.
    rewrite (STRIP_TEMPLATE_build release _ _ _ _ Hn Hsub). simpl. by rewrite Hnsub. }
  assert (Hchk : LANG_DECL_CHECK m checking s t
                 = if code_admitted m n nsub && selector_admitted m ld
                   then Ok (decl_lang_specific nsub, m) else ICE lang_check_failed).
  { destruct m; simpl in Hsub; cbn [LANG_DECL_CHECK].
    - injection Hsub as <-. assert (nsub = n) as -> by congruence.
      unfold LANG_DECL_MIN_CHECK, DECL_LANG_SPECIFIC, LANG_DECL_HAS_MIN,
        VAR_OR_FUNCTION_DECL_P, TREE_CODE, c_or, selector_admitted.
      rewrite Hn. simpl. rewrite andb_true_r.
      destruct (code n); try destruct c; reflexivity.
    - pose proof (DECL_DECLARES_FUNCTION_P_value _ _ _ _ _ _ Hn Hsub Hnsub) as Hf.
      destruct (code_admitted member_fn n nsub);
        unfold LANG_DECL_FN_CHECK, DECL_LANG_SPECIFIC, selector_differs, c_or;
        rewrite Hsub; simpl; rewrite Hnsub; simpl; rewrite Hf; simpl; [|done].
      rewrite Hld. simpl. unfold selector_admitted. simpl.
      by case_bool_decide; case_bool_decide.
    - injection Hsub as <-. assert (nsub = n) as -> by congruence.
      unfold LANG_DECL_NS_CHECK, DECL_LANG_SPECIFIC, selector_differs, TREE_CODE, c_or.
      rewrite Hn. simpl. unfold selector_admitted. simpl.
      case_bool_decide; case_bool_decide; simpl; try done;
        rewrite Hld; simpl; by case_bool_decide; case_bool_decide.
    - injection Hsub as <-. assert (nsub = n) as -> by congruence.
      unfold LANG_DECL_PARM_CHECK, DECL_LANG_SPECIFIC, selector_differs, TREE_CODE, c_or.
      rewrite Hn. simpl. unfold selector_admitted. simpl.
      case_bool_decide; case_bool_decide; simpl; try done;
        rewrite Hld; simpl; by case_bool_decide; case_bool_decide.
    - injection Hsub as <-. assert (nsub = n) as -> by congruence.
      unfold LANG_DECL_DECOMP_CHECK, DECL_LANG_SPECIFIC, selector_differs, VAR_P,
        TREE_CODE, c_or.
      rewrite Hn. simpl. unfold selector_admitted. simpl.
      case_bool_decide; simpl; try done;
        rewrite Hld; simpl; by case_bool_decide; case_bool_decide. }
  rewrite Hchk, Hrel.
  destruct (code_admitted m n nsub && selector_admitted m ld); repeat split; congruence.
Qed.

Lemma lang_decl_check_contract_witness :
  deref accessor_store 3%N = Ok (TEMPLATE_DECL_node 4%N)
  ∧ subject member_fn checking accessor_store 3%N = Ok 4%N
  ∧ deref accessor_store 4%N = Ok (decl_node FUNCTION_DECL 0%N 0%N 2%N)
  ∧ deref_lang_decl accessor_store 2%N = Ok fn_lang_decl
  ∧ LANG_DECL_CHECK member_fn checking accessor_store 3%N = Ok (2%N, member_fn)
  ∧ LANG_DECL_CHECK member_fn release accessor_store 3%N = Ok (2%N, member_fn).
Proof.
  do 4 (split; [reflexivity|]).
  destruct (lang_decl_check_contract member_fn accessor_store 3%N 4%N
              (TEMPLATE_DECL_node 4%N) (decl_node FUNCTION_DECL 0%N 0%N 2%N)
              fn_lang_decl eq_refl eq_refl eq_refl eq_refl)
    as (_ & Hok & Hrel & _).
  split; [exact (Hok eq_refl) | exact Hrel].
Defined.

(** C5, as stated, fails for LANG_DECL_MIN_CHECK: on a VAR_DECL whose
    [lang_decl] has the selector [lds_parm], a variant without a [min], the
    checking build raises nothing and hands out [u.min]; the accessors that
    compare the selector do reject the node. *)
Lemma min_check_ignores_selector :
  TREE_CODE accessor_store 1%N = Ok VAR_DECL
  ∧ deref_lang_decl accessor_store 1%N = Ok parm_lang_decl
  ∧ bf_get base_selector (base parm_lang_decl) = selector_value lds_parm
  ∧ variant_holds lds_parm member_min = false
  ∧ LANG_DECL_MIN_CHECK checking accessor_store 1%N = Ok (1%N, member_min)
  ∧ LANG_DECL_DECOMP_CHECK checking accessor_store 1%N = ICE lang_check_failed.
Proof. repeat split; reflexivity. Qed.

(** ** Class types *)

Section ClassTypeProperties.
Context `{!tree_h} `{!lang_type_layout}.

Lemma lang_type_member_read (off width : Z) (b : build) (s : store) (t : tree)
    (p : N) (lt : lang_type) :
  TYPE_LANG_SPECIFIC b s t = Ok p → deref_lang_type s p = Ok lt →
  lang_type_member off width b s t = Ok (bf_get (BitField off width) (lang_type_bits lt)).
Proof.
  intros Hp Hlt. unfold lang_type_member, LANG_TYPE_CLASS_CHECK.
  rewrite Hp. simpl. by rewrite Hlt.
Qed.

Lemma lang_type_member_rejected (off width : Z) (b : build) (s : store) (t : tree) :
  rejected (lang_type_member off width b s t) → rejected (TYPE_LANG_SPECIFIC b s t).
Proof.
  unfold lang_type_member, LANG_TYPE_CLASS_CHECK. intros [e He].
  destruct (TYPE_LANG_SPECIFIC b s t) as [p|e'| |]; simpl in He; try done.
  - unfold deref_lang_type in He. case_decide; [done|].
    by destruct (lang_types s !! p).
  - by exists e'.
Qed.

Lemma TYPE_CHECK_value (b : build) (s : store) (t : tree) (n : tree_node) :
  deref s t = Ok n →
  TYPE_CHECK b s t
  = match b with
    | checking =>
        if bool_decide (TREE_CODE_CLASS (code n) = tcc_type) then Ok t
        else ICE tree_check_failed
    | release => Ok t
    end.
Proof.
  intros Hn. destruct b; [|done]. unfold TYPE_CHECK, TREE_CODE. by rewrite Hn.
Qed.

(** C6, as amended.  LANG_TYPE_CLASS_CHECK is TYPE_LANG_SPECIFIC in both
    builds: it verifies neither a kind nor a selector of its own.  With
    the TYPE_LANG_SPECIFIC of tree.h, which goes through TYPE_CHECK, the
    accessor and the read of a class-type field such as TYPE_GETS_DELETE
    are rejected exactly in a checking build on a node that is no type.
    On a type of any kind, a class type or not, and in a release build on
    any node, the field is read from the [lang_type] the node points
    to. *)
Theorem lang_type_class_check_adds_no_check (b : build) (s : store) (t : tree)
    (n : tree_node) :
  (∀ b' s' t', TYPE_LANG_SPECIFIC b' s' t' = tree_h_TYPE_LANG_SPECIFIC b' s' t') →
  deref s t = Ok n →
  LANG_TYPE_CLASS_CHECK b s t = TYPE_LANG_SPECIFIC b s t
  ∧ (rejected (LANG_TYPE_CLASS_CHECK b s t)
     ↔ b = checking ∧ TREE_CODE_CLASS (code n) ≠ tcc_type)
  ∧ (rejected (TYPE_GETS_DELETE b s t)
     ↔ b = checking ∧ TREE_CODE_CLASS (code n) ≠ tcc_type)
  ∧ (b = release ∨ TREE_CODE_CLASS (code n) = tcc_type →
     LANG_TYPE_CLASS_CHECK b s t = Ok (type_lang_specific n)
     ∧ ∀ lt : lang_type,
         deref_lang_type s (type_lang_specific n) = Ok lt →
         TYPE_GETS_DELETE b s t
         = Ok (bf_get (BitField gets_delete_off 2) (lang_type_bits lt))).
Proof.
  intros Hbody Hn.
  assert (Hpass : b = release ∨ TREE_CODE_CLASS (code n) = tcc_type →
                  LANG_TYPE_CLASS_CHECK b s t = Ok (type_lang_specific n)).
  { intros Hor. unfold LANG_TYPE_CLASS_CHECK. rewrite Hbody.
    unfold tree_h_TYPE_LANG_SPECIFIC. rewrite (TYPE_CHECK_value _ _ _ _ Hn).
    destruct Hor as [->|Hc].
    - cbn [mbind outcome_bind]. by rewrite Hn.
    - rewrite bool_decide_true by done. destruct b; cbn [mbind outcome_bind];
        by rewrite Hn. }
  assert (Hfail : b = checking ∧ TREE_CODE_CLASS (code n) ≠ tcc_type →
                  LANG_TYPE_CLASS_CHECK b s t = ICE tree_check_failed).
  { intros [-> Hc]. unfold LANG_TYPE_CLASS_CHECK. rewrite Hbody.
    unfold tree_h_TYPE_LANG_SPECIFIC. rewrite (TYPE_CHECK_value _ _ _ _ Hn).
    by rewrite bool_decide_false. }
  assert (Hcases : (b = checking ∧ TREE_CODE_CLASS (code n) ≠ tcc_type)
                   ∨ (b = release ∨ TREE_CODE_CLASS (code n) = tcc_type)).
  { destruct b; [|by right; left].
    destruct (decide (TREE_CODE_CLASS (code n) = tcc_type)); [right|left]; by auto. }
  split; [reflexivity|]. split; [|split].
  - split.
    + intros [e He]. destruct Hcases as [Hc|Hc]; [done|].
      by rewrite (Hpass Hc) in He.
    + intros Hc. exists tree_check_failed. by apply Hfail.
  - split.
    + intros Hr. apply lang_type_member_rejected in Hr. destruct Hr as [e He].
      destruct Hcases as [Hc|Hc]; [done|].
      change (TYPE_LANG_SPECIFIC b s t) with (LANG_TYPE_CLASS_CHECK b s t) in He.
      by rewrite (Hpass Hc) in He.
    + intros Hc. exists tree_check_failed.
      unfold TYPE_GETS_DELETE, lang_type_member. by rewrite (Hfail Hc).
  - intros Hc. split; [by apply Hpass|].
    intros lt Hlt. apply (lang_type_member_read _ _ _ _ _ (type_lang_specific n)); [|done].
    by apply Hpass.
Qed.

Lemma c_or_true (a b : outcome bool) :
  c_or a b = Ok true ↔ a = Ok true ∨ (a = Ok false ∧ b = Ok true).
Proof.
  unfold c_or. destruct a as [[]| | |]; simpl; naive_solver.
Qed.

Lemma c_or_false (a b : outcome bool) :
  c_or a b = Ok false ↔ a = Ok false ∧ b = Ok false.
Proof.
  unfold c_or. destruct a as [[]| | |]; simpl; naive_solver.
Qed.

Lemma c_and_true (a b : outcome bool) :
  c_and a b = Ok true ↔ a = Ok true ∧ b = Ok true.
Proof.
  unfold c_and. destruct a as [[]| | |]; simpl; naive_solver.
Qed.

Lemma c_and_false (a b : outcome bool) :
  c_and a b = Ok false ↔ a = Ok false ∨ (a = Ok true ∧ b = Ok false).
Proof.
  unfold c_and. destruct a as [[]| | |]; simpl; naive_solver.
Qed.

Lemma truth_of_flag (o : outcome Z) :
  (v ← o; Ok (c_true v)) = Ok true ↔ holds o.
Proof.
  unfold holds, c_true. destruct o as [v| | |]; simpl.
  - split.
    + intros [= Hv]. apply bool_decide_eq_true in Hv. by exists v.
    + intros (v' & [= <-] & Hne). by rewrite bool_decide_true.
  - split; [done|]. by intros (? & ? & ?).
  - split; [done|]. by intros (? & ? & ?).
  - split; [done|]. by intros (? & ? & ?).
Qed.

Lemma falsity_of_flag (o : outcome Z) :
  (v ← o; Ok (c_true v)) = Ok false ↔ o = Ok 0.
Proof.
  unfold c_true. destruct o as [v| | |]; simpl; try (split; done).
  split.
  - intros [= Hv]. apply bool_decide_eq_false in Hv. f_equal.
    destruct (decide (v = 0)); [done|]. by destruct Hv.
  - intros [= ->]. done.
Qed.

(** C7.  For a type node [t] on which COMPLETE_TYPE_P evaluates,
    COMPLETE_OR_OPEN_TYPE_P is true if and only if [t] is complete, or [t]
    is a class type whose [being_defined] flag is set; it is false if and
    only if [t] is incomplete and is no class type or has the flag
    clear. *)
Theorem complete_or_open_type (b : build) (s : store) (t : tree) (complete : bool) :
  COMPLETE_TYPE_P b s t = Ok complete →
  (COMPLETE_OR_OPEN_TYPE_P b s t = Ok true
   ↔ complete = true
     ∨ (CLASS_TYPE_P b s t = Ok true ∧ holds (TYPE_BEING_DEFINED b s t)))
  ∧ (COMPLETE_OR_OPEN_TYPE_P b s t = Ok false
     ↔ complete = false
       ∧ (CLASS_TYPE_P b s t = Ok false
          ∨ (CLASS_TYPE_P b s t = Ok true ∧ TYPE_BEING_DEFINED b s t = Ok 0))).
Proof.
  intros Hc. unfold COMPLETE_OR_OPEN_TYPE_P.
  rewrite c_or_true, c_or_false, c_and_true, c_and_false, truth_of_flag,
    falsity_of_flag, Hc.
  destruct complete; naive_solver.
Qed.

End ClassTypeProperties.

Lemma lang_type_class_check_adds_no_check_witness :
  TREE_CODE wrong_kind_store 1%N = Ok INTEGER_TYPE
  ∧ @LANG_TYPE_CLASS_CHECK checking_tree_h checking wrong_kind_store 1%N = Ok 1%N
  ∧ @TYPE_GETS_DELETE checking_tree_h example_layout checking wrong_kind_store 1%N = Ok 1
  ∧ ¬ rejected (@TYPE_GETS_DELETE checking_tree_h example_layout checking
                  wrong_kind_store 1%N).
Proof.
  split; [reflexivity|].
  destruct (@lang_type_class_check_adds_no_check checking_tree_h example_layout
              checking wrong_kind_store 1%N _ (λ _ _ _, eq_refl) eq_refl)
    as (_ & _ & Hrej & Hread).
  destruct (Hread (or_intror eq_refl)) as [Hp Hget].
  split; [exact Hp|]. split; [exact (Hget (LangType 8) eq_refl)|].
  intros Hr. by destruct (proj1 Hrej Hr) as [_ Hc].
Defined.

(** On a VAR_DECL, which is no type, a checking build rejects
    LANG_TYPE_CLASS_CHECK and the read of TYPE_GETS_DELETE. *)
Lemma lang_type_class_check_rejects_non_type :
  TREE_CODE template_store 1%N = Ok VAR_DECL
  ∧ @LANG_TYPE_CLASS_CHECK checking_tree_h checking template_store 1%N
    = ICE tree_check_failed
  ∧ @TYPE_GETS_DELETE checking_tree_h example_layout checking template_store 1%N
    = ICE tree_check_failed
  ∧ @LANG_TYPE_CLASS_CHECK checking_tree_h release template_store 1%N = Ok 0%N.
Proof. repeat split; reflexivity. Qed.

Lemma complete_or_open_type_witness :
  @COMPLETE_TYPE_P example_tree_h checking template_store 3%N = Ok false
  ∧ @COMPLETE_OR_OPEN_TYPE_P example_tree_h example_layout checking template_store 3%N
    = Ok true.
Proof.
  split; [reflexivity|].
  apply (@complete_or_open_type example_tree_h example_layout checking
           template_store 3%N false eq_refl).
  right. split; [reflexivity|]. exists 1. split; [reflexivity|done].
Defined.

(** ** The flag banks *)

Lemma bank_word_with_bank_word (k k' : flag_bank) (w : Z) (n : tree_node) :
  bank_word k' (with_bank_word k w n) = if decide (k = k') then w else bank_word k' n.
Proof. by destruct k, k'. Qed.

Lemma code_with_bank_word (k : flag_bank) (w : Z) (n : tree_node) :
  code (with_bank_word k w n) = code n.
Proof. by destruct k. Qed.

Lemma deref_store_node (s : store) (t t' : tree) (n : tree_node) :
  t ≠ NULL_TREE →
  deref (store_node s t n) t' = if decide (t = t') then Ok n else deref s t'.
Proof.
  intros Hnz. unfold deref, store_node. simpl.
  destruct (decide (t = t')) as [<-|Hne].
  - rewrite decide_False by done. by rewrite lookup_insert_eq.
  - by rewrite lookup_insert_ne.
Qed.

Lemma SET_LANG_FLAG_inv (k : flag_bank) (i v : Z) (b : build) (s s' : store) (t : tree) :
  SET_LANG_FLAG k i v b s t = Ok s' →
  ∃ n, deref s t = Ok n
       ∧ bank_check b k n = Ok ()
       ∧ s' = store_node s t
                (with_bank_word k (bf_set (BitField i 1) v (bank_word k n)) n).
Proof.
  unfold SET_LANG_FLAG. destruct (deref s t) as [n| | |]; simpl; try done.
  destruct (bank_check b k n) as [[]| | |] eqn:Hck; simpl; try done.
  intros [= <-]. by exists n.
Qed.

(** C8.  Setting flag [i] of bank [k] on node [t] stores the low bit of the
    value there, and leaves the reading of every other flag unchanged:
    those of the other two banks of [t], those at the other indices of the
    same bank, and every flag of every other node.  In particular
    SLICE_TYPE_P changes only when the flag set is SLICE_FLAG itself. *)
Theorem lang_flag_frame (k : flag_bank) (i v : Z) (b : build) (s s' : store) (t : tree) :
  0 ≤ i →
  SET_LANG_FLAG k i v b s t = Ok s' →
  LANG_FLAG k i b s' t = Ok (Z.land v 1)
  ∧ (∀ (k' : flag_bank) (i' : Z) (t' : tree),
       0 ≤ i' → (k, i, t) ≠ (k', i', t') →
       LANG_FLAG k' i' b s' t' = LANG_FLAG k' i' b s t')
  ∧ (∀ t' : tree,
       (k, i, t) ≠ (tree_bank, 0, t') →
       SLICE_TYPE_P b s' t' = SLICE_TYPE_P b s t').
Proof.
  intros Hi Hset.
  destruct (SET_LANG_FLAG_inv _ _ _ _ _ _ _ Hset) as (n & Hn & Hck & ->).
  destruct (deref_nonnull _ _ _ Hn) as [Hnz _].
  assert (Hck' : ∀ w, bank_check b k (with_bank_word k w n) = Ok ()).
  { intros w. unfold bank_check in *. by rewrite code_with_bank_word. }
  assert (Hframe : ∀ (k' : flag_bank) (i' : Z) (t' : tree),
            0 ≤ i' → (k, i, t) ≠ (k', i', t') →
            LANG_FLAG k' i' b
              (store_node s t
                 (with_bank_word k (bf_set (BitField i 1) v (bank_word k n)) n)) t'
            = LANG_FLAG k' i' b s t').
  { intros k' i' t' Hi' Hne. unfold LANG_FLAG. rewrite deref_store_node by done.
    destruct (decide (t = t')) as [<-|Hnet]; [|done].
    rewrite Hn. simpl.
    assert (bank_check b k' (with_bank_word k (bf_set (BitField i 1) v (bank_word k n)) n)
            = bank_check b k' n) as ->.
    { unfold bank_check. by rewrite code_with_bank_word. }
    destruct (bank_check b k' n) as [[]| | |]; simpl; try done.
    rewrite bank_word_with_bank_word.
    destruct (decide (k = k')) as [<-|Hnek]; [|done].
    rewrite bf_get_set_other; [done|done|done|done|done|].
    unfold bf_disjoint. simpl.
    assert (i ≠ i') by congruence. lia. }
  split; [|split; [exact Hframe|]].
  - unfold LANG_FLAG. rewrite deref_store_node, decide_True by done. simpl.
    rewrite Hck'. simpl. rewrite bank_word_with_bank_word, decide_True by done.
    by rewrite bf_get_set.
  - intros t' Hne. unfold SLICE_TYPE_P, TREE_LANG_FLAG.
    rewrite (Hframe tree_bank 0 t') by done.
    unfold TREE_CODE. rewrite deref_store_node by done.
    destruct (decide (t = t')) as [<-|Hnet]; [|done].
    rewrite Hn. simpl. by rewrite code_with_bank_word.
Qed.

Lemma lang_flag_frame_witness :
  SET_LANG_FLAG tree_bank 4 1 checking identifier_store 1%N
  = Ok (store_node identifier_store 1%N (with_lang_flag 21 assign_op_identifier))
  ∧ LANG_FLAG tree_bank 0 checking
      (store_node identifier_store 1%N (with_lang_flag 21 assign_op_identifier)) 1%N
    = LANG_FLAG tree_bank 0 checking identifier_store 1%N.
Proof.
  split; [reflexivity|].
  destruct (lang_flag_frame tree_bank 4 1 checking identifier_store
              _ 1%N ltac:(done) eq_refl) as (_ & Hframe & _).
  apply Hframe; [done|congruence].
Defined.

(** ** The clones of a constructor or destructor *)

Lemma maximal_run_spec {A} (p : A → bool) (l : list A) :
  ∃ rest, l = maximal_run p l ++ rest
          ∧ Forall (λ x, p x = true) (maximal_run p l)
          ∧ (rest = [] ∨ ∃ x rest', rest = x :: rest' ∧ p x = false).
Proof.
  induction l as [|x l IH]; simpl.
  - exists []. by repeat split; [|left].
  - destruct (p x) eqn:Hx.
    + destruct IH as (rest & Hl & Hall & Hrest).
      exists rest. split; [simpl; by f_equal|]. split; [|done].
      by constructor.
    + exists (x :: l). split; [done|]. split; [constructor|].
      right. by exists x, l.
Qed.

Section CloneProperties.
Context `{!global_trees}.

Lemma DECL_CLONED_FUNCTION_P_evaluates (b : build) (s : store) (t : tree) :
  named_by_identifier b s t → ∃ p, DECL_CLONED_FUNCTION_P b s t = Ok p.
Proof.
  intros (n & Hn & Hname).
  unfold DECL_CLONED_FUNCTION_P, DECL_MAYBE_IN_CHARGE_CDTOR_P,
    DECL_MAYBE_IN_CHARGE_CONSTRUCTOR_P, DECL_MAYBE_IN_CHARGE_DESTRUCTOR_P,
    DECL_NAME, c_and, c_or.
  rewrite Hn. simpl.
  destruct Hname as [Hnull|(id & Hid & Hcode)].
  - rewrite bool_decide_false by (intros Hne; by apply Hne). by eexists.
  - destruct (deref_nonnull _ _ _ Hid) as [Hnz _].
    rewrite bool_decide_true by done.
    rewrite (IDENTIFIER_CDTOR_P_value b s (name n) id Hid Hcode). simpl.
    destruct (c_true _); [|by eexists].
    destruct (bool_decide (name n = ctor_identifier)); simpl; by eexists.
Qed.

Lemma clone_loop_run (b : build) (s : store) (t : tree) (l : list tree) :
  chain_from s t l →
  Forall (named_by_identifier b s) l →
  ∀ fuel : nat, (length l < fuel)%nat →
  clone_loop fuel b s t = Ok (maximal_run (is_clone b s) l).
Proof.
  induction 1 as [|t n l Hnz Hlook Hchain IH]; intros Hp fuel Hfuel.
  - destruct fuel as [|fuel]; [simpl in Hfuel; lia|]. done.
  - destruct fuel as [|fuel]; [simpl in Hfuel; lia|].
    apply Forall_cons in Hp as [Hpt Hp].
    simpl. rewrite decide_False by done.
    destruct (DECL_CLONED_FUNCTION_P_evaluates b s t Hpt) as [p Hpv].
    unfold is_clone. rewrite Hpv. simpl. destruct p; [|done].
    unfold DECL_CHAIN, deref. rewrite decide_False by done. rewrite Hlook. simpl.
    rewrite IH; [done|done|simpl in Hfuel; lia].
Qed.

(** C4.  FOR_EACH_CLONE (clone, fn) visits, in chain order, the maximal
    run of declarations directly after [fn] on its DECL_CHAIN of which
    DECL_CLONED_FUNCTION_P holds, provided [fn] is a FUNCTION_DECL of which
    DECL_MAYBE_IN_CHARGE_CDTOR_P holds; it stops at the first successor
    that is no clone or at the end of the chain, and visits nothing for any
    other [fn]. *)
Theorem for_each_clone_visits (fuel : nat) (b : build) (s : store) (fn : tree)
    (n : tree_node) (l : list tree) :
  deref s fn = Ok n →
  chain_from s (chain n) l →
  Forall (named_by_identifier b s) l →
  (length l < fuel)%nat →
  c_and (c ← TREE_CODE s fn; Ok (bool_decide (c = FUNCTION_DECL)))
        (DECL_MAYBE_IN_CHARGE_CDTOR_P s fn) = Ok (has_clones n)
  ∧ ∃ visited rest,
      FOR_EACH_CLONE fuel b s fn = Ok visited
      ∧ visited = (if has_clones n then maximal_run (is_clone b s) l else [])
      ∧ Forall (λ c, is_clone b s c = true) visited
      ∧ (has_clones n = true →
         l = visited ++ rest
         ∧ (rest = [] ∨ ∃ c rest', rest = c :: rest' ∧ is_clone b s c = false)).
Proof.
  intros Hn Hchain Hp Hfuel.
  assert (Hg : c_and (c ← TREE_CODE s fn; Ok (bool_decide (c = FUNCTION_DECL)))
                     (DECL_MAYBE_IN_CHARGE_CDTOR_P s fn) = Ok (has_clones n)).
  { unfold DECL_MAYBE_IN_CHARGE_CDTOR_P, DECL_MAYBE_IN_CHARGE_CONSTRUCTOR_P,
      DECL_MAYBE_IN_CHARGE_DESTRUCTOR_P, DECL_NAME, TREE_CODE, c_or, c_and, has_clones.
    rewrite Hn. simpl.
    by destruct (bool_decide (code n = FUNCTION_DECL)),
      (bool_decide (name n = ctor_identifier)). }
  split; [exact Hg|].
  destruct (maximal_run_spec (is_clone b s) l) as (rest & Hl & Hall & Hrest).
  unfold FOR_EACH_CLONE. rewrite Hg. simpl.
  destruct (has_clones n); simpl.
  - unfold DECL_CHAIN. rewrite Hn. simpl.
    rewrite (clone_loop_run b s _ l Hchain Hp fuel Hfuel).
    by exists (maximal_run (is_clone b s) l), rest.
  - exists [], l. split; [done|]. split; [done|]. split; [constructor|done].
Qed.

End CloneProperties.

Lemma for_each_clone_visits_witness :
  deref clone_store 1%N = Ok (decl_node FUNCTION_DECL 101%N 2%N 0%N)
  ∧ chain_from clone_store 2%N [2; 3; 4; 5]%N
  ∧ (length [2; 3; 4; 5]%N < 5)%nat
  ∧ @FOR_EACH_CLONE example_globals 5 checking clone_store 1%N = Ok [2; 3]%N.
Proof.
  assert (Hchain : chain_from clone_store 2%N [2; 3; 4; 5]%N).
  { repeat (eapply chain_link; [done | reflexivity | simpl]). apply chain_end. }
  split; [reflexivity|]. split; [exact Hchain|]. split; [simpl; lia|].
  destruct (@for_each_clone_visits example_globals 5 checking clone_store 1%N
              (decl_node FUNCTION_DECL 101%N 2%N 0%N) [2; 3; 4; 5]%N
              eq_refl Hchain) as (_ & visited & rest & Hv & -> & _).
  - repeat (constructor;
              [eexists; split; [reflexivity|];
               right; eexists; split; [reflexivity|done] |]).
    constructor.
  - simpl. lia.
  - exact Hv.
Defined.

(** ** Marking uses *)

Section MarkUseProperties.
Context `{!global_trees} `{!tree_h}.

(** C10.  On an expression that is neither NULL_TREE nor an error operand,
    [mark_use] with [reject_builtin] set returns [error_mark_node] at once:
    one unfolding suffices and the store is unchanged, so nothing was
    marked and no operand was visited.  Hence [mark_rvalue_use] with
    [reject_builtin] true, its documented default, returns
    [error_mark_node], which is not the expression it was given. *)
Theorem mark_use_rejects (fuel : nat) (s : store) (expr : tree)
    (rvalue_p read_p : bool) (loc : N) :
  expr ≠ NULL_TREE →
  error_operand_p s expr = false →
  error_operand_p s error_mark_node = true →
  mark_use (S fuel) s expr rvalue_p read_p loc true = Ok (error_mark_node, s)
  ∧ mark_rvalue_use (S fuel) s expr loc true = Ok (error_mark_node, s)
  ∧ error_mark_node ≠ expr.
Proof.
  intros Hnz Herr Hmark.
  assert (Hone : ∀ r p, mark_use (S fuel) s expr r p loc true = Ok (error_mark_node, s)).
  { intros r p. simpl. rewrite bool_decide_false by done. by rewrite Herr. }
  split; [apply Hone|]. split; [apply Hone|].
  intros <-. congruence.
Qed.

End MarkUseProperties.

Lemma mark_use_rejects_witness :
  (1%N ≠ NULL_TREE)
  ∧ @error_operand_p example_tree_h use_store 1%N = false
  ∧ @error_operand_p example_tree_h use_store (@error_mark_node example_globals) = true
  ∧ @mark_rvalue_use example_globals example_tree_h 1 use_store 1%N 0%N true
    = Ok (100%N, use_store).
Proof.
  split; [done|]. split; [reflexivity|]. split; [reflexivity|].
  apply (@mark_use_rejects example_globals example_tree_h 0 use_store 1%N true true 0%N);
    [done | reflexivity | reflexivity].
Defined.

(** ** Type comparison *)

Module ComptypesProperties.
Import Comptypes.

Lemma type_node_induction (P : type_node → Prop) :
  (∀ i, P (scalar i)) →
  (∀ i bs, Forall P bs → P (class i bs)) →
  (∀ t, P t → P (pointer t)) →
  (∀ t, P t → P (reference t)) →
  ∀ t, P t.
Proof.
  intros Hs Hc Hp Hr. fix IH 1. intros [i|i bs|t|t].
  - apply Hs.
  - apply Hc. induction bs as [|b bs IHbs]; constructor; [apply IH | apply IHbs].
  - apply Hp, IH.
  - apply Hr, IH.
Qed.

Lemma same_type_eq (t1 t2 : type_node) : same_type t1 t2 = true ↔ t1 = t2.
Proof.
  revert t2. induction t1 as [i|i bs IH|a IH|a IH] using type_node_induction;
    intros [j|j cs|b|b]; simpl; try (split; [done|intros [=]]).
  - rewrite bool_decide_eq_true. split; [by intros ->|by intros [= ->]].
  - rewrite andb_true_iff, bool_decide_eq_true.
    assert (Hl : (fix same_list (l1 l2 : list type_node) : bool :=
                    match l1, l2 with
                    | [], [] => true
                    | x :: l1', y :: l2' => same_type x y && same_list l1' l2'
                    | _, _ => false
                    end) bs cs = true ↔ bs = cs).
    { clear i j. revert cs. induction IH as [|x l Hx Hall IHl]; intros [|y cs];
        try (split; [done|intros [=]]); [done|].
      rewrite andb_true_iff, Hx, IHl. split; [by intros [-> ->]|by intros [= -> ->]]. }
    rewrite Hl. split; [by intros [-> ->]|by intros [= -> ->]].
  - rewrite IH. split; [by intros ->|by intros [= ->]].
  - rewrite IH. split; [by intros ->|by intros [= ->]].
Qed.

Lemma same_type_refl (t : type_node) : same_type t t = true.
Proof. by apply same_type_eq. Qed.

Lemma same_type_sym (t1 t2 : type_node) : same_type t1 t2 = same_type t2 t1.
Proof.
  destruct (same_type t1 t2) eqn:H12, (same_type t2 t1) eqn:H21; try done.
  - apply same_type_eq in H12 as ->. by rewrite same_type_refl in H21.
  - apply same_type_eq in H21 as ->. by rewrite same_type_refl in H12.
Qed.

Lemma DERIVED_FROM_P_size (parent type : type_node) :
  DERIVED_FROM_P parent type = true → (type_size parent < type_size type)%nat.
Proof.
  induction type as [i|i bs IH|a IH|a IH] using type_node_induction; simpl; try done.
  induction IH as [|b l Hb Hall IHl]; simpl; [done|].
  rewrite !orb_true_iff. intros [[Hs|Hd]|Hl].
  - apply same_type_eq in Hs as ->. lia.
  - apply Hb in Hd. lia.
  - apply IHl in Hl. lia.
Qed.

(** C9.  [same_type_p] is reflexive, as is [comptypes] in every mode, and
    symmetric; [same_or_base_type_p] accepts a base as first and a class
    derived from it as second argument, and rejects the two in the other
    order. *)
Theorem same_type_relation :
  (∀ t, same_type_p t t = true)
  ∧ (∀ t strict, comptypes t t strict = true)
  ∧ (∀ t1 t2, same_type_p t1 t2 = same_type_p t2 t1)
  ∧ (∀ base derived,
       DERIVED_FROM_P base derived = true →
       same_or_base_type_p base derived = true
       ∧ same_or_base_type_p derived base = false).
Proof.
  split; [|split; [|split]].
  - intros t. unfold same_type_p, comptypes. by rewrite same_type_refl.
  - intros t strict. unfold comptypes. by rewrite same_type_refl.
  - intros t1 t2. unfold same_type_p, comptypes. simpl.
    by rewrite !orb_false_r, same_type_sym.
  - intros base derived Hd. pose proof (DERIVED_FROM_P_size _ _ Hd) as Hlt.
    unfold same_or_base_type_p, comptypes, base_of. rewrite Hd. simpl.
    split; [by rewrite orb_true_r|].
    rewrite !orb_false_r.
    destruct (same_type derived base) eqn:Hs.
    { apply same_type_eq in Hs as ->. lia. }
    destruct (DERIVED_FROM_P derived base) eqn:Hr.
    { apply DERIVED_FROM_P_size in Hr. lia. }
    by destruct derived.
Qed.

End ComptypesProperties.

Lemma same_type_relation_witness :
  Comptypes.DERIVED_FROM_P Base Derived = true
  ∧ Comptypes.same_or_base_type_p Base Derived = true
  ∧ Comptypes.same_or_base_type_p Derived Base = false.
Proof.
  split; [reflexivity|].
  destruct ComptypesProperties.same_type_relation as (_ & _ & _ & H).
  exact (H Base Derived eq_refl).
Defined.

(** * Further properties of the accessors *)

(** ** The language linkage *)

Lemma DECL_LANG_SPECIFIC_deref (s : store) (t : tree) (n : tree_node) :
  deref s t = Ok n → DECL_LANG_SPECIFIC s t = Ok (decl_lang_specific n).
Proof. intros H. unfold DECL_LANG_SPECIFIC. by rewrite H. Qed.

Lemma DECL_THUNK_P_guard (b : build) (s : store) (t : tree) (n : tree_node) :
  deref s t = Ok n →
  code n ≠ FUNCTION_DECL ∨ decl_lang_specific n = 0%N →
  DECL_THUNK_P b s t = Ok false.
Proof.
  intros Hn Hg. unfold DECL_THUNK_P, c_and, TREE_CODE, DECL_LANG_SPECIFIC.
  rewrite Hn. simpl. case_bool_decide as Hc; [|done]. simpl.
  destruct Hg as [Hg|Hg]; [done|]. rewrite Hg. by rewrite bool_decide_false by (intros H; by apply H).
Qed.

(** X1.  A declaration without DECL_LANG_SPECIFIC has a default language
    linkage: C for a FUNCTION_DECL (which is then an extern "C" function),
    C++ for every other declaration; SET_DECL_LANGUAGE on such a node
    dereferences the null pointer.  On a declaration with
    DECL_LANG_SPECIFIC, DECL_LANGUAGE reads back what SET_DECL_LANGUAGE
    stored. *)
Theorem decl_language_default_and_round_trip (b : build) (s : store) (t : tree)
    (n : tree_node) :
  deref s t = Ok n →
  (decl_lang_specific n = 0%N →
     DECL_LANGUAGE s t
     = Ok (languages_value (if bool_decide (code n = FUNCTION_DECL) then lang_c
                            else lang_cplusplus))
     ∧ DECL_EXTERN_C_P s t = Ok (bool_decide (code n = FUNCTION_DECL))
     ∧ DECL_EXTERN_C_FUNCTION_P b s t = Ok (bool_decide (code n = FUNCTION_DECL))
     ∧ ∀ l, SET_DECL_LANGUAGE l s t = Undefined)
  ∧ (∀ d l, deref_lang_decl s (decl_lang_specific n) = Ok d →
       ∃ s', SET_DECL_LANGUAGE l s t = Ok s'
             ∧ DECL_LANGUAGE s' t = Ok (languages_value l)
             ∧ DECL_EXTERN_C_P s' t = Ok (bool_decide (l = lang_c))).
Proof.
  intros Hn. split.
  - intros Hnull.
    assert (Hl : DECL_LANGUAGE s t
                 = Ok (languages_value (if bool_decide (code n = FUNCTION_DECL)
                                        then lang_c else lang_cplusplus))).
    { unfold DECL_LANGUAGE, DECL_LANG_SPECIFIC, TREE_CODE. rewrite Hn. simpl.
      rewrite Hnull. rewrite decide_False by (intros H; by apply H). simpl.
      by case_bool_decide. }
    assert (He : DECL_EXTERN_C_P s t = Ok (bool_decide (code n = FUNCTION_DECL))).
    { unfold DECL_EXTERN_C_P. rewrite Hl. simpl. by case_bool_decide. }
    split; [done|]. split; [done|]. split.
    + unfold DECL_EXTERN_C_FUNCTION_P, DECL_NON_THUNK_FUNCTION_P, c_and.
      rewrite (DECL_THUNK_P_guard b s t n Hn) by (by right).
      rewrite He. unfold TREE_CODE. rewrite Hn. simpl. by case_bool_decide.
    + intros l. unfold SET_DECL_LANGUAGE, DECL_LANG_SPECIFIC. rewrite Hn. simpl.
      by rewrite Hnull.
  - intros d l Hd.
    destruct (deref_lang_decl_nonnull _ _ _ Hd) as [Hnz _].
    unfold SET_DECL_LANGUAGE. rewrite (DECL_LANG_SPECIFIC_deref _ _ _ Hn). simpl.
    rewrite Hd. simpl. eexists. split; [done|].
    assert (Hl : DECL_LANGUAGE
                   (store_lang_decl s (decl_lang_specific n)
                      (LangDecl (bf_set base_language (languages_value l) (base d)) (u d))) t
                 = Ok (languages_value l)).
    { unfold DECL_LANGUAGE.
      change (DECL_LANG_SPECIFIC (store_lang_decl ?s0 ?p ?d0) t)
        with (DECL_LANG_SPECIFIC s0 t).
      rewrite (DECL_LANG_SPECIFIC_deref _ _ _ Hn). simpl.
      rewrite decide_True by done. rewrite deref_lang_decl_stored by done. simpl.
      rewrite bf_get_set by done. by destruct l. }
    split; [done|]. unfold DECL_EXTERN_C_P. rewrite Hl. simpl.
    by destruct l.
Qed.

Lemma decl_language_default_and_round_trip_witness :
  DECL_LANGUAGE clone_store 1%N = Ok (languages_value lang_c)
  ∧ ∃ s', SET_DECL_LANGUAGE lang_cplusplus thunk_store 1%N = Ok s'
          ∧ DECL_LANGUAGE s' 1%N = Ok (languages_value lang_cplusplus).
Proof.
  split.
  - destruct (decl_language_default_and_round_trip checking clone_store 1%N _ eq_refl)
      as [Hdefault _].
    by destruct (Hdefault eq_refl) as (-> & _).
  - destruct (decl_language_default_and_round_trip checking thunk_store 1%N _ eq_refl)
      as [_ Hset].
    destruct (Hset thunk_lang_decl lang_cplusplus eq_refl) as (s' & Hs & Hl & _).
    by exists s'.
Defined.

(** ** The bit-fields of [u.base] *)

Lemma selector_differs_base_write (s : store) (p lt : N) (d : lang_decl) (w : Z)
    (sel : lang_decl_selector) :
  lang_decls s !! p = Some d →
  bf_get base_selector w = bf_get base_selector (base d) →
  selector_differs (store_lang_decl s p (LangDecl w (u d))) lt sel
  = selector_differs s lt sel.
Proof.
  intros Hd Hw. unfold selector_differs, deref_lang_decl. simpl.
  case_decide; [done|].
  destruct (decide (lt = p)) as [->|Hne].
  - rewrite lookup_insert_eq, Hd. simpl. by rewrite Hw.
  - by rewrite lookup_insert_ne.
Qed.

Lemma base_field_base_write (g : bitfield) (s : store) (p q : N) (d : lang_decl) (w : Z) :
  lang_decls s !! p = Some d →
  bf_get g w = bf_get g (base d) →
  (d' ← deref_lang_decl (store_lang_decl s p (LangDecl w (u d))) q; Ok (bf_get g (base d')))
  = (d' ← deref_lang_decl s q; Ok (bf_get g (base d'))).
Proof.
  intros Hd Hw. unfold deref_lang_decl. simpl.
  case_decide; [done|].
  destruct (decide (q = p)) as [->|Hne].
  - rewrite lookup_insert_eq, Hd. simpl. by rewrite Hw.
  - by rewrite lookup_insert_ne.
Qed.

Lemma LANG_DECL_CHECK_base_write (m : lang_decl_member) (b : build) (s : store)
    (p : N) (d : lang_decl) (w : Z) (x : tree) :
  lang_decls s !! p = Some d →
  bf_get base_selector w = bf_get base_selector (base d) →
  LANG_DECL_CHECK m b (store_lang_decl s p (LangDecl w (u d))) x
  = LANG_DECL_CHECK m b s x.
Proof.
  intros Hd Hw.
  pose proof (selector_differs_base_write s p) as Hsel.
  set (s' := store_lang_decl s p (LangDecl w (u d))) in *.
  destruct m, b; simpl; try reflexivity.
  - unfold LANG_DECL_FN_CHECK.
    change (STRIP_TEMPLATE checking s' x) with (STRIP_TEMPLATE checking s x).
    destruct (STRIP_TEMPLATE checking s x) as [sub| | |]; try reflexivity. simpl.
    change (DECL_LANG_SPECIFIC s' sub) with (DECL_LANG_SPECIFIC s sub).
    destruct (DECL_LANG_SPECIFIC s sub) as [lt| | |]; try reflexivity. simpl.
    change (DECL_DECLARES_FUNCTION_P checking s' x)
      with (DECL_DECLARES_FUNCTION_P checking s x).
    subst s'. by rewrite Hsel.
  - unfold LANG_DECL_NS_CHECK.
    change (DECL_LANG_SPECIFIC s' x) with (DECL_LANG_SPECIFIC s x).
    destruct (DECL_LANG_SPECIFIC s x) as [lt| | |]; try reflexivity. simpl.
    change (TREE_CODE s' x) with (TREE_CODE s x).
    subst s'. by rewrite Hsel.
  - unfold LANG_DECL_PARM_CHECK.
    change (DECL_LANG_SPECIFIC s' x) with (DECL_LANG_SPECIFIC s x).
    destruct (DECL_LANG_SPECIFIC s x) as [lt| | |]; try reflexivity. simpl.
    change (TREE_CODE s' x) with (TREE_CODE s x).
    subst s'. by rewrite Hsel.
  - unfold LANG_DECL_DECOMP_CHECK.
    change (DECL_LANG_SPECIFIC s' x) with (DECL_LANG_SPECIFIC s x).
    destruct (DECL_LANG_SPECIFIC s x) as [lt| | |]; try reflexivity. simpl.
    change (VAR_P s' x) with (VAR_P s x).
    subst s'. by rewrite Hsel.
Qed.

Lemma assign_base_inv (a : base_assignment) (s s' : store) (t : tree) :
  assign_base a s t = Ok s' →
  ∃ p d v, lang_decls s !! p = Some d
           ∧ s' = store_lang_decl s p
                    (LangDecl (bf_set (assigned_field a) v (base d)) (u d)).
Proof.
  destruct a as [v|l|b]; simpl.
  - unfold assign_DECL_USE_TEMPLATE.
    destruct (DECL_LANG_SPECIFIC s t) as [p| | |]; try done. simpl.
    destruct (deref_lang_decl s p) as [d| | |] eqn:Hd; try done. simpl.
    intros [= <-]. exists p, d, v.
    by destruct (deref_lang_decl_nonnull _ _ _ Hd).
  - unfold SET_DECL_LANGUAGE.
    destruct (DECL_LANG_SPECIFIC s t) as [p| | |]; try done. simpl.
    destruct (deref_lang_decl s p) as [d| | |] eqn:Hd; try done. simpl.
    intros [= <-]. exists p, d, (languages_value l).
    by destruct (deref_lang_decl_nonnull _ _ _ Hd).
  - unfold SET_VAR_HAD_UNKNOWN_BOUND.
    destruct (VAR_DECL_CHECK b s t) as [t'| | |]; try done. simpl.
    destruct (DECL_LANG_SPECIFIC s t') as [p| | |]; try done. simpl.
    destruct (deref_lang_decl s p) as [d| | |] eqn:Hd; try done. simpl.
    intros [= <-]. exists p, d, 1.
    by destruct (deref_lang_decl_nonnull _ _ _ Hd).
Qed.

Lemma base_fields_disjoint (a : base_assignment) :
  bf_disjoint (assigned_field a) base_selector
  ∧ 0 ≤ bf_off (assigned_field a) ∧ 0 ≤ bf_width (assigned_field a).
Proof. destruct a; unfold bf_disjoint; simpl; lia. Qed.

(** X2.  An assignment to the [use_template], the [language] or the
    [unknown_bound_p] bit-field of a [lang_decl] leaves the selector as it
    was, so each of the five LANG_DECL_*_CHECK accessors gives on every
    node the outcome it gave before, in both builds; and it leaves the
    other two bit-fields as they were, for every declaration, also one that
    shares the [lang_decl]. *)
Theorem base_assignment_frame (a : base_assignment) (s s' : store) (t : tree) :
  assign_base a s t = Ok s' →
  (∀ m b x, LANG_DECL_CHECK m b s' x = LANG_DECL_CHECK m b s x)
  ∧ (∀ x, assigned_field a ≠ base_use_template →
          DECL_USE_TEMPLATE s' x = DECL_USE_TEMPLATE s x)
  ∧ (∀ x, assigned_field a ≠ base_language →
          DECL_LANGUAGE s' x = DECL_LANGUAGE s x)
  ∧ (∀ b x, assigned_field a ≠ base_unknown_bound_p →
            VAR_HAD_UNKNOWN_BOUND b s' x = VAR_HAD_UNKNOWN_BOUND b s x).
Proof.
  intros Ha. destruct (assign_base_inv _ _ _ _ Ha) as (p & d & v & Hd & ->).
  destruct (base_fields_disjoint a) as (Hsel & Hoff & Hwidth).
  assert (Hother : ∀ g, g ∈ [base_use_template; base_language; base_unknown_bound_p] →
                        assigned_field a ≠ g →
                        bf_get g (bf_set (assigned_field a) v (base d)) = bf_get g (base d)).
  { intros g Hg Hne. apply bf_get_set_other; try done.
    - apply list_elem_of_In in Hg. simpl in Hg.
      destruct Hg as [<-|[<-|[<-|[]]]]; simpl; lia.
    - apply list_elem_of_In in Hg. simpl in Hg.
      destruct Hg as [<-|[<-|[<-|[]]]]; simpl; lia.
    - apply list_elem_of_In in Hg. simpl in Hg.
      destruct a; destruct Hg as [<-|[<-|[<-|[]]]]; unfold bf_disjoint; simpl;
        try lia; done. }
  split; [|split; [|split]].
  - intros m b x. apply LANG_DECL_CHECK_base_write; [done|].
    by apply bf_get_set_other.
  - intros x Hne. unfold DECL_USE_TEMPLATE.
    change (DECL_LANG_SPECIFIC (store_lang_decl ?s0 ?p0 ?d0) x)
      with (DECL_LANG_SPECIFIC s0 x).
    destruct (DECL_LANG_SPECIFIC s x) as [q| | |]; try reflexivity. simpl.
    apply (base_field_base_write base_use_template); [done|].
    apply Hother; [set_solver|done].
  - intros x Hne. unfold DECL_LANGUAGE.
    change (DECL_LANG_SPECIFIC (store_lang_decl ?s0 ?p0 ?d0) x)
      with (DECL_LANG_SPECIFIC s0 x).
    change (TREE_CODE (store_lang_decl ?s0 ?p0 ?d0) x) with (TREE_CODE s0 x).
    destruct (DECL_LANG_SPECIFIC s x) as [q| | |]; try reflexivity. simpl.
    case_decide; [|done].
    apply (base_field_base_write base_language); [done|].
    apply Hother; [set_solver|done].
  - intros b x Hne. unfold VAR_HAD_UNKNOWN_BOUND.
    change (VAR_DECL_CHECK b (store_lang_decl ?s0 ?p0 ?d0) x)
      with (VAR_DECL_CHECK b s0 x).
    destruct (VAR_DECL_CHECK b s x) as [x'| | |]; try reflexivity. simpl.
    change (DECL_LANG_SPECIFIC (store_lang_decl ?s0 ?p0 ?d0) ?y)
      with (DECL_LANG_SPECIFIC s0 y).
    destruct (DECL_LANG_SPECIFIC s x') as [q| | |]; try reflexivity. simpl.
    case_decide; [|done].
    destruct (DECL_LANG_SPECIFIC s x) as [q'| | |]; try reflexivity. simpl.
    pose proof (base_field_base_write base_unknown_bound_p s p q' d
                  (bf_set (assigned_field a) v (base d)) Hd
                  (Hother base_unknown_bound_p ltac:(set_solver) Hne)) as Hr.
    destruct (deref_lang_decl (store_lang_decl s p _) q') as [d1| | |],
      (deref_lang_decl s q') as [d2| | |]; simpl in *; try done;
      first [exact Hr | by injection Hr as ->].
Qed.

Lemma base_assignment_frame_witness :
  ∃ s', assign_base (to_language lang_c) template_store 1%N = Ok s'
        ∧ DECL_USE_TEMPLATE s' 1%N = DECL_USE_TEMPLATE template_store 1%N.
Proof.
  eexists. split; [reflexivity|].
  destruct (base_assignment_frame (to_language lang_c) template_store _ 1%N eq_refl)
    as (_ & Huse & _).
  by apply Huse.
Defined.

(** ** Thunks *)

Lemma c_true_low_bit (v : Z) : c_true (Z.land v (Z.ones 1)) = Z.odd v.
Proof.
  rewrite Z.land_ones by done. change (2 ^ 1) with 2. rewrite Zmod_odd.
  by destruct (Z.odd v).
Qed.

Lemma STRIP_TEMPLATE_other (b : build) (s : store) (t : tree) (n : tree_node) :
  deref s t = Ok n → code n ≠ TEMPLATE_DECL → STRIP_TEMPLATE b s t = Ok t.
Proof.
  intros Hn Hc. unfold STRIP_TEMPLATE, TREE_CODE. rewrite Hn. simpl.
  by rewrite bool_decide_false.
Qed.

Lemma LANG_DECL_FN_CHECK_function (b : build) (s : store) (t : tree) (n : tree_node)
    (d : lang_decl) :
  deref s t = Ok n →
  code n = FUNCTION_DECL →
  deref_lang_decl s (decl_lang_specific n) = Ok d →
  (b = checking → bf_get base_selector (base d) = selector_value lds_fn) →
  LANG_DECL_FN_CHECK b s t = Ok (decl_lang_specific n, member_fn).
Proof.
  intros Hn Hc Hd Hsel. unfold LANG_DECL_FN_CHECK.
  rewrite (STRIP_TEMPLATE_other b s t n Hn) by (by rewrite Hc).
  destruct b; simpl; rewrite (DECL_LANG_SPECIFIC_deref _ _ _ Hn); simpl; [|done].
  unfold DECL_DECLARES_FUNCTION_P, c_or, TREE_CODE. rewrite Hn. simpl.
  rewrite Hc. simpl. unfold selector_differs. rewrite Hd. simpl.
  rewrite Hsel by done. by rewrite bool_decide_false by (intros H; by apply H).
Qed.

Lemma lang_decl_fn_member_of_check (f : bitfield) (b : build) (s : store) (t : tree)
    (p : N) (d : lang_decl) (fn : lang_decl_fn) :
  LANG_DECL_FN_CHECK b s t = Ok (p, member_fn) →
  deref_lang_decl s p = Ok d →
  u d = u_fn fn →
  lang_decl_fn_member f b s t = Ok (bf_get f (fn_bits fn)).
Proof.
  intros Hc Hd Hu. unfold lang_decl_fn_member, as_fn. rewrite Hc. simpl.
  rewrite Hd. simpl. by rewrite Hu.
Qed.

Lemma assign_lang_decl_fn_member_of_check (f : bitfield) (v : Z) (b : build)
    (s : store) (t : tree) (p : N) (d : lang_decl) (fn : lang_decl_fn) :
  LANG_DECL_FN_CHECK b s t = Ok (p, member_fn) →
  deref_lang_decl s p = Ok d →
  u d = u_fn fn →
  assign_lang_decl_fn_member f v b s t
  = Ok (store_lang_decl s p
          (LangDecl (base d)
             (u_fn (LangDeclFn (fn_min fn) (bf_set f v (fn_bits fn))
                      (befriending_classes fn) (context fn) (u5 fn) (u3 fn))))).
Proof.
  intros Hc Hd Hu. unfold assign_lang_decl_fn_member, as_fn. rewrite Hc. simpl.
  rewrite Hd. simpl. by rewrite Hu.
Qed.

Lemma LANG_DECL_FN_CHECK_member (b : build) (s : store) (t : tree) (r : member_ref) :
  LANG_DECL_FN_CHECK b s t = Ok r → r.2 = member_fn.
Proof.
  unfold LANG_DECL_FN_CHECK.
  destruct b, (STRIP_TEMPLATE _ s t) as [sub| | |]; simpl; try done;
    destruct (DECL_LANG_SPECIFIC s sub) as [lt| | |]; simpl; try done.
  - destruct (c_or _ _) as [[]| | |]; simpl; try done. by intros [= <-].
  - by intros [= <-].
Qed.

Lemma DECL_THUNK_P_true_inv (b : build) (s : store) (t : tree) :
  DECL_THUNK_P b s t = Ok true →
  ∃ n d fn, deref s t = Ok n ∧ code n = FUNCTION_DECL
            ∧ deref_lang_decl s (decl_lang_specific n) = Ok d
            ∧ u d = u_fn fn
            ∧ c_true (bf_get fn_thunk_p (fn_bits fn)) = true
            ∧ LANG_DECL_FN_CHECK b s t = Ok (decl_lang_specific n, member_fn).
Proof.
  unfold DECL_THUNK_P, c_and, TREE_CODE, DECL_LANG_SPECIFIC.
  destruct (deref s t) as [n| | |] eqn:Hn; try done. simpl.
  case_bool_decide as Hc; [|done]. simpl.
  case_bool_decide as Hp; [|done]. simpl.
  unfold lang_decl_fn_member.
  destruct (LANG_DECL_FN_CHECK b s t) as [r| | |] eqn:Hr; try done. simpl.
  destruct (deref_lang_decl s r.1) as [d| | |] eqn:Hd; try done. simpl.
  unfold as_fn. destruct (u d) as [|fn| | |] eqn:Hu; try done. simpl.
  intros [= Hthunk].
  assert (r = (decl_lang_specific n, member_fn)) as ->.
  { pose proof (LANG_DECL_FN_CHECK_member _ _ _ _ Hr) as Hm.
    revert Hr. unfold LANG_DECL_FN_CHECK.
    rewrite (STRIP_TEMPLATE_other b s t n Hn) by (by rewrite Hc).
    destruct b; simpl; rewrite (DECL_LANG_SPECIFIC_deref _ _ _ Hn); simpl.
    - destruct (c_or _ _) as [[]| | |]; simpl; try done. by intros [= <-].
    - by intros [= <-]. }
  by exists n, d, fn.
Qed.

(** X3.  DECL_THUNK_P separates the thunks into this-adjusting and
    result-adjusting ones: wherever it evaluates, DECL_THIS_THUNK_P and
    DECL_RESULT_THUNK_P evaluate too; on a thunk exactly one of them is
    true, on anything else both are false.  A thunk passes
    THUNK_FUNCTION_CHECK, is no DECL_NON_THUNK_FUNCTION_P and no extern "C"
    function. *)
Theorem thunk_kinds_partition (b : build) (s : store) (t : tree) (v : bool) :
  DECL_THUNK_P b s t = Ok v →
  (∃ this, DECL_THIS_THUNK_P b s t = Ok (v && this)
           ∧ DECL_RESULT_THUNK_P b s t = Ok (v && negb this))
  ∧ (v = true →
     THUNK_FUNCTION_CHECK b s t = Ok t
     ∧ DECL_NON_THUNK_FUNCTION_P b s t = Ok false
     ∧ DECL_EXTERN_C_FUNCTION_P b s t = Ok false).
Proof.
  intros Hv. destruct v.
  - destruct (DECL_THUNK_P_true_inv _ _ _ Hv) as (n & d & fn & Hn & Hc & Hd & Hu & Ht & Hchk).
    pose proof (lang_decl_fn_member_of_check fn_this_thunk_p _ _ _ _ _ _ Hchk Hd Hu) as Hthis.
    assert (Hnon : DECL_NON_THUNK_FUNCTION_P b s t = Ok false).
    { unfold DECL_NON_THUNK_FUNCTION_P, c_and, TREE_CODE. rewrite Hn, Hv. simpl.
      by rewrite bool_decide_true. }
    split.
    + exists (c_true (bf_get fn_this_thunk_p (fn_bits fn))).
      unfold DECL_THIS_THUNK_P, DECL_RESULT_THUNK_P, c_and. rewrite Hv, Hthis. done.
    + intros _. split; [|split; [done|]].
      * apply (THUNK_FUNCTION_CHECK_thunk b s t n d fn); try done.
      * unfold DECL_EXTERN_C_FUNCTION_P, c_and. by rewrite Hnon.
  - split; [|done]. exists false.
    unfold DECL_THIS_THUNK_P, DECL_RESULT_THUNK_P, c_and. by rewrite Hv.
Qed.

Lemma thunk_kinds_partition_witness :
  DECL_THUNK_P checking thunk_store 1%N = Ok true
  ∧ THUNK_FUNCTION_CHECK checking thunk_store 1%N = Ok 1%N.
Proof.
  split; [reflexivity|].
  destruct (thunk_kinds_partition checking thunk_store 1%N true eq_refl) as [_ Hthunk].
  by destruct (Hthunk eq_refl) as (-> & _).
Defined.

(** X4.  DECL_THUNK_P can be asked of any node: on a node that is no
    FUNCTION_DECL, or that has no DECL_LANG_SPECIFIC, it is false in both
    builds, without reaching LANG_DECL_FN_CHECK, and so are
    DECL_THIS_THUNK_P and DECL_RESULT_THUNK_P; THUNK_FUNCTION_CHECK rejects
    the same node in a checking build. *)
Theorem decl_thunk_p_is_guarded (b : build) (s : store) (t : tree) (n : tree_node) :
  deref s t = Ok n →
  code n ≠ FUNCTION_DECL ∨ decl_lang_specific n = 0%N →
  DECL_THUNK_P b s t = Ok false
  ∧ DECL_THIS_THUNK_P b s t = Ok false
  ∧ DECL_RESULT_THUNK_P b s t = Ok false
  ∧ DECL_NON_THUNK_FUNCTION_P b s t = Ok (bool_decide (code n = FUNCTION_DECL))
  ∧ THUNK_FUNCTION_CHECK checking s t = ICE tree_check_failed.
Proof.
  intros Hn Hg. pose proof (DECL_THUNK_P_guard b s t n Hn Hg) as Hv.
  split; [done|].
  unfold DECL_THIS_THUNK_P, DECL_RESULT_THUNK_P, DECL_NON_THUNK_FUNCTION_P, c_and.
  rewrite Hv. cbn [mbind outcome_bind]. split; [done|]. split; [done|]. split.
  - unfold TREE_CODE. rewrite Hn. cbn [mbind outcome_bind negb]. by case_bool_decide.
  - unfold THUNK_FUNCTION_CHECK, c_or, TREE_CODE, DECL_LANG_SPECIFIC.
    rewrite Hn. cbn [mbind outcome_bind]. case_bool_decide as Hc; [done|].
    cbn [mbind outcome_bind].
    destruct Hg as [Hg|Hg]; [done|].
    rewrite Hg. by rewrite bool_decide_true.
Qed.

Lemma decl_thunk_p_is_guarded_witness :
  deref clone_store 1%N = Ok (decl_node FUNCTION_DECL 101%N 2%N 0%N)
  ∧ DECL_THUNK_P checking clone_store 1%N = Ok false.
Proof.
  split; [reflexivity|].
  by destruct (decl_thunk_p_is_guarded checking clone_store 1%N _ eq_refl
                 (or_intror eq_refl)) as (-> & _).
Defined.

(** X5.  SET_DECL_THUNK_P on a FUNCTION_DECL whose [lang_decl] holds the
    function variant makes it a thunk: DECL_THUNK_P is true afterwards and
    THUNK_FUNCTION_CHECK passes.  [this_thunk_p] is one bit: the thunk is
    this-adjusting when THIS_ADJUSTING is odd and result-adjusting when it
    is even. *)
Theorem set_decl_thunk_p_round_trip (v : Z) (b : build) (s : store) (t : tree)
    (n : tree_node) (d : lang_decl) (fn : lang_decl_fn) :
  deref s t = Ok n →
  code n = FUNCTION_DECL →
  deref_lang_decl s (decl_lang_specific n) = Ok d →
  bf_get base_selector (base d) = selector_value lds_fn →
  u d = u_fn fn →
  ∃ s', SET_DECL_THUNK_P v b s t = Ok s'
        ∧ DECL_THUNK_P b s' t = Ok true
        ∧ DECL_THIS_THUNK_P b s' t = Ok (Z.odd v)
        ∧ DECL_RESULT_THUNK_P b s' t = Ok (Z.even v)
        ∧ THUNK_FUNCTION_CHECK b s' t = Ok t.
Proof.
  intros Hn Hc Hd Hsel Hu.
  destruct (deref_lang_decl_nonnull _ _ _ Hd) as [Hnz _].
  set (p := decl_lang_specific n) in *.
  pose proof (LANG_DECL_FN_CHECK_function b s t n d Hn Hc Hd (λ _, Hsel)) as Hchk.
  unfold SET_DECL_THUNK_P.
  rewrite (assign_lang_decl_fn_member_of_check _ _ _ _ _ _ _ _ Hchk Hd Hu). simpl.
  set (fn1 := LangDeclFn (fn_min fn) (bf_set fn_thunk_p 1 (fn_bits fn))
                (befriending_classes fn) (context fn) (u5 fn) (u3 fn)).
  set (s1 := store_lang_decl s p (LangDecl (base d) (u_fn fn1))).
  assert (Hn1 : deref s1 t = Ok n) by exact Hn.
  assert (Hd1 : deref_lang_decl s1 p = Ok (LangDecl (base d) (u_fn fn1)))
    by (by apply deref_lang_decl_stored).
  pose proof (LANG_DECL_FN_CHECK_function b s1 t n _ Hn1 Hc Hd1 (λ _, Hsel)) as Hchk1.
  rewrite (assign_lang_decl_fn_member_of_check _ _ _ _ _ _ _ fn1 Hchk1 Hd1 eq_refl).
  set (fn2 := LangDeclFn (fn_min fn1) (bf_set fn_this_thunk_p v (fn_bits fn1))
                (befriending_classes fn1) (context fn1) (u5 fn1) (u3 fn1)).
  pose (s2 := store_lang_decl s1 p (LangDecl (base d) (u_fn fn2))).
  assert (Hn2 : deref s2 t = Ok n) by exact Hn.
  assert (Hd2 : deref_lang_decl s2 p = Ok (LangDecl (base d) (u_fn fn2)))
    by (by apply deref_lang_decl_stored).
  pose proof (LANG_DECL_FN_CHECK_function b s2 t n _ Hn2 Hc Hd2 (λ _, Hsel)) as Hchk2.
  assert (Hthunk : bf_get fn_thunk_p (fn_bits fn2) = 1).
  { simpl. rewrite bf_get_set_other; [by rewrite bf_get_set| | | | |]; try done.
    unfold bf_disjoint. simpl. lia. }
  assert (Hthis : c_true (bf_get fn_this_thunk_p (fn_bits fn2)) = Z.odd v).
  { simpl. rewrite bf_get_set by done. apply c_true_low_bit. }
  assert (Hp : DECL_THUNK_P b s2 t = Ok true).
  { unfold DECL_THUNK_P, c_and, TREE_CODE.
    rewrite (DECL_LANG_SPECIFIC_deref _ _ _ Hn2), Hn2. simpl.
    rewrite Hc. simpl. rewrite bool_decide_true by done. simpl.
    rewrite (lang_decl_fn_member_of_check _ _ _ _ _ _ fn2 Hchk2 Hd2 eq_refl).
    change (Ok (c_true (bf_get fn_thunk_p (fn_bits fn2))) = Ok true).
    by rewrite Hthunk. }
  exists s2. split; [reflexivity|]. split; [done|].
  unfold DECL_THIS_THUNK_P, DECL_RESULT_THUNK_P, c_and. rewrite Hp.
  rewrite (lang_decl_fn_member_of_check _ _ _ _ _ _ fn2 Hchk2 Hd2 eq_refl).
  change (Ok (c_true (bf_get fn_this_thunk_p (fn_bits fn2))) = Ok (Z.odd v)
          ∧ Ok (negb (c_true (bf_get fn_this_thunk_p (fn_bits fn2)))) = Ok (Z.even v)
          ∧ THUNK_FUNCTION_CHECK b s2 t = Ok t).
  rewrite Hthis. split; [done|]. split.
  - by rewrite <- Z.negb_odd.
  - apply (THUNK_FUNCTION_CHECK_thunk b s2 t n (LangDecl (base d) (u_fn fn2)) fn2);
      try done.
    by rewrite Hthunk.
Qed.

Lemma set_decl_thunk_p_round_trip_witness :
  ∃ s', SET_DECL_THUNK_P 1 checking accessor_store 4%N = Ok s'
        ∧ DECL_THIS_THUNK_P checking s' 4%N = Ok true.
Proof.
  destruct (set_decl_thunk_p_round_trip 1 checking accessor_store 4%N _ fn_lang_decl _
              eq_refl eq_refl eq_refl eq_refl eq_refl)
    as (s' & Hs & _ & Hthis & _).
  by exists s'.
Defined.

(** ** Function templates *)

Lemma STRIP_TEMPLATE_template (b : build) (s : store) (t : tree) (n : tree_node) :
  deref s t = Ok n → code n = TEMPLATE_DECL → STRIP_TEMPLATE b s t = Ok (result n).
Proof.
  intros Hn Hc.
  unfold STRIP_TEMPLATE, DECL_TEMPLATE_RESULT, TEMPLATE_DECL_CHECK, TREE_CHECK, TREE_CODE.
  rewrite Hn. simpl. rewrite bool_decide_true by done.
  destruct b; simpl; rewrite ?Hn; simpl; [|done].
  rewrite bool_decide_true by (rewrite Hc; apply list_elem_of_here).
  simpl. by rewrite Hn.
Qed.

Lemma LANG_DECL_FN_CHECK_look_through (b : build) (s : store) (t : tree)
    (n r : tree_node) :
  deref s t = Ok n →
  code n = TEMPLATE_DECL →
  deref s (result n) = Ok r →
  code r = FUNCTION_DECL →
  LANG_DECL_FN_CHECK b s t = LANG_DECL_FN_CHECK b s (result n).
Proof.
  intros Hn Hc Hr Hcr. unfold LANG_DECL_FN_CHECK.
  rewrite (STRIP_TEMPLATE_template b s t n Hn Hc).
  rewrite (STRIP_TEMPLATE_other b s (result n) r Hr) by (by rewrite Hcr).
  destruct b; [|done]. simpl.
  rewrite (DECL_DECLARES_FUNCTION_P_value checking s t (result n) n r Hn
             (STRIP_TEMPLATE_template _ _ _ _ Hn Hc) Hr).
  rewrite (DECL_DECLARES_FUNCTION_P_value checking s (result n) (result n) r r Hr
             (STRIP_TEMPLATE_other _ _ _ _ Hr ltac:(by rewrite Hcr)) Hr).
  simpl. rewrite Hc, Hcr. done.
Qed.

(** X6.  The accessors of [struct lang_decl_fn] look through a function
    template: on a TEMPLATE_DECL whose DECL_TEMPLATE_RESULT is a
    FUNCTION_DECL, LANG_DECL_FN_CHECK, a read and a write of a member, and
    SET_DECL_THUNK_P behave as on that FUNCTION_DECL, in both builds.
    DECL_THUNK_P does not: it tests the tree code first and is false on the
    template. *)
Theorem fn_accessors_look_through_templates (f : bitfield) (b : build) (s : store)
    (t : tree) (n r : tree_node) :
  deref s t = Ok n →
  code n = TEMPLATE_DECL →
  deref s (result n) = Ok r →
  code r = FUNCTION_DECL →
  LANG_DECL_FN_CHECK b s t = LANG_DECL_FN_CHECK b s (result n)
  ∧ lang_decl_fn_member f b s t = lang_decl_fn_member f b s (result n)
  ∧ (∀ v, assign_lang_decl_fn_member f v b s t
          = assign_lang_decl_fn_member f v b s (result n))
  ∧ (∀ v, SET_DECL_THUNK_P v b s t = SET_DECL_THUNK_P v b s (result n))
  ∧ DECL_THUNK_P b s t = Ok false.
Proof.
  intros Hn Hc Hr Hcr.
  pose proof (LANG_DECL_FN_CHECK_look_through b s t n r Hn Hc Hr Hcr) as Hchk.
  assert (Hassign : ∀ g v, assign_lang_decl_fn_member g v b s t
                           = assign_lang_decl_fn_member g v b s (result n)).
  { intros g v. unfold assign_lang_decl_fn_member. by rewrite Hchk. }
  split; [done|]. split; [|split; [|split]].
  - unfold lang_decl_fn_member. by rewrite Hchk.
  - apply Hassign.
  - intros v. unfold SET_DECL_THUNK_P. rewrite Hassign.
    destruct (assign_lang_decl_fn_member fn_thunk_p 1 b s (result n))
      as [s1| | |] eqn:Hs1; try reflexivity. simpl.
    assert (Htrees : trees s1 = trees s).
    { revert Hs1. unfold assign_lang_decl_fn_member.
      destruct (LANG_DECL_FN_CHECK b s (result n)) as [x| | |]; try done. simpl.
      destruct (deref_lang_decl s x.1) as [d| | |]; try done. simpl.
      destruct (as_fn d) as [fn| | |]; try done. simpl. by intros [= <-]. }
    assert (Hderef : ∀ x, deref s1 x = deref s x).
    { intros x. unfold deref. by rewrite Htrees. }
    unfold assign_lang_decl_fn_member.
    rewrite (LANG_DECL_FN_CHECK_look_through b s1 t n r); try done;
      by rewrite Hderef.
  - apply (DECL_THUNK_P_guard b s t n Hn). left. by rewrite Hc.
Qed.

Lemma fn_accessors_look_through_templates_witness :
  deref accessor_store 3%N = Ok (TEMPLATE_DECL_node 4%N)
  ∧ DECL_HAS_VTT_PARM_P checking accessor_store 3%N
    = DECL_HAS_VTT_PARM_P checking accessor_store 4%N.
Proof.
  split; [reflexivity|].
  destruct (fn_accessors_look_through_templates fn_has_vtt_parm_p checking
              accessor_store 3%N _ _ eq_refl eq_refl eq_refl eq_refl)
    as (_ & Hread & _).
  exact Hread.
Defined.

(** ** Template information and access *)

Lemma LANG_DECL_HAS_MIN_value (s : store) (t : tree) (n : tree_node) :
  deref s t = Ok n →
  LANG_DECL_HAS_MIN s t
  = Ok (bool_decide (code n ∈ [VAR_DECL; FUNCTION_DECL; FIELD_DECL; CONST_DECL;
                               TYPE_DECL; TEMPLATE_DECL; USING_DECL; CONCEPT_DECL])).
Proof.
  intros Hn. unfold LANG_DECL_HAS_MIN, VAR_OR_FUNCTION_DECL_P, c_or, TREE_CODE.
  rewrite Hn. simpl.
  destruct (code n); try reflexivity.
Qed.

(** X7.  TEMPLATE_INFO_DECL_CHECK is stricter than LANG_DECL_MIN_CHECK,
    though both guard members of the same [u.min]: a checking build lets
    DECL_TEMPLATE_INFO through on VAR_DECL, FUNCTION_DECL, FIELD_DECL,
    TYPE_DECL, CONCEPT_DECL and TEMPLATE_DECL, and DECL_ACCESS on these and
    on CONST_DECL and USING_DECL.  On a CONST_DECL or USING_DECL
    DECL_TEMPLATE_INFO fails with tree_check_failed where DECL_ACCESS
    succeeds; on every other code DECL_TEMPLATE_INFO fails with
    tree_check_failed, and on every other code of a declaration (a
    PARM_DECL, a NAMESPACE_DECL, a LABEL_DECL, ...) DECL_ACCESS fails with
    lang_check_failed.  A release build reads both members on any code. *)
Theorem template_info_check_is_stricter (s : store) (t : tree) (n : tree_node)
    (d : lang_decl) (m : lang_decl_min) :
  deref s t = Ok n →
  deref_lang_decl s (decl_lang_specific n) = Ok d →
  as_min d = Ok m →
  DECL_TEMPLATE_INFO release s t = Ok (template_info m)
  ∧ DECL_ACCESS release s t = Ok (access m)
  ∧ (code n ∈ [VAR_DECL; FUNCTION_DECL; FIELD_DECL; TYPE_DECL; CONCEPT_DECL;
               TEMPLATE_DECL] →
     DECL_TEMPLATE_INFO checking s t = Ok (template_info m)
     ∧ DECL_ACCESS checking s t = Ok (access m))
  ∧ (code n ∈ [CONST_DECL; USING_DECL] →
     DECL_TEMPLATE_INFO checking s t = ICE tree_check_failed
     ∧ DECL_ACCESS checking s t = Ok (access m))
  ∧ (code n ∉ [VAR_DECL; FUNCTION_DECL; FIELD_DECL; CONST_DECL; TYPE_DECL;
               TEMPLATE_DECL; USING_DECL; CONCEPT_DECL] →
     DECL_TEMPLATE_INFO checking s t = ICE tree_check_failed
     ∧ (TREE_CODE_CLASS (code n) = tcc_declaration →
        DECL_ACCESS checking s t = ICE lang_check_failed)).
Proof.
  intros Hn Hd Hm.
  pose proof (DECL_LANG_SPECIFIC_deref _ _ _ Hn) as Hp.
  pose proof (LANG_DECL_HAS_MIN_value _ _ _ Hn) as Hmin.
  assert (Hinfo : ∀ b, TEMPLATE_INFO_DECL_CHECK b s t = Ok t →
                       DECL_TEMPLATE_INFO b s t = Ok (template_info m)).
  { intros b Hb. unfold DECL_TEMPLATE_INFO. rewrite Hb. simpl. rewrite Hp. simpl.
    rewrite Hd. simpl. by rewrite Hm. }
  assert (Hacc : ∀ b, LANG_DECL_MIN_CHECK b s t = Ok (decl_lang_specific n, member_min) →
                      DECL_ACCESS b s t = Ok (access m)).
  { intros b Hb. unfold DECL_ACCESS. rewrite Hb. simpl. rewrite Hd. simpl.
    by rewrite Hm. }
  assert (Hchk : TEMPLATE_INFO_DECL_CHECK checking s t
                 = if bool_decide (code n ∈ [VAR_DECL; FUNCTION_DECL; FIELD_DECL;
                                             TYPE_DECL; CONCEPT_DECL; TEMPLATE_DECL])
                   then Ok t else ICE tree_check_failed).
  { simpl. unfold template_info_decl_check, TREE_CODE. rewrite Hn. simpl.
    destruct (code n); try reflexivity. }
  assert (Hmc : LANG_DECL_MIN_CHECK checking s t
                = if bool_decide (code n ∈ [VAR_DECL; FUNCTION_DECL; FIELD_DECL;
                                            CONST_DECL; TYPE_DECL; TEMPLATE_DECL;
                                            USING_DECL; CONCEPT_DECL])
                  then Ok (decl_lang_specific n, member_min) else ICE lang_check_failed).
  { unfold LANG_DECL_MIN_CHECK. rewrite Hp. simpl. rewrite Hmin. simpl.
    by destruct (bool_decide _). }
  split; [by apply Hinfo|]. split.
  { apply Hacc. unfold LANG_DECL_MIN_CHECK. by rewrite Hp. }
  split; [|split].
  - intros Hc. split.
    + apply Hinfo. rewrite Hchk. by rewrite bool_decide_true.
    + apply Hacc. rewrite Hmc. rewrite bool_decide_true; [done|]. set_solver.
  - intros Hc. split.
    + unfold DECL_TEMPLATE_INFO. rewrite Hchk.
      rewrite bool_decide_false; [done|].
      intros Hin. apply list_elem_of_In in Hc, Hin. simpl in Hc, Hin.
      destruct Hc as [Hc|[Hc|[]]]; rewrite <- Hc in Hin; naive_solver.
    + apply Hacc. rewrite Hmc. rewrite bool_decide_true; [done|]. set_solver.
  - intros Hc. split.
    + unfold DECL_TEMPLATE_INFO. rewrite Hchk.
      rewrite bool_decide_false; [done|]. set_solver.
    + intros _. unfold DECL_ACCESS. rewrite Hmc. by rewrite bool_decide_false.
Qed.

Lemma template_info_check_is_stricter_witness :
  deref min_store 1%N = Ok (decl_node CONST_DECL 0%N 0%N 1%N)
  ∧ DECL_TEMPLATE_INFO checking min_store 1%N = ICE tree_check_failed
  ∧ DECL_ACCESS checking min_store 1%N = Ok 8%N.
Proof.
  split; [reflexivity|].
  destruct (template_info_check_is_stricter min_store 1%N _ _ _ eq_refl eq_refl eq_refl)
    as (_ & _ & _ & Hconst & _).
  apply Hconst. simpl. set_solver.
Defined.

Lemma with_min_as_min (m m' : lang_decl_min) (d : lang_decl) :
  as_min d = Ok m →
  ∃ d', with_min m' d = Ok d' ∧ as_min d' = Ok m' ∧ base d' = base d.
Proof.
  unfold as_min, with_min. destruct (u d); try done; intros _; by eexists.
Qed.

Lemma FUNCTION_DECL_CHECK_function (b : build) (s : store) (t : tree) (n : tree_node) :
  deref s t = Ok n → code n = FUNCTION_DECL → FUNCTION_DECL_CHECK b s t = Ok t.
Proof.
  intros Hn Hc. destruct b; [|done].
  unfold FUNCTION_DECL_CHECK, TREE_CHECK, TREE_CODE. rewrite Hn. simpl.
  by rewrite bool_decide_true by (rewrite Hc; apply list_elem_of_here).
Qed.

Lemma min_accessors_function (b : build) (s : store) (t : tree) (n : tree_node)
    (d : lang_decl) (m : lang_decl_min) :
  deref s t = Ok n →
  code n = FUNCTION_DECL →
  deref_lang_decl s (decl_lang_specific n) = Ok d →
  as_min d = Ok m →
  THUNK_ALIAS b s t = Ok (template_info m)
  ∧ DECL_TEMPLATE_INFO b s t = Ok (template_info m)
  ∧ THUNK_VIRTUAL_OFFSET b s t = Ok (access m)
  ∧ DECL_ACCESS b s t = Ok (access m).
Proof.
  intros Hn Hc Hd Hm.
  pose proof (DECL_LANG_SPECIFIC_deref _ _ _ Hn) as Hp.
  pose proof (FUNCTION_DECL_CHECK_function b s t n Hn Hc) as Hf.
  assert (Hacc : DECL_ACCESS b s t = Ok (access m)).
  { unfold DECL_ACCESS, LANG_DECL_MIN_CHECK.
    destruct b; rewrite Hp; simpl.
    - rewrite (LANG_DECL_HAS_MIN_value _ _ _ Hn), Hc. simpl.
      rewrite Hd. simpl. by rewrite Hm.
    - rewrite Hd. simpl. by rewrite Hm. }
  split; [|split; [|split]].
  - unfold THUNK_ALIAS. rewrite Hf. simpl. rewrite Hp. simpl. rewrite Hd. simpl.
    by rewrite Hm.
  - unfold DECL_TEMPLATE_INFO.
    assert (TEMPLATE_INFO_DECL_CHECK b s t = Ok t) as ->.
    { destruct b; [|done]. simpl. unfold template_info_decl_check, TREE_CODE.
      rewrite Hn. simpl. by rewrite Hc. }
    simpl. rewrite Hp. simpl. rewrite Hd. simpl. by rewrite Hm.
  - unfold THUNK_VIRTUAL_OFFSET. rewrite Hf. done.
  - done.
Qed.

(** X8.  The thunk accessors share storage with the accessors of
    [lang_decl_min]: on a FUNCTION_DECL, THUNK_ALIAS is the [template_info]
    that DECL_TEMPLATE_INFO reads and THUNK_VIRTUAL_OFFSET is the [access]
    that DECL_ACCESS, DECL_DISCRIMINATOR and DECL_CAPTURED_VARIABLE read.
    A value assigned through one name is read back through the other, and
    the other member of [u.min] keeps its value; neither thunk accessor
    asks whether the function is a thunk. *)
Theorem thunk_accessors_share_min (v : tree) (b : build) (s : store) (t : tree)
    (n : tree_node) (d : lang_decl) (m : lang_decl_min) :
  deref s t = Ok n →
  code n = FUNCTION_DECL →
  deref_lang_decl s (decl_lang_specific n) = Ok d →
  as_min d = Ok m →
  (∃ s', assign_THUNK_ALIAS v b s t = Ok s'
         ∧ THUNK_ALIAS b s' t = Ok v
         ∧ DECL_TEMPLATE_INFO b s' t = Ok v
         ∧ DECL_ACCESS b s' t = Ok (access m))
  ∧ (∃ s', assign_THUNK_VIRTUAL_OFFSET v b s t = Ok s'
           ∧ THUNK_VIRTUAL_OFFSET b s' t = Ok v
           ∧ DECL_ACCESS b s' t = Ok v
           ∧ DECL_DISCRIMINATOR b s' t = Ok v
           ∧ DECL_CAPTURED_VARIABLE b s' t = Ok v
           ∧ DECL_TEMPLATE_INFO b s' t = Ok (template_info m)).
Proof.
  intros Hn Hc Hd Hm.
  destruct (deref_lang_decl_nonnull _ _ _ Hd) as [Hnz _].
  pose proof (DECL_LANG_SPECIFIC_deref _ _ _ Hn) as Hp.
  pose proof (FUNCTION_DECL_CHECK_function b s t n Hn Hc) as Hf.
  split.
  - destruct (with_min_as_min m (LangDeclMin v (access m)) d Hm) as (d' & Hw & Hm' & _).
    exists (store_lang_decl s (decl_lang_specific n) d'). split.
    { unfold assign_THUNK_ALIAS. rewrite Hf. simpl. rewrite Hp. simpl.
      rewrite Hd. simpl. rewrite Hm. simpl. by rewrite Hw. }
    destruct (min_accessors_function b (store_lang_decl s (decl_lang_specific n) d')
                t n d' _ Hn Hc (deref_lang_decl_stored _ _ _ Hnz) Hm')
      as (Ha & Hi & _ & Hacc).
    done.
  - destruct (with_min_as_min m (LangDeclMin (template_info m) v) d Hm)
      as (d' & Hw & Hm' & _).
    exists (store_lang_decl s (decl_lang_specific n) d'). split.
    { unfold assign_THUNK_VIRTUAL_OFFSET, LANG_DECL_MIN_CHECK. rewrite Hf. simpl.
      destruct b; rewrite Hp; simpl.
      - rewrite (LANG_DECL_HAS_MIN_value _ _ _ Hn), Hc. simpl.
        rewrite Hd. simpl. rewrite Hm. simpl. by rewrite Hw.
      - rewrite Hd. simpl. rewrite Hm. simpl. by rewrite Hw. }
    destruct (min_accessors_function b (store_lang_decl s (decl_lang_specific n) d')
                t n d' _ Hn Hc (deref_lang_decl_stored _ _ _ Hnz) Hm')
      as (Ha & Hi & Hvo & Hacc).
    done.
Qed.

Lemma thunk_accessors_share_min_witness :
  ∃ s', assign_THUNK_ALIAS 9%N checking thunk_store 1%N = Ok s'
        ∧ DECL_TEMPLATE_INFO checking s' 1%N = Ok 9%N.
Proof.
  destruct (thunk_accessors_share_min 9%N checking thunk_store 1%N _ thunk_lang_decl _
              eq_refl eq_refl eq_refl eq_refl)
    as [(s' & Hs & _ & Hinfo & _) _].
  by exists s'.
Defined.

(** ** Setting one flag *)

Lemma TREE_CODE_after_SET_LANG_FLAG (k : flag_bank) (i v : Z) (b : build)
    (s s' : store) (t x : tree) :
  SET_LANG_FLAG k i v b s t = Ok s' → TREE_CODE s' x = TREE_CODE s x.
Proof.
  intros Hset. destruct (SET_LANG_FLAG_inv _ _ _ _ _ _ _ Hset) as (n & Hn & _ & ->).
  destruct (deref_nonnull _ _ _ Hn) as [Hnz _].
  unfold TREE_CODE. rewrite deref_store_node by done.
  destruct (decide (t = x)) as [<-|Hne]; [|done].
  rewrite Hn. simpl. by rewrite code_with_bank_word.
Qed.

Lemma LANG_FLAG_after_SET_LANG_FLAG (k : flag_bank) (i v : Z) (b : build)
    (s s' : store) (t : tree) :
  0 ≤ i →
  SET_LANG_FLAG k i v b s t = Ok s' →
  LANG_FLAG k i b s' t = Ok (Z.land v 1)
  ∧ ∀ (k' : flag_bank) (i' : Z) (x : tree),
      0 ≤ i' → (k, i, t) ≠ (k', i', x) →
      LANG_FLAG k' i' b s' x = LANG_FLAG k' i' b s x.
Proof.
  intros Hi Hset.
  destruct (SET_LANG_FLAG_inv _ _ _ _ _ _ _ Hset) as (n & Hn & Hck & ->).
  destruct (deref_nonnull _ _ _ Hn) as [Hnz _].
  split.
  - unfold LANG_FLAG. rewrite deref_store_node, decide_True by done. simpl.
    assert (bank_check b k (with_bank_word k (bf_set (BitField i 1) v (bank_word k n)) n)
            = Ok ()) as ->.
    { unfold bank_check in *. by rewrite code_with_bank_word. }
    simpl. rewrite bank_word_with_bank_word, decide_True by done.
    by rewrite bf_get_set.
  - intros k' i' x Hi' Hne. unfold LANG_FLAG. rewrite deref_store_node by done.
    destruct (decide (t = x)) as [<-|Hnet]; [|done].
    rewrite Hn. simpl.
    assert (bank_check b k' (with_bank_word k (bf_set (BitField i 1) v (bank_word k n)) n)
            = bank_check b k' n) as ->.
    { unfold bank_check. by rewrite code_with_bank_word. }
    destruct (bank_check b k' n) as [[]| | |]; simpl; try done.
    rewrite bank_word_with_bank_word.
    destruct (decide (k = k')) as [<-|Hnek]; [|done].
    rewrite bf_get_set_other; [done|done|done|done|done|].
    unfold bf_disjoint. simpl.
    assert (i ≠ i') by congruence. lia.
Qed.

Lemma TREE_CHECK_inv (b : build) (s : store) (t t' : tree) (codes : list tree_code) :
  TREE_CHECK b s t codes = Ok t' → t' = t.
Proof.
  unfold TREE_CHECK. destruct b; [|by intros [= <-]].
  destruct (TREE_CODE s t) as [c| | |]; simpl; try done.
  case_bool_decide; [by intros [= <-]|done].
Qed.

Lemma TREE_CHECK_codes (b : build) (s s' : store) (t : tree) (codes : list tree_code) :
  TREE_CODE s' t = TREE_CODE s t → TREE_CHECK b s' t codes = TREE_CHECK b s t codes.
Proof. intros H. unfold TREE_CHECK. by rewrite H. Qed.

(** ** Class types *)

(** X9.  SET_CLASS_TYPE_P and CLASS_TYPE_P round-trip on RECORD_TYPE and
    UNION_TYPE nodes: afterwards CLASS_TYPE_P and OVERLOAD_TYPE_P are the
    low bit of VAL, and NON_UNION_CLASS_TYPE_P is that bit on a RECORD_TYPE
    and false on a UNION_TYPE.  On any other type a release build sets the
    flag, and CLASS_TYPE_P and NON_UNION_CLASS_TYPE_P stay false all the
    same.  A checking build does the same on a QUAL_UNION_TYPE, which
    RECORD_OR_UNION_CHECK lets through and RECORD_OR_UNION_CODE_P does not
    list, and rejects SET_CLASS_TYPE_P on every further type. *)
Theorem set_class_type_p_round_trip (val : Z) (b : build) (s : store) (t : tree)
    (n : tree_node) :
  deref s t = Ok n →
  TREE_CODE_CLASS (code n) = tcc_type →
  (code n ∈ [RECORD_TYPE; UNION_TYPE] →
     ∃ s', SET_CLASS_TYPE_P val b s t = Ok s'
           ∧ CLASS_TYPE_P b s' t = Ok (Z.odd val)
           ∧ NON_UNION_CLASS_TYPE_P b s' t
             = Ok (bool_decide (code n = RECORD_TYPE) && Z.odd val)
           ∧ OVERLOAD_TYPE_P b s' t = Ok (Z.odd val))
  ∧ (code n ∉ [RECORD_TYPE; UNION_TYPE] →
     ∃ s', SET_CLASS_TYPE_P val release s t = Ok s'
           ∧ SET_CLASS_TYPE_P val checking s t
             = (if bool_decide (code n = QUAL_UNION_TYPE) then Ok s'
                else ICE tree_check_failed)
           ∧ TYPE_LANG_FLAG 5 b s' t = Ok (Z.land val 1)
           ∧ CLASS_TYPE_P b s' t = Ok false
           ∧ NON_UNION_CLASS_TYPE_P b s' t = Ok false).
Proof.
  intros Hn Hty.
  assert (Hset : ∀ b', SET_LANG_FLAG type_bank 5 val b' s t
                       = Ok (store_node s t
                               (with_bank_word type_bank
                                  (bf_set (BitField 5 1) val (bank_word type_bank n)) n))).
  { intros b'. unfold SET_LANG_FLAG, bank_check. rewrite Hn. simpl.
    rewrite Hty. by rewrite bool_decide_true. }
  assert (Hafter : ∀ b' s', SET_LANG_FLAG type_bank 5 val b' s t = Ok s' →
            TYPE_LANG_FLAG 5 b s' t = Ok (Z.land val 1)
            ∧ TREE_CODE s' t = Ok (code n)).
  { intros b' s' Hs'. split.
    - rewrite Hset in Hs'. rewrite <- (Hset b) in Hs'. unfold TYPE_LANG_FLAG.
      by destruct (LANG_FLAG_after_SET_LANG_FLAG type_bank 5 val b s s' t
                     ltac:(done) Hs') as [-> _].
    - rewrite (TREE_CODE_after_SET_LANG_FLAG _ _ _ _ _ _ _ _ Hs').
      by apply TREE_CODE_deref. }
  split.
  - intros Hc.
    assert (Hck : RECORD_OR_UNION_CHECK b s t = Ok t).
    { destruct b; [|done]. unfold RECORD_OR_UNION_CHECK, TREE_CHECK, TREE_CODE.
      rewrite Hn. simpl. rewrite bool_decide_true; [done|].
      apply list_elem_of_In in Hc. apply list_elem_of_In. simpl in *. tauto. }
    eexists. split.
    { unfold SET_CLASS_TYPE_P. rewrite Hck. simpl. apply Hset. }
    destruct (Hafter b _ (Hset b)) as [Hflag Hcode].
    assert (Hru : RECORD_OR_UNION_CODE_P (code n) = true).
    { unfold RECORD_OR_UNION_CODE_P. apply list_elem_of_In in Hc. simpl in Hc.
      destruct Hc as [<-|[<-|[]]]; done. }
    assert (Hcls : CLASS_TYPE_P b
                     (store_node s t
                        (with_bank_word type_bank
                           (bf_set (BitField 5 1) val (bank_word type_bank n)) n)) t
                   = Ok (Z.odd val)).
    { unfold CLASS_TYPE_P, c_and. rewrite Hcode, Hflag. simpl. rewrite Hru.
      f_equal. apply c_true_low_bit. }
    split; [done|]. split.
    + unfold NON_UNION_CLASS_TYPE_P, c_and. rewrite Hcode, Hflag. simpl.
      case_bool_decide; [|done]. simpl. f_equal. apply c_true_low_bit.
    + unfold OVERLOAD_TYPE_P, c_or. rewrite Hcls, Hcode. simpl.
      destruct (Z.odd val); [done|]. simpl. f_equal.
      apply bool_decide_false. intros He. rewrite He in Hru. done.
  - intros Hc. eexists. split.
    { unfold SET_CLASS_TYPE_P, RECORD_OR_UNION_CHECK. simpl. apply Hset. }
    split.
    { unfold SET_CLASS_TYPE_P, RECORD_OR_UNION_CHECK, TREE_CHECK, TREE_CODE.
      rewrite Hn. cbn [mbind outcome_bind].
      destruct (bool_decide (code n = QUAL_UNION_TYPE)) eqn:Hq.
      - apply bool_decide_eq_true in Hq.
        rewrite bool_decide_true by (rewrite Hq; set_solver).
        cbn [mbind outcome_bind]. apply Hset.
      - apply bool_decide_eq_false in Hq.
        rewrite bool_decide_false; [done|].
        intros Hin. apply list_elem_of_In in Hin. simpl in Hin.
        destruct Hin as [He|[He|[He|[]]]]; [| |by apply Hq];
          apply Hc; rewrite <- He; set_solver. }
    + destruct (Hafter release _ (Hset release)) as [Hflag Hcode].
      split; [done|].
      assert (Hru : RECORD_OR_UNION_CODE_P (code n) = false).
      { unfold RECORD_OR_UNION_CODE_P.
        rewrite !bool_decide_false; [done| |]; intros He; apply Hc; rewrite He;
          set_solver. }
      split.
      * unfold CLASS_TYPE_P, c_and. rewrite Hcode. simpl. by rewrite Hru.
      * unfold NON_UNION_CLASS_TYPE_P, c_and. rewrite Hcode. simpl.
        rewrite bool_decide_false; [done|]. intros He. apply Hc. rewrite He.
        set_solver.
Qed.

Lemma set_class_type_p_round_trip_witness :
  ∃ s', SET_CLASS_TYPE_P 1 checking qual_union_store 1%N = Ok s'
        ∧ TYPE_LANG_FLAG 5 checking s' 1%N = Ok 1
        ∧ CLASS_TYPE_P checking s' 1%N = Ok false.
Proof.
  destruct (set_class_type_p_round_trip 1 checking qual_union_store 1%N _
              eq_refl eq_refl) as [_ Hother].
  destruct Hother as (s' & _ & Hs & Hflag & Hc & _).
  { intros Hin. apply list_elem_of_In in Hin. simpl in Hin.
    by destruct Hin as [?|[?|[]]]. }
  by exists s'.
Defined.

(** ** Identifiers *)

Lemma identifier_flag_after_set (i j v : Z) (b : build) (s s' : store) (t x : tree) :
  0 ≤ i → 0 ≤ j → i ≠ j →
  (t' ← IDENTIFIER_NODE_CHECK b s t; SET_LANG_FLAG tree_bank i v b s t') = Ok s' →
  (x' ← IDENTIFIER_NODE_CHECK b s' x; TREE_LANG_FLAG j b s' x')
  = (x' ← IDENTIFIER_NODE_CHECK b s x; TREE_LANG_FLAG j b s x').
Proof.
  intros Hi Hj Hne Hset.
  destruct (IDENTIFIER_NODE_CHECK b s t) as [t'| | |] eqn:Ht; try done.
  simpl in Hset.
  unfold IDENTIFIER_NODE_CHECK in *.
  rewrite (TREE_CHECK_codes b s s' x)
    by (by apply (TREE_CODE_after_SET_LANG_FLAG _ _ _ _ _ _ _ _ Hset)).
  destruct (TREE_CHECK b s x [IDENTIFIER_NODE]) as [x'| | |]; try reflexivity.
  simpl. unfold TREE_LANG_FLAG.
  destruct (LANG_FLAG_after_SET_LANG_FLAG _ _ _ _ _ _ _ Hi Hset) as [_ Hframe].
  apply Hframe; [done|]. congruence.
Qed.

(** X10.  Marking an identifier changes no category: after an assignment
    to IDENTIFIER_MARKED or to IDENTIFIER_VIRTUAL_P, the six category
    predicates, IDENTIFIER_CDTOR_P and IDENTIFIER_ANY_OP_P give on every
    identifier what they gave before, and the other of the two marks is
    unchanged; the mark assigned reads back as the low bit of the value. *)
Theorem identifier_marks_keep_category (virt : bool) (v : Z) (b : build)
    (s s' : store) (t : tree) :
  (if virt then assign_IDENTIFIER_VIRTUAL_P else assign_IDENTIFIER_MARKED) v b s t
  = Ok s' →
  (if virt then IDENTIFIER_VIRTUAL_P else IDENTIFIER_MARKED) b s' t = Ok (Z.land v 1)
  ∧ ∀ x,
      (∀ c, category_predicate c b s' x = category_predicate c b s x)
      ∧ IDENTIFIER_CDTOR_P b s' x = IDENTIFIER_CDTOR_P b s x
      ∧ IDENTIFIER_ANY_OP_P b s' x = IDENTIFIER_ANY_OP_P b s x
      ∧ (if virt then IDENTIFIER_MARKED else IDENTIFIER_VIRTUAL_P) b s' x
        = (if virt then IDENTIFIER_MARKED else IDENTIFIER_VIRTUAL_P) b s x.
Proof.
  intros Hset.
  set (i := if virt then 5 else 4).
  set (j := if virt then 4 else 5).
  assert (Hi : 0 ≤ i) by (by destruct virt).
  assert (Hset' : (t' ← IDENTIFIER_NODE_CHECK b s t; SET_LANG_FLAG tree_bank i v b s t')
                  = Ok s') by (by destruct virt).
  assert (Hbits : ∀ k x, 0 ≤ k → i ≠ k →
            (x' ← IDENTIFIER_NODE_CHECK b s' x; TREE_LANG_FLAG k b s' x')
            = (x' ← IDENTIFIER_NODE_CHECK b s x; TREE_LANG_FLAG k b s x')).
  { intros k x Hk Hne. by apply (identifier_flag_after_set i k v b s s' t x). }
  split.
  - assert ((x' ← IDENTIFIER_NODE_CHECK b s' t; TREE_LANG_FLAG i b s' x')
            = Ok (Z.land v 1)) as Hread; [|by destruct virt].
    destruct (IDENTIFIER_NODE_CHECK b s t) as [t'| | |] eqn:Ht; try done.
    simpl in Hset'. unfold IDENTIFIER_NODE_CHECK in *.
    pose proof (TREE_CHECK_inv _ _ _ _ _ Ht) as ->.
    rewrite (TREE_CHECK_codes b s s' t)
      by (by apply (TREE_CODE_after_SET_LANG_FLAG _ _ _ _ _ _ _ _ Hset')).
    rewrite Ht. simpl. unfold TREE_LANG_FLAG.
    by destruct (LANG_FLAG_after_SET_LANG_FLAG _ _ _ _ _ _ _ Hi Hset') as [-> _].
  - intros x.
    assert (H0 : IDENTIFIER_KIND_BIT_0 b s' x = IDENTIFIER_KIND_BIT_0 b s x).
    { apply Hbits; [done|]. subst i. by destruct virt. }
    assert (H1 : IDENTIFIER_KIND_BIT_1 b s' x = IDENTIFIER_KIND_BIT_1 b s x).
    { apply Hbits; [done|]. subst i. by destruct virt. }
    assert (H2 : IDENTIFIER_KIND_BIT_2 b s' x = IDENTIFIER_KIND_BIT_2 b s x).
    { apply Hbits; [done|]. subst i. by destruct virt. }
    assert (Hcd : IDENTIFIER_CDTOR_P b s' x = IDENTIFIER_CDTOR_P b s x).
    { unfold IDENTIFIER_CDTOR_P. by rewrite H1, H2. }
    assert (Hany : IDENTIFIER_ANY_OP_P b s' x = IDENTIFIER_ANY_OP_P b s x)
      by exact H2.
    assert (Hovl : IDENTIFIER_OVL_OP_P b s' x = IDENTIFIER_OVL_OP_P b s x).
    { unfold IDENTIFIER_OVL_OP_P. by rewrite Hany, H1. }
    split; [|split; [done|split; [done|]]].
    + intros []; simpl.
      * unfold IDENTIFIER_KEYWORD_P. by rewrite H0, H1, H2.
      * unfold IDENTIFIER_CTOR_P. by rewrite Hcd, H0.
      * unfold IDENTIFIER_DTOR_P. by rewrite Hcd, H0.
      * done.
      * unfold IDENTIFIER_ASSIGN_OP_P. by rewrite Hovl, H0.
      * unfold IDENTIFIER_CONV_OP_P. by rewrite Hany, H1, H0.
    + assert ((x' ← IDENTIFIER_NODE_CHECK b s' x; TREE_LANG_FLAG j b s' x')
              = (x' ← IDENTIFIER_NODE_CHECK b s x; TREE_LANG_FLAG j b s x')) as Hj;
        [|by destruct virt].
      apply Hbits; subst i j; by destruct virt.
Qed.

Lemma identifier_marks_keep_category_witness :
  ∃ s', assign_IDENTIFIER_MARKED 1 checking identifier_store 1%N = Ok s'
        ∧ IDENTIFIER_ASSIGN_OP_P checking s' 1%N
          = IDENTIFIER_ASSIGN_OP_P checking identifier_store 1%N.
Proof.
  eexists. split; [reflexivity|].
  destruct (identifier_marks_keep_category false 1 checking identifier_store _ 1%N
              eq_refl) as [_ Hkeep].
  destruct (Hkeep 1%N) as [Hcat _].
  exact (Hcat cat_assign_op).
Defined.

(** X11.  The kind code of an identifier sorts it into exactly one of
    three groups, or none: IDENTIFIER_KEYWORD_P, IDENTIFIER_CDTOR_P and
    IDENTIFIER_ANY_OP_P exclude one another, and all three are 0 exactly at
    the kind code 0.  IDENTIFIER_CDTOR_P is the disjoint union of
    IDENTIFIER_CTOR_P and IDENTIFIER_DTOR_P; IDENTIFIER_ANY_OP_P is the
    disjoint union of IDENTIFIER_OVL_OP_P, IDENTIFIER_CONV_OP_P and the kind
    code 7, which no narrower predicate selects. *)
Theorem identifier_kind_partition (b : build) (s : store) (t : tree) (n : tree_node) :
  deref s t = Ok n →
  (b = checking → code n = IDENTIFIER_NODE) →
  ∃ kw cd ct dt op ovl conv,
    IDENTIFIER_KEYWORD_P b s t = Ok kw
    ∧ IDENTIFIER_CDTOR_P b s t = Ok cd
    ∧ IDENTIFIER_CTOR_P b s t = Ok ct
    ∧ IDENTIFIER_DTOR_P b s t = Ok dt
    ∧ IDENTIFIER_ANY_OP_P b s t = Ok op
    ∧ IDENTIFIER_OVL_OP_P b s t = Ok ovl
    ∧ IDENTIFIER_CONV_OP_P b s t = Ok conv
    ∧ kw + cd + op = (if bool_decide (identifier_kind n = 0) then 0 else 1)
    ∧ cd = ct + dt
    ∧ op = ovl + conv + (if bool_decide (identifier_kind n = 7) then 1 else 0).
Proof.
  intros Hn Hc.
  pose proof (identifier_kind_bit 0 b s t n ltac:(done) Hn Hc) as H0.
  pose proof (identifier_kind_bit 1 b s t n ltac:(done) Hn Hc) as H1.
  pose proof (identifier_kind_bit 2 b s t n ltac:(done) Hn Hc) as H2.
  rewrite identifier_kind_bits.
  unfold IDENTIFIER_KEYWORD_P, IDENTIFIER_CTOR_P, IDENTIFIER_DTOR_P,
    IDENTIFIER_CONV_OP_P, IDENTIFIER_OVL_OP_P, IDENTIFIER_CDTOR_P,
    IDENTIFIER_ANY_OP_P, IDENTIFIER_KIND_BIT_0, IDENTIFIER_KIND_BIT_1,
    IDENTIFIER_KIND_BIT_2.
  rewrite H0, H1, H2. cbn [mbind outcome_bind].
  rewrite ?H0, ?H1, ?H2. cbn [mbind outcome_bind].
  destruct (Z.testbit (lang_flag n) 0), (Z.testbit (lang_flag n) 1),
    (Z.testbit (lang_flag n) 2); repeat eexists.
Qed.

Lemma identifier_kind_partition_witness :
  deref identifier_store 1%N = Ok assign_op_identifier
  ∧ ∃ op ovl conv,
      IDENTIFIER_ANY_OP_P checking identifier_store 1%N = Ok op
      ∧ IDENTIFIER_OVL_OP_P checking identifier_store 1%N = Ok ovl
      ∧ IDENTIFIER_CONV_OP_P checking identifier_store 1%N = Ok conv
      ∧ op = ovl + conv + 0.
Proof.
  split; [reflexivity|].
  destruct (identifier_kind_partition checking identifier_store 1%N _ eq_refl
              (λ _, eq_refl))
    as (kw & cd & ct & dt & op & ovl & conv & _ & _ & _ & _ & Hop & Hovl & Hconv
        & _ & _ & Hsum).
  by exists op, ovl, conv.
Defined.

(** ** The names of declarations *)

Lemma IDENTIFIER_KIND_BIT_inv (i : Z) (b : build) (s : store) (t : tree) (v : Z) :
  (t' ← IDENTIFIER_NODE_CHECK b s t; TREE_LANG_FLAG i b s t') = Ok v →
  ∃ n, deref s t = Ok n ∧ (b = checking → code n = IDENTIFIER_NODE).
Proof.
  unfold IDENTIFIER_NODE_CHECK, TREE_CHECK, TREE_CODE, TREE_LANG_FLAG, LANG_FLAG.
  destruct b.
  - destruct (deref s t) as [n| | |] eqn:Hn; simpl; try done.
    case_bool_decide as Hc; simpl; [|done]. intros _. exists n. split; [done|].
    intros _. set_solver.
  - simpl. destruct (deref s t) as [n| | |] eqn:Hn; simpl; try done.
    intros _. by exists n.
Qed.

Section NameProperties.
Context `{!global_trees}.

(** X12.  A cloned constructor or destructor is never an operator: where
    DECL_CLONED_FUNCTION_P is true, DECL_OVERLOADED_OPERATOR_P,
    DECL_ASSIGNMENT_OPERATOR_P and DECL_CONV_FN_P are 0.  On a declaration
    without a name DECL_CLONED_FUNCTION_P is false, its first conjunct
    being the test of DECL_NAME, whereas the three operator predicates hand
    the null name to IDENTIFIER_NODE_CHECK. *)
Theorem cloned_function_is_no_operator (b : build) (s : store) (t : tree)
    (n : tree_node) :
  deref s t = Ok n →
  (DECL_CLONED_FUNCTION_P b s t = Ok true →
     DECL_OVERLOADED_OPERATOR_P b s t = Ok 0
     ∧ DECL_ASSIGNMENT_OPERATOR_P b s t = Ok 0
     ∧ DECL_CONV_FN_P b s t = Ok 0)
  ∧ (name n = NULL_TREE →
     DECL_CLONED_FUNCTION_P b s t = Ok false
     ∧ DECL_OVERLOADED_OPERATOR_P b s t = Undefined
     ∧ DECL_ASSIGNMENT_OPERATOR_P b s t = Undefined
     ∧ DECL_CONV_FN_P b s t = Undefined).
Proof.
  intros Hn.
  assert (Hnm : DECL_NAME s t = Ok (name n)) by (unfold DECL_NAME; by rewrite Hn).
  unfold DECL_OVERLOADED_OPERATOR_P, DECL_ASSIGNMENT_OPERATOR_P, DECL_CONV_FN_P,
    DECL_CLONED_FUNCTION_P, c_and.
  rewrite Hnm. simpl. split.
  - case_bool_decide as Hnz; [|done]. simpl.
    destruct (IDENTIFIER_CDTOR_P b s (name n)) as [v| | |] eqn:Hcd; try done. simpl.
    destruct (c_true v) eqn:Hv; [|done]. intros _.
    revert Hcd. unfold IDENTIFIER_CDTOR_P.
    destruct (IDENTIFIER_KIND_BIT_2 b s (name n)) as [b2| | |] eqn:H2; try done. simpl.
    destruct (IDENTIFIER_KIND_BIT_1 b s (name n)) as [b1| | |] eqn:H1; try done. simpl.
    intros [= <-].
    destruct (IDENTIFIER_KIND_BIT_inv 2 _ _ _ _ H2) as (id & Hid & Hcode).
    pose proof (identifier_kind_bit 0 b s (name n) id ltac:(done) Hid Hcode) as H0.
    assert (b2 = 0) as ->.
    { unfold c_not in Hv. case_decide; [done|]. by rewrite Z.land_0_l in Hv. }
    unfold IDENTIFIER_ASSIGN_OP_P, IDENTIFIER_CONV_OP_P, IDENTIFIER_OVL_OP_P,
      IDENTIFIER_ANY_OP_P.
    fold (IDENTIFIER_KIND_BIT_0 b s (name n)) in H0.
    rewrite H2. simpl. rewrite H1. simpl. rewrite H0. done.
  - intros Hnull. rewrite Hnull.
    split; [by rewrite bool_decide_false by (intros Hx; by apply Hx)|].
    unfold IDENTIFIER_ASSIGN_OP_P, IDENTIFIER_CONV_OP_P, IDENTIFIER_OVL_OP_P,
      IDENTIFIER_ANY_OP_P, IDENTIFIER_KIND_BIT_2, IDENTIFIER_NODE_CHECK, TREE_CHECK,
      TREE_CODE, TREE_LANG_FLAG, LANG_FLAG.
    by destruct b.
Qed.

End NameProperties.

Lemma cloned_function_is_no_operator_witness :
  @DECL_CLONED_FUNCTION_P example_globals checking clone_store 2%N = Ok true
  ∧ DECL_OVERLOADED_OPERATOR_P checking clone_store 2%N = Ok 0.
Proof.
  split; [reflexivity|].
  destruct (@cloned_function_is_no_operator example_globals
              checking clone_store 2%N _ eq_refl) as [Hclone _].
  by destruct (Hclone eq_refl) as (-> & _).
Defined.

(** ** Templates without a result *)

(** X13.  DECL_DECLARES_FUNCTION_P is the test whether STRIP_TEMPLATE yields
    a FUNCTION_DECL, and unlike that test it can be asked of a
    TEMPLATE_DECL whose DECL_TEMPLATE_RESULT is null, where it is false.
    LANG_DECL_FN_CHECK takes DECL_LANG_SPECIFIC of the stripped node before
    it tests DECL_DECLARES_FUNCTION_P: on such a template it dereferences
    the null result, in both builds, and raises no diagnostic. *)
Theorem declares_function_agrees_with_strip (b : build) (s : store) (t : tree)
    (n : tree_node) :
  deref s t = Ok n →
  (code n = TEMPLATE_DECL → result n = NULL_TREE →
     STRIP_TEMPLATE b s t = Ok NULL_TREE
     ∧ DECL_DECLARES_FUNCTION_P b s t = Ok false
     ∧ LANG_DECL_FN_CHECK b s t = Undefined)
  ∧ (∀ sub nsub,
       STRIP_TEMPLATE b s t = Ok sub →
       deref s sub = Ok nsub →
       DECL_DECLARES_FUNCTION_P b s t = Ok (bool_decide (code nsub = FUNCTION_DECL))).
Proof.
  intros Hn. split.
  - intros Hc Hres.
    pose proof (STRIP_TEMPLATE_template b s t n Hn Hc) as Hstrip.
    rewrite Hres in Hstrip. split; [done|].
    assert (Hresult : DECL_TEMPLATE_RESULT b s t = Ok NULL_TREE).
    { revert Hstrip. unfold STRIP_TEMPLATE. rewrite (TREE_CODE_deref _ _ _ Hn).
      cbn [mbind outcome_bind]. by rewrite bool_decide_true. }
    split.
    + unfold DECL_DECLARES_FUNCTION_P, DECL_FUNCTION_TEMPLATE_P, c_or, c_and.
      rewrite Hresult, (TREE_CODE_deref _ _ _ Hn), Hc. cbn [mbind outcome_bind].
      rewrite bool_decide_false by done. rewrite bool_decide_true by done.
      cbn [mbind outcome_bind]. by rewrite bool_decide_false by (intros Hx; by apply Hx).
    + unfold LANG_DECL_FN_CHECK. rewrite Hstrip. by destruct b.
  - intros sub nsub Hstrip Hsub.
    rewrite (DECL_DECLARES_FUNCTION_P_value b s t sub n nsub Hn Hstrip Hsub).
    f_equal. unfold code_admitted.
    destruct (STRIP_TEMPLATE_cases _ _ _ _ _ Hn Hstrip) as [[Hc ->]|[Hc ->]].
    + assert (nsub = n) as -> by congruence.
      rewrite (bool_decide_false (code n = TEMPLATE_DECL)) by done.
      by rewrite orb_false_r.
    + rewrite Hc. by destruct (bool_decide (code nsub = FUNCTION_DECL)).
Qed.

Lemma declares_function_agrees_with_strip_witness :
  deref accessor_store 3%N = Ok (TEMPLATE_DECL_node 4%N)
  ∧ DECL_DECLARES_FUNCTION_P checking accessor_store 3%N = Ok true.
Proof.
  split; [reflexivity|].
  destruct (declares_function_agrees_with_strip checking accessor_store 3%N _ eq_refl)
    as [_ Hstrip].
  exact (Hstrip 4%N (decl_node FUNCTION_DECL 0%N 0%N 2%N) eq_refl eq_refl).
Defined.

(** ** A declaration without a [lang_decl] *)

(** X14.  The LANG_DECL_*_CHECK accessors do not detect a missing
    [lang_decl].  On a declaration whose DECL_LANG_SPECIFIC is null, a
    release build hands out a reference into the null record.  A checking
    build raises lang_check_failed only for a tree code the accessor does
    not admit; on an admitted code LANG_DECL_MIN_CHECK hands out the same
    reference, and the other four read the selector through the null
    pointer.  (DECL_THUNK_P and DECL_LANGUAGE test DECL_LANG_SPECIFIC
    first for this reason.) *)
Theorem lang_decl_checks_miss_null (m : lang_decl_member) (s : store) (t : tree)
    (n : tree_node) :
  deref s t = Ok n →
  decl_lang_specific n = 0%N →
  (m = member_fn → code n ≠ TEMPLATE_DECL) →
  LANG_DECL_CHECK m release s t = Ok (0%N, m)
  ∧ LANG_DECL_CHECK m checking s t
    = (if code_admitted m n n
       then if decide (m = member_min) then Ok (0%N, m) else Undefined
       else ICE lang_check_failed).
Proof.
  intros Hn Hnull Htemplate.
  pose proof (DECL_LANG_SPECIFIC_deref _ _ _ Hn) as Hp. rewrite Hnull in Hp.
  pose proof (TREE_CODE_deref _ _ _ Hn) as Hcode.
  assert (Hsel : ∀ sel, selector_differs s 0%N sel = Undefined) by done.
  destruct m; simpl.
  - unfold LANG_DECL_MIN_CHECK. rewrite Hp. simpl. split; [done|].
    rewrite (LANG_DECL_HAS_MIN_value _ _ _ Hn). simpl.
    by destruct (bool_decide _).
  - pose proof (Htemplate eq_refl) as Hne.
    unfold LANG_DECL_FN_CHECK.
    rewrite !(STRIP_TEMPLATE_other _ s t n Hn Hne). simpl. rewrite Hp. simpl.
    split; [done|].
    rewrite (DECL_DECLARES_FUNCTION_P_value checking s t t n n Hn
               (STRIP_TEMPLATE_other _ _ _ _ Hn Hne) Hn).
    unfold c_or. simpl. rewrite (bool_decide_false (code n = TEMPLATE_DECL)) by done.
    simpl. rewrite orb_false_r. by case_bool_decide.
  - unfold LANG_DECL_NS_CHECK. rewrite Hp. simpl. split; [done|].
    unfold c_or. rewrite Hcode. simpl. case_bool_decide as Hc.
    + by rewrite bool_decide_false.
    + by rewrite bool_decide_true.
  - unfold LANG_DECL_PARM_CHECK. rewrite Hp. simpl. split; [done|].
    unfold c_or. rewrite Hcode. simpl. case_bool_decide as Hc.
    + by rewrite bool_decide_false.
    + by rewrite bool_decide_true.
  - unfold LANG_DECL_DECOMP_CHECK, VAR_P. rewrite Hp. simpl. split; [done|].
    unfold c_or. rewrite Hcode. simpl. by case_bool_decide.
Qed.

Lemma lang_decl_checks_miss_null_witness :
  deref clone_store 1%N = Ok (decl_node FUNCTION_DECL 101%N 2%N 0%N)
  ∧ LANG_DECL_FN_CHECK checking clone_store 1%N = Undefined.
Proof.
  split; [reflexivity|].
  destruct (lang_decl_checks_miss_null member_fn clone_store 1%N _ eq_refl eq_refl
              ltac:(done)) as [_ Hchecking].
  exact Hchecking.
Defined.

(** * Further properties of the use-marking functions *)

(** ** mark_exp_read *)

Lemma read_marked_refl (s : store) : read_marked s s.
Proof. split; [done|]. split; [done|]. intros t. by left. Qed.

Lemma read_marked_trans (s s1 s2 : store) :
  read_marked s s1 → read_marked s1 s2 → read_marked s s2.
Proof.
  intros (Hd1 & Ht1 & H1) (Hd2 & Ht2 & H2).
  split; [congruence|]. split; [congruence|]. intros t.
  destruct (H1 t) as [E1|(n & Hn & Hc & E1)], (H2 t) as [E2|(n' & Hn' & Hc' & E2)].
  - left. congruence.
  - right. exists n'. split; [congruence|done].
  - right. exists n. split; [done|]. split; [done|]. congruence.
  - right. exists n. split; [done|]. split; [done|].
    rewrite E2. rewrite E1 in Hn'. by injection Hn' as <-.
Qed.

Lemma set_DECL_READ_P_marked (s s' : store) (exp : tree) (c : tree_code) :
  TREE_CODE s exp = Ok c →
  c = VAR_DECL ∨ c = PARM_DECL →
  set_DECL_READ_P s exp = Ok s' →
  read_marked s s'.
Proof.
  unfold TREE_CODE, set_DECL_READ_P.
  destruct (deref s exp) as [n| | |] eqn:Hn; try done. simpl.
  intros [= <-] Hc [= <-].
  destruct (deref_nonnull _ _ _ Hn) as [Hnz Hlook].
  split; [done|]. split; [done|]. intros t. simpl.
  destruct (decide (exp = t)) as [<-|Hne].
  - right. exists n. by rewrite lookup_insert_eq.
  - left. by rewrite lookup_insert_ne.
Qed.

Lemma mark_exp_read_S (fuel : nat) (s : store) (exp : tree) :
  mark_exp_read (S fuel) s exp
  = if decide (exp = NULL_TREE) then Ok s
    else
      c ← TREE_CODE s exp;
      match c with
      | VAR_DECL | PARM_DECL => set_DECL_READ_P s exp
      | ARRAY_REF | COMPONENT_REF | MODIFY_EXPR | REALPART_EXPR
      | IMAGPART_EXPR | NOP_EXPR | CONVERT_EXPR | ADDR_EXPR | INDIRECT_REF
      | FLOAT_EXPR | NON_DEPENDENT_EXPR | VIEW_CONVERT_EXPR =>
          op ← TREE_OPERAND s exp 0; mark_exp_read fuel s op
      | COMPOUND_EXPR =>
          op ← TREE_OPERAND s exp 1; mark_exp_read fuel s op
      | COND_EXPR =>
          op1 ← TREE_OPERAND s exp 1;
          s1 ← (if decide (op1 = NULL_TREE) then Ok s else mark_exp_read fuel s op1);
          op2 ← TREE_OPERAND s1 exp 2;
          if decide (op2 = NULL_TREE) then Ok s1 else mark_exp_read fuel s1 op2
      | _ => Ok s
      end.
Proof. reflexivity. Qed.

Lemma mark_exp_read_marked (fuel : nat) (s s' : store) (exp : tree) :
  mark_exp_read fuel s exp = Ok s' → read_marked s s'.
Proof.
  revert s s' exp. induction fuel as [|fuel IH]; intros s s' exp; [done|].
  rewrite mark_exp_read_S. case_decide; [intros [= <-]; apply read_marked_refl|].
  destruct (TREE_CODE s exp) as [c| | |] eqn:Hc; try done. simpl.
  assert (Hop : ∀ i, (op ← TREE_OPERAND s exp i; mark_exp_read fuel s op) = Ok s' →
                     read_marked s s').
  { intros i. destruct (TREE_OPERAND s exp i) as [op| | |]; try done. simpl. apply IH. }
  destruct c; try (intros [= <-]; apply read_marked_refl); try apply Hop.
  - apply (set_DECL_READ_P_marked s s' exp VAR_DECL); [done|by left].
  - apply (set_DECL_READ_P_marked s s' exp PARM_DECL); [done|by right].
  - destruct (TREE_OPERAND s exp 1) as [op1| | |]; try done. simpl.
    destruct (if decide (op1 = NULL_TREE) then Ok s else mark_exp_read fuel s op1)
      as [s1| | |] eqn:Hs1; try done. simpl.
    assert (read_marked s s1) as H1.
    { revert Hs1. case_decide; [intros [= <-]; apply read_marked_refl|apply IH]. }
    destruct (TREE_OPERAND s1 exp 2) as [op2| | |]; try done. simpl.
    destruct (decide (op2 = NULL_TREE)); [by intros [= <-]|].
    intros H2. apply (read_marked_trans s s1 s'); [done|]. by apply IH in H2.
Qed.

Lemma read_marked_deref (s s' : store) (x : tree) :
  read_marked s s' →
  deref s' x = deref s x
  ∨ ∃ n, deref s x = Ok n ∧ (code n = VAR_DECL ∨ code n = PARM_DECL)
         ∧ deref s' x = Ok (with_decl_read_flag true n).
Proof.
  intros (_ & _ & Ht). unfold deref. case_decide; [by left|].
  destruct (Ht x) as [E|(n & Hn & Hc & E)].
  - left. by rewrite E.
  - right. exists n. by rewrite Hn, E.
Qed.

Lemma read_marked_accessors (s s' : store) (x : tree) :
  read_marked s s' →
  TREE_CODE s' x = TREE_CODE s x
  ∧ TREE_TYPE s' x = TREE_TYPE s x
  ∧ (∀ i, TREE_OPERAND s' x i = TREE_OPERAND s x i)
  ∧ (∀ n, deref s x = Ok n → decl_read_flag n = true →
          ∃ n', deref s' x = Ok n' ∧ decl_read_flag n' = true).
Proof.
  intros Hm. unfold TREE_CODE, TREE_TYPE, TREE_OPERAND.
  destruct (read_marked_deref s s' x Hm) as [->|(n & Hn & Hc & ->)].
  - split; [done|]. split; [done|]. split; [done|]. intros n Hn Hr. by exists n.
  - rewrite Hn. split; [done|]. split; [done|]. split; [done|].
    intros n' [= <-] Hr. by eexists.
Qed.

(** X15.  mark_exp_read changes nothing but DECL_READ_P, of VAR_DECL and
    PARM_DECL nodes, and it only ever sets it: the [lang_decl] and
    [lang_type] records are untouched, every node keeps its code, type and
    operands, and a declaration that was marked read stays marked. *)
Theorem mark_exp_read_frame (fuel : nat) (s s' : store) (exp : tree) :
  mark_exp_read fuel s exp = Ok s' →
  read_marked s s'
  ∧ ∀ x, TREE_CODE s' x = TREE_CODE s x
         ∧ TREE_TYPE s' x = TREE_TYPE s x
         ∧ (∀ i, TREE_OPERAND s' x i = TREE_OPERAND s x i)
         ∧ (∀ n, deref s x = Ok n → decl_read_flag n = true →
                 ∃ n', deref s' x = Ok n' ∧ decl_read_flag n' = true).
Proof.
  intros H. pose proof (mark_exp_read_marked _ _ _ _ H) as Hm.
  split; [done|]. intros x. by apply read_marked_accessors.
Qed.

Lemma mark_exp_read_frame_witness :
  ∃ s', mark_exp_read 3 read_store 4%N = Ok s'
        ∧ TREE_OPERAND s' 4%N 1 = TREE_OPERAND read_store 4%N 1.
Proof.
  eexists. split; [reflexivity|].
  destruct (mark_exp_read_frame 3 read_store _ 4%N eq_refl) as [_ Hframe].
  destruct (Hframe 4%N) as (_ & _ & Hop & _).
  apply Hop.
Defined.

(** X16.  mark_exp_read marks the variable an expression reads: when a
    VAR_DECL or PARM_DECL lies [k] operands down from EXP, through operand 0
    of the references, conversions and assignments the function looks
    through and through operand 1 of COMPOUND_EXPRs, then any bound above
    [k] on the depth of the recursion suffices, and the result is the store
    with DECL_READ_P set on that declaration and nothing else changed. *)
Theorem mark_exp_read_reaches_variable (s : store) (exp v : tree) (k fuel : nat) :
  read_path s exp v k →
  (k < fuel)%nat →
  ∃ n, deref s v = Ok n
       ∧ mark_exp_read fuel s exp = Ok (store_node s v (with_decl_read_flag true n)).
Proof.
  intros Hpath. revert fuel.
  induction Hpath as [v n Hn Hc|exp n op v k Hn Hc Hop _ IH|exp n op v k Hn Hc Hop _ IH];
    intros fuel Hk; (destruct fuel as [|fuel]; [lia|]).
  - exists n. split; [done|]. rewrite mark_exp_read_S.
    destruct (deref_nonnull _ _ _ Hn) as [Hnz _].
    rewrite decide_False by done. rewrite (TREE_CODE_deref _ _ _ Hn). simpl.
    unfold set_DECL_READ_P.
    destruct Hc as [-> | ->]; by rewrite Hn.
  - destruct (IH fuel ltac:(lia)) as (nv & Hnv & Hmark).
    exists nv. split; [done|]. rewrite mark_exp_read_S.
    destruct (deref_nonnull _ _ _ Hn) as [Hnz _].
    rewrite decide_False by done. rewrite (TREE_CODE_deref _ _ _ Hn). simpl.
    assert (Hread : (op ← TREE_OPERAND s exp 0; mark_exp_read fuel s op)
                    = Ok (store_node s v (with_decl_read_flag true nv))).
    { unfold TREE_OPERAND. rewrite Hn. simpl. rewrite Hop. exact Hmark. }
    unfold read_through_codes in Hc. apply list_elem_of_In in Hc. simpl in Hc.
    repeat (destruct Hc as [<-|Hc]; [exact Hread|]). done.
  - destruct (IH fuel ltac:(lia)) as (nv & Hnv & Hmark).
    exists nv. split; [done|]. rewrite mark_exp_read_S.
    destruct (deref_nonnull _ _ _ Hn) as [Hnz _].
    rewrite decide_False by done. rewrite (TREE_CODE_deref _ _ _ Hn). simpl.
    rewrite Hc. unfold TREE_OPERAND. rewrite Hn. simpl. rewrite Hop. exact Hmark.
Qed.

Lemma mark_exp_read_reaches_variable_witness :
  read_path read_store 4%N 1%N 2
  ∧ ∃ n, deref read_store 1%N = Ok n
         ∧ mark_exp_read 3 read_store 4%N
           = Ok (store_node read_store 1%N (with_decl_read_flag true n)).
Proof.
  assert (Hpath : read_path read_store 4%N 1%N 2).
  { eapply read_operand_1; [reflexivity|reflexivity|reflexivity|].
    eapply read_operand_0; [reflexivity| |reflexivity|].
    - simpl. unfold read_through_codes. set_solver.
    - eapply read_here; [reflexivity|]. by left. }
  split; [exact Hpath|].
  apply (mark_exp_read_reaches_variable read_store 4%N 1%N 2 3 Hpath). lia.
Defined.

(** ** mark_use and its callers *)

Section MarkUseCallerProperties.
Context `{!global_trees} `{!tree_h} `{!tree_cc}.

Lemma mark_use_S (fuel : nat) (s : store) (expr : tree) (rvalue_p read_p : bool)
    (loc : N) (reject_builtin : bool) :
  mark_use (S fuel) s expr rvalue_p read_p loc reject_builtin
  = if bool_decide (expr = NULL_TREE) || error_operand_p s expr then Ok (expr, s)
    else if reject_builtin then Ok (error_mark_node, s)
    else
      s ← (if read_p then mark_exp_read (S fuel) s expr else Ok s);
      c ← TREE_CODE s expr;
      let RECUR := λ (loc : N) (s : store) (t : tree),
        mark_use fuel s t rvalue_p read_p loc reject_builtin in
      match c with
      | COMPONENT_REF | NON_DEPENDENT_EXPR =>
          mark_use_operands (RECUR loc) expr [(0, true); (1, false); (2, false)]%nat s
      | COMPOUND_EXPR =>
          mark_use_operands (RECUR loc) expr [(0, false); (1, true); (2, false)]%nat s
      | COND_EXPR =>
          op1 ← TREE_OPERAND s expr 1;
          mark_use_operands (RECUR loc) expr
            [(0, false); (1, bool_decide (op1 ≠ NULL_TREE)); (2, true)]%nat s
      | INDIRECT_REF =>
          is_ref ← REFERENCE_REF_P s expr;
          if is_ref : bool then
            ref ← TREE_OPERAND s expr 0;
            r ← mark_use fuel s ref true true loc reject_builtin;
            if decide (r.1 ≠ ref) then convert_from_reference (S fuel) r.2 r.1
            else Ok (expr, r.2)
          else Ok (expr, s)
      | VIEW_CONVERT_EXPR =>
          if location_wrapper_p s expr then
            let loc := EXPR_LOCATION s expr in
            op ← TREE_OPERAND s expr 0;
            r ← RECUR loc s op;
            let nop := r.1 in
            if decide (nop = error_mark_node) then Ok (error_mark_node, r.2)
            else if decide (op = nop) then Ok (expr, r.2)
            else
              reuse ← c_or (DECL_P r.2 nop) (CONSTANT_CLASS_P r.2 nop);
              if reuse : bool then
                s1 ← assign_TREE_OPERAND r.2 expr 0 nop;
                s2 ← (if rvalue_p then TREE_SET_CODE s1 expr NON_LVALUE_EXPR else Ok s1);
                Ok (expr, s2)
              else
                Ok (nop, protected_set_expr_location nop loc r.2)
          else
            mark_use_operands (RECUR loc) expr [(0, true); (1, false); (2, false)]%nat s
      | NOP_EXPR | CONVERT_EXPR =>
          mark_use_operands (RECUR loc) expr [(0, true); (1, false); (2, false)]%nat s
      | _ => Ok (expr, s)
      end.
Proof. reflexivity. Qed.

Lemma mark_use_operands_result (recur : store → tree → outcome (tree * store))
    (expr : tree) (l : list (nat * bool)) (s s' : store) (r : tree) :
  mark_use_operands recur expr l s = Ok (r, s') →
  r = expr ∨ r = error_mark_node.
Proof.
  revert s. induction l as [|[i []] l IH]; intros s; simpl.
  - intros [= <- _]. by left.
  - destruct (TREE_OPERAND s expr i) as [op| | |]; try done. simpl.
    destruct (recur s op) as [[r1 s1]| | |]; try done. simpl.
    case_decide.
    + intros [= <- _]. by right.
    + destruct (assign_TREE_OPERAND s1 expr i r1) as [s2| | |]; try done. simpl.
      apply IH.
  - apply IH.
Qed.

(** X17.  mark_use rewrites in place: on an expression that is neither an
    INDIRECT_REF nor a VIEW_CONVERT_EXPR, whatever the flags, the tree it
    returns is the expression it was given or error_mark_node, never
    another node. *)
Theorem mark_use_in_place (fuel : nat) (s s' : store) (expr r : tree)
    (rvalue_p read_p : bool) (loc : N) (reject_builtin : bool) (c : tree_code) :
  TREE_CODE s expr = Ok c →
  c ≠ INDIRECT_REF →
  c ≠ VIEW_CONVERT_EXPR →
  mark_use fuel s expr rvalue_p read_p loc reject_builtin = Ok (r, s') →
  r = expr ∨ r = error_mark_node.
Proof.
  intros Hc Hind Hview. destruct fuel as [|fuel]; [done|].
  rewrite mark_use_S.
  destruct (bool_decide (expr = NULL_TREE) || error_operand_p s expr);
    [intros [= <- _]; by left|].
  destruct reject_builtin; [intros [= <- _]; by right|].
  destruct (if read_p then mark_exp_read (S fuel) s expr else Ok s)
    as [s1| | |] eqn:Hs1; try done. cbn -[mark_use_operands].
  assert (Hm : read_marked s s1).
  { destruct read_p; [by apply mark_exp_read_marked in Hs1|].
    injection Hs1 as <-. apply read_marked_refl. }
  destruct (read_marked_accessors s s1 expr Hm) as (-> & _).
  rewrite Hc. cbn -[mark_use_operands].
  destruct c; try done; try apply mark_use_operands_result;
    try (intros [= <- _]; by left).
  destruct (TREE_OPERAND s1 expr 1) as [op1| | |]; try done. cbn -[mark_use_operands].
  apply mark_use_operands_result.
Qed.

Lemma mark_discarded_use_S (fuel : nat) (s : store) (expr : tree) :
  mark_discarded_use (S fuel) s expr
  = if decide (expr = NULL_TREE) then Ok (expr, s)
    else
      let expr := tree_strip_any_location_wrapper s expr in
      c ← TREE_CODE s expr;
      match c with
      | COND_EXPR =>
          op2 ← TREE_OPERAND s expr 2;
          r2 ← mark_discarded_use fuel s op2;
          s2 ← assign_TREE_OPERAND r2.2 expr 2 r2.1;
          op1 ← TREE_OPERAND s2 expr 1;
          r1 ← mark_discarded_use fuel s2 op1;
          s1 ← assign_TREE_OPERAND r1.2 expr 1 r1.1;
          Ok (expr, s1)
      | COMPOUND_EXPR =>
          op1 ← TREE_OPERAND s expr 1;
          r1 ← mark_discarded_use fuel s op1;
          s1 ← assign_TREE_OPERAND r1.2 expr 1 r1.1;
          Ok (expr, s1)
      | COMPONENT_REF | ARRAY_REF | INDIRECT_REF | MEMBER_REF =>
          mark_use (S fuel) s expr true true input_location false
      | _ =>
          d ← DECL_P s expr;
          if d : bool then mark_use (S fuel) s expr true true input_location false
          else Ok (expr, s)
      end.
Proof. reflexivity. Qed.

Lemma mark_use_declaration (fuel : nat) (s : store) (d : tree) (n : tree_node)
    (rvalue_p read_p : bool) (loc : N) :
  deref s d = Ok n →
  TREE_CODE_CLASS (code n) = tcc_declaration →
  error_operand_p s d = false →
  mark_use (S fuel) s d rvalue_p read_p loc false
  = Ok (d, if read_p && bool_decide (code n ∈ [VAR_DECL; PARM_DECL])
           then store_node s d (with_decl_read_flag true n) else s).
Proof.
  intros Hn Hclass Herr.
  destruct (deref_nonnull _ _ _ Hn) as [Hnz _].
  pose proof (TREE_CODE_deref _ _ _ Hn) as Hcode.
  rewrite mark_use_S. rewrite bool_decide_false, Herr by done. cbn [orb].
  destruct read_p.
  - assert (Hmark : mark_exp_read (S fuel) s d
                    = Ok (if bool_decide (code n ∈ [VAR_DECL; PARM_DECL])
                          then store_node s d (with_decl_read_flag true n) else s)).
    { rewrite mark_exp_read_S. rewrite decide_False by done. rewrite Hcode. simpl.
      unfold set_DECL_READ_P. rewrite Hn. by destruct (code n). }
    rewrite Hmark. cbn [mbind outcome_bind andb].
    destruct (read_marked_accessors s _ d (mark_exp_read_marked _ _ _ _ Hmark))
      as (-> & _).
    rewrite Hcode. cbn [mbind outcome_bind]. by destruct (code n).
  - cbn [mbind outcome_bind andb]. rewrite Hcode. cbn [mbind outcome_bind].
    by destruct (code n).
Qed.

(** X18.  Using a declaration: on a declaration that is no error operand,
    mark_lvalue_use_nonread returns it and leaves the store as it is;
    mark_lvalue_use and mark_rvalue_use (when builtins are not rejected)
    return it and set DECL_READ_P if it is a VAR_DECL or a PARM_DECL, and
    so does mark_discarded_use when the declaration is not wrapped in a
    location wrapper. *)
Theorem use_of_declaration (fuel : nat) (s : store) (d : tree) (n : tree_node)
    (loc : N) :
  deref s d = Ok n →
  TREE_CODE_CLASS (code n) = tcc_declaration →
  error_operand_p s d = false →
  mark_lvalue_use_nonread (S fuel) s d = Ok (d, s)
  ∧ ∀ s_read,
      s_read = (if bool_decide (code n ∈ [VAR_DECL; PARM_DECL])
                then store_node s d (with_decl_read_flag true n) else s) →
      mark_lvalue_use (S fuel) s d = Ok (d, s_read)
      ∧ mark_rvalue_use (S fuel) s d loc false = Ok (d, s_read)
      ∧ (tree_strip_any_location_wrapper s d = d →
         mark_discarded_use (S fuel) s d = Ok (d, s_read)).
Proof.
  intros Hn Hclass Herr.
  destruct (deref_nonnull _ _ _ Hn) as [Hnz _].
  pose proof (TREE_CODE_deref _ _ _ Hn) as Hcode.
  split; [apply (mark_use_declaration fuel s d n false false); done|].
  intros s_read ->.
  pose proof (λ rv l, mark_use_declaration fuel s d n rv true l Hn Hclass Herr) as Hread.
  cbn [andb] in Hread.
  split; [apply Hread|]. split; [apply Hread|].
  intros Hstrip. rewrite mark_discarded_use_S. rewrite decide_False by done.
  cbn zeta. rewrite Hstrip, Hcode.
  unfold DECL_P. rewrite Hcode. cbn [mbind outcome_bind].
  rewrite bool_decide_true by done.
  pose proof (Hread true input_location) as Hr.
  destruct (code n); try done; exact Hr.
Qed.

(** X19.  A use through a reference is a read of the reference: on the
    implicit INDIRECT_REF of a reference variable or parameter, also
    mark_lvalue_use_nonread, which reads nothing else, sets DECL_READ_P of
    the reference, and returns the INDIRECT_REF it was given. *)
Theorem nonread_use_marks_reference (fuel : nat) (s : store) (expr ref : tree)
    (ne nr nty : tree_node) :
  deref s expr = Ok ne →
  code ne = INDIRECT_REF →
  operands ne !! 0%nat = Some ref →
  deref s ref = Ok nr →
  code nr = VAR_DECL ∨ code nr = PARM_DECL →
  deref s (typed_type nr) = Ok nty →
  code nty = REFERENCE_TYPE →
  error_operand_p s expr = false →
  error_operand_p s ref = false →
  mark_lvalue_use_nonread (S (S fuel)) s expr
  = Ok (expr, store_node s ref (with_decl_read_flag true nr)).
Proof.
  intros Hne Hce Hop Hnr Hcr Hnty Hcty Herr Herr_ref.
  destruct (deref_nonnull _ _ _ Hne) as [Hnz _].
  destruct (deref_nonnull _ _ _ Hnty) as [Htynz _].
  unfold mark_lvalue_use_nonread. rewrite mark_use_S.
  rewrite bool_decide_false, Herr by done. cbn [orb mbind outcome_bind].
  rewrite (TREE_CODE_deref _ _ _ Hne), Hce. cbn [mbind outcome_bind].
  assert (Hoperand : TREE_OPERAND s expr 0 = Ok ref).
  { unfold TREE_OPERAND. rewrite Hne. simpl. by rewrite Hop. }
  assert (Href : REFERENCE_REF_P s expr = Ok true).
  { unfold REFERENCE_REF_P, c_and, TYPE_REF_P. rewrite Hoperand.
    rewrite (TREE_CODE_deref _ _ _ Hne), Hce. simpl.
    unfold TREE_TYPE. rewrite Hnr. simpl.
    rewrite bool_decide_true by done. simpl.
    rewrite (TREE_CODE_deref _ _ _ Hnty), Hcty. done. }
  rewrite Href. cbn [mbind outcome_bind]. rewrite Hoperand. cbn [mbind outcome_bind].
  assert (Hcls : TREE_CODE_CLASS (code nr) = tcc_declaration)
    by (by destruct Hcr as [-> | ->]).
  rewrite (mark_use_declaration fuel s ref nr true true input_location Hnr Hcls Herr_ref).
  cbn [mbind outcome_bind fst snd andb].
  rewrite decide_False by (intros Hx; by apply Hx).
  rewrite bool_decide_true; [done|]. destruct Hcr as [-> | ->]; set_solver.
Qed.

Lemma assign_TREE_OPERAND_slot (s : store) (e op : tree) (i : nat) (n : tree_node) :
  deref s e = Ok n → (i < length (operands n))%nat →
  assign_TREE_OPERAND s e i op
  = Ok (store_node s e (with_operands (<[i := op]> (operands n)) n))
  ∧ TREE_OPERAND (store_node s e (with_operands (<[i := op]> (operands n)) n)) e i
    = Ok op.
Proof.
  intros Hn Hi. destruct (deref_nonnull _ _ _ Hn) as [Hnz _]. split.
  - unfold assign_TREE_OPERAND. rewrite Hn. cbn [mbind outcome_bind].
    by rewrite bool_decide_true.
  - unfold TREE_OPERAND. rewrite deref_store_node, decide_True by done.
    cbn [mbind outcome_bind]. change (operands (with_operands ?l _)) with l.
    by rewrite list_lookup_insert_eq.
Qed.

Lemma TREE_OPERAND_deref (s : store) (e op : tree) (i : nat) (n : tree_node) :
  deref s e = Ok n → operands n !! i = Some op → TREE_OPERAND s e i = Ok op.
Proof. intros Hn Hop. unfold TREE_OPERAND. rewrite Hn. simpl. by rewrite Hop. Qed.

(** X20.  mark_discarded_use hands back the expression under the location
    wrapper.  An expression that is neither a COND_EXPR, COMPOUND_EXPR,
    COMPONENT_REF, ARRAY_REF, INDIRECT_REF or MEMBER_REF nor a declaration
    (a call, a constant, ...) is returned with the store unchanged:
    nothing is marked.  For a COMPOUND_EXPR, whatever the marking of
    operand 1 returned is stored in slot 1 of the node, and the node
    itself is the result; for a COND_EXPR the same is done for operand 2
    and then for operand 1, which is read after slot 2 was written.  With
    one unit of fuel more than the operands need, the result is
    produced: a COMPOUND_EXPR whose operand 1 is an expression of the
    first sort gets it stored without its location wrapper. *)
Theorem mark_discarded_use_result (fuel : nat) (s : store) (expr e : tree)
    (n : tree_node) :
  expr ≠ NULL_TREE →
  tree_strip_any_location_wrapper s expr = e →
  deref s e = Ok n →
  (code n ∉ [COND_EXPR; COMPOUND_EXPR; COMPONENT_REF; ARRAY_REF; INDIRECT_REF;
             MEMBER_REF] →
   TREE_CODE_CLASS (code n) ≠ tcc_declaration →
   mark_discarded_use (S fuel) s expr = Ok (e, s))
  ∧ (code n = COMPOUND_EXPR →
     ∀ (op1 r1 : tree) (s1 : store) (n1 : tree_node),
       operands n !! 1%nat = Some op1 →
       mark_discarded_use fuel s op1 = Ok (r1, s1) →
       deref s1 e = Ok n1 → (1 < length (operands n1))%nat →
       mark_discarded_use (S fuel) s expr
       = Ok (e, store_node s1 e (with_operands (<[1%nat := r1]> (operands n1)) n1))
       ∧ TREE_OPERAND
           (store_node s1 e (with_operands (<[1%nat := r1]> (operands n1)) n1)) e 1
         = Ok r1)
  ∧ (code n = COND_EXPR →
     ∀ (op2 r2 op1 r1 : tree) (s2 s1 : store) (n2 n1 : tree_node),
       operands n !! 2%nat = Some op2 →
       mark_discarded_use fuel s op2 = Ok (r2, s2) →
       deref s2 e = Ok n2 → (2 < length (operands n2))%nat →
       operands n2 !! 1%nat = Some op1 →
       mark_discarded_use fuel
         (store_node s2 e (with_operands (<[2%nat := r2]> (operands n2)) n2)) op1
       = Ok (r1, s1) →
       deref s1 e = Ok n1 → (1 < length (operands n1))%nat →
       TREE_OPERAND
         (store_node s2 e (with_operands (<[2%nat := r2]> (operands n2)) n2)) e 2
       = Ok r2
       ∧ mark_discarded_use (S fuel) s expr
         = Ok (e, store_node s1 e (with_operands (<[1%nat := r1]> (operands n1)) n1))
       ∧ TREE_OPERAND
           (store_node s1 e (with_operands (<[1%nat := r1]> (operands n1)) n1)) e 1
         = Ok r1)
  ∧ (code n = COMPOUND_EXPR →
     ∀ (op1 : tree) (m : tree_node),
       operands n !! 1%nat = Some op1 →
       op1 ≠ NULL_TREE →
       deref s (tree_strip_any_location_wrapper s op1) = Ok m →
       code m ∉ [COND_EXPR; COMPOUND_EXPR; COMPONENT_REF; ARRAY_REF; INDIRECT_REF;
                 MEMBER_REF] →
       TREE_CODE_CLASS (code m) ≠ tcc_declaration →
       mark_discarded_use (S (S fuel)) s expr
       = Ok (e, store_node s e
                  (with_operands
                     (<[1%nat := tree_strip_any_location_wrapper s op1]> (operands n))
                     n))).
Proof.
  assert (Hleaf : ∀ (f : nat) (x : tree) (m : tree_node),
            x ≠ NULL_TREE →
            deref s (tree_strip_any_location_wrapper s x) = Ok m →
            code m ∉ [COND_EXPR; COMPOUND_EXPR; COMPONENT_REF; ARRAY_REF; INDIRECT_REF;
                      MEMBER_REF] →
            TREE_CODE_CLASS (code m) ≠ tcc_declaration →
            mark_discarded_use (S f) s x = Ok (tree_strip_any_location_wrapper s x, s)).
  { intros f x m Hxz Hm Hnin Hcls.
    pose proof (TREE_CODE_deref _ _ _ Hm) as Hc.
    rewrite mark_discarded_use_S, decide_False by done. cbv zeta.
    rewrite Hc. cbn [mbind outcome_bind].
    assert (Hdecl : DECL_P s (tree_strip_any_location_wrapper s x) = Ok false).
    { unfold DECL_P. rewrite Hc. simpl. by rewrite bool_decide_false. }
    rewrite Hdecl. cbn [mbind outcome_bind].
    destruct (code m); try reflexivity;
      exfalso; apply Hnin; apply list_elem_of_In; simpl; tauto. }
  intros Hnz He Hn.
  pose proof (TREE_CODE_deref _ _ _ Hn) as Hc.
  assert (Hcompound : code n = COMPOUND_EXPR →
            ∀ (f : nat) (op1 r1 : tree) (s1 : store) (n1 : tree_node),
              operands n !! 1%nat = Some op1 →
              mark_discarded_use f s op1 = Ok (r1, s1) →
              deref s1 e = Ok n1 → (1 < length (operands n1))%nat →
              mark_discarded_use (S f) s expr
              = Ok (e, store_node s1 e
                         (with_operands (<[1%nat := r1]> (operands n1)) n1))).
  { intros Hcode f op1 r1 s1 n1 Hop1 Hr1 Hn1 Hlen.
    rewrite mark_discarded_use_S, decide_False by done. cbv zeta.
    rewrite He, Hc, Hcode. cbn [mbind outcome_bind].
    rewrite (TREE_OPERAND_deref _ _ _ _ _ Hn Hop1). cbn [mbind outcome_bind].
    rewrite Hr1. cbn [mbind outcome_bind fst snd].
    destruct (assign_TREE_OPERAND_slot s1 e r1 1 n1 Hn1 Hlen) as [-> _].
    by cbn [mbind outcome_bind]. }
  split; [|split; [|split]].
  - intros Hnin Hcls. rewrite <- He. by apply (Hleaf fuel expr n); rewrite ?He.
  - intros Hcode op1 r1 s1 n1 Hop1 Hr1 Hn1 Hlen. split.
    + by apply (Hcompound Hcode fuel op1).
    + by apply (assign_TREE_OPERAND_slot s1 e r1 1 n1).
  - intros Hcode op2 r2 op1 r1 s2 s1 n2 n1 Hop2 Hr2 Hn2 Hlen2 Hop1 Hr1 Hn1 Hlen1.
    destruct (deref_nonnull _ _ _ Hn2) as [Hez _].
    destruct (assign_TREE_OPERAND_slot s2 e r2 2 n2 Hn2 Hlen2) as [Ha2 Hslot2].
    destruct (assign_TREE_OPERAND_slot s1 e r1 1 n1 Hn1 Hlen1) as [Ha1 Hslot1].
    split; [done|]. split; [|done].
    rewrite mark_discarded_use_S, decide_False by done. cbv zeta.
    rewrite He, Hc, Hcode. cbn [mbind outcome_bind].
    rewrite (TREE_OPERAND_deref _ _ _ _ _ Hn Hop2). cbn [mbind outcome_bind].
    rewrite Hr2. cbn [mbind outcome_bind fst snd]. rewrite Ha2.
    cbn [mbind outcome_bind].
    assert (TREE_OPERAND
              (store_node s2 e (with_operands (<[2%nat := r2]> (operands n2)) n2)) e 1
            = Ok op1) as ->.
    { unfold TREE_OPERAND. rewrite deref_store_node, decide_True by done.
      cbn [mbind outcome_bind]. change (operands (with_operands ?l _)) with l.
      rewrite list_lookup_insert_ne by done. by rewrite Hop1. }
    cbn [mbind outcome_bind]. rewrite Hr1. cbn [mbind outcome_bind fst snd].
    rewrite Ha1. by cbn [mbind outcome_bind].
  - intros Hcode op1 m Hop1 Hop1z Hm Hnin Hcls.
    apply (Hcompound Hcode (S fuel) op1 _ s n Hop1); [|done|].
    + by apply (Hleaf fuel op1 m).
    + by apply lookup_lt_Some in Hop1.
Qed.

(** ** get_fndecl_from_callee *)

Lemma get_fndecl_from_callee_function (s : store) (fn : tree) :
  TREE_CODE s fn = Ok FUNCTION_DECL → get_fndecl_from_callee s fn = Ok fn.
Proof.
  intros Hc. unfold get_fndecl_from_callee.
  case_decide; [done|]. rewrite Hc. cbn [mbind outcome_bind].
  by rewrite bool_decide_true.
Qed.

Lemma TREE_CODE_nonnull (s : store) (t : tree) (c : tree_code) :
  TREE_CODE s t = Ok c → t ≠ NULL_TREE.
Proof.
  unfold TREE_CODE. destruct (deref s t) as [n| | |] eqn:Hn; try done.
  intros _. by destruct (deref_nonnull _ _ _ Hn).
Qed.

(** X21.  get_fndecl_from_callee returns NULL_TREE or a FUNCTION_DECL, never
    another node; it returns a FUNCTION_DECL it is given as it is; and it
    is idempotent: applied to its result it returns that result. *)
Theorem get_fndecl_from_callee_result (s : store) (fn r : tree) :
  get_fndecl_from_callee s fn = Ok r →
  (r = NULL_TREE ∨ TREE_CODE s r = Ok FUNCTION_DECL)
  ∧ (TREE_CODE s fn = Ok FUNCTION_DECL → r = fn)
  ∧ get_fndecl_from_callee s r = Ok r.
Proof.
  assert (Hnull : get_fndecl_from_callee s NULL_TREE = Ok NULL_TREE).
  { unfold get_fndecl_from_callee. by rewrite decide_True. }
  unfold get_fndecl_from_callee at 1.
  case_decide as Hnz.
  { intros [= <-]. subst fn. split; [by left|]. split; [done|]. exact Hnull. }
  destruct (TREE_CODE s fn) as [c| | |] eqn:Hc; try done. cbn [mbind outcome_bind].
  case_bool_decide as Hfn.
  { intros [= <-]. subst c. split; [by right|]. split; [done|].
    by apply get_fndecl_from_callee_function. }
  assert (Hnot : Ok c = Ok FUNCTION_DECL → r = fn) by (intros [= ?]; done).
  destruct (TREE_TYPE s fn) as [type| | |]; try done. cbn [mbind outcome_bind].
  destruct (c_or _ _) as [[]| | |]; try done; cbn [mbind outcome_bind].
  { intros [= <-]. split; [by left|]. split; [done|]. exact Hnull. }
  destruct (TREE_CODE s (tree_strip_nop_conversions s fn)) as [c1| | |]; try done.
  cbn [mbind outcome_bind].
  destruct (if bool_decide (c1 = ADDR_EXPR) || bool_decide (c1 = FDESC_EXPR)
            then TREE_OPERAND s (tree_strip_nop_conversions s fn) 0
            else Ok (tree_strip_nop_conversions s fn)) as [fn2| | |]; try done.
  cbn [mbind outcome_bind].
  destruct (TREE_CODE s fn2) as [c2| | |] eqn:Hc2; try done. cbn [mbind outcome_bind].
  case_bool_decide as Hfn2.
  - intros [= <-]. subst c2. split; [by right|]. split; [done|].
    by apply get_fndecl_from_callee_function.
  - intros [= <-]. split; [by left|]. split; [done|]. exact Hnull.
Qed.

End MarkUseCallerProperties.

Lemma mark_use_in_place_witness :
  ∃ r s', @mark_use example_globals example_tree_h 3 read_store 4%N true true 0%N false
          = Ok (r, s')
          ∧ (r = 4%N ∨ r = @error_mark_node example_globals).
Proof.
  eexists _, _. split; [reflexivity|].
  eapply (@mark_use_in_place example_globals example_tree_h 3 read_store _ 4%N _
            true true 0%N false COMPOUND_EXPR); [reflexivity|done|done|reflexivity].
Defined.

Lemma use_of_declaration_witness :
  deref use_store 1%N
  = Ok (TreeNode VAR_DECL false false 0 2%N 0%N [] 0%N false 0 0%N 0%N 0 0%N 0%N)
  ∧ @mark_lvalue_use_nonread example_globals example_tree_h example_tree_cc 1
      use_store 1%N
    = Ok (1%N, use_store).
Proof.
  split; [reflexivity|].
  by destruct (@use_of_declaration example_globals example_tree_h example_tree_cc 0
                 use_store 1%N _ 0%N eq_refl eq_refl eq_refl) as [-> _].
Defined.

Lemma nonread_use_marks_reference_witness :
  ∃ s', @mark_lvalue_use_nonread example_globals example_tree_h example_tree_cc 2
          reference_store 4%N
        = Ok (4%N, s')
        ∧ (n ← deref s' 1%N; Ok (decl_read_flag n)) = Ok true.
Proof.
  eexists. split.
  - apply (@nonread_use_marks_reference example_globals example_tree_h example_tree_cc 0
             reference_store 4%N 1%N _ _ _ eq_refl eq_refl eq_refl eq_refl
             (or_intror eq_refl) eq_refl eq_refl eq_refl eq_refl).
  - reflexivity.
Defined.

Lemma mark_discarded_use_result_witness :
  @mark_discarded_use example_globals example_tree_h example_tree_cc 4
    discarded_store 7%N
  = Ok (7%N, store_node discarded_store 7%N (expr_node COMPOUND_EXPR 2%N [5%N; 100%N]))
  ∧ TREE_OPERAND discarded_store 7%N 1 = Ok 6%N.
Proof.
  split; [|reflexivity].
  destruct (@mark_discarded_use_result example_globals example_tree_h example_tree_cc
              3 discarded_store 7%N 7%N _ ltac:(done) eq_refl eq_refl)
    as (_ & Hcompound & _).
  by destruct (Hcompound eq_refl 6%N 100%N discarded_store _ eq_refl eq_refl eq_refl
                 ltac:(simpl; lia)) as [-> _].
Defined.

Lemma get_fndecl_from_callee_result_witness :
  @get_fndecl_from_callee example_tree_cc callee_store 3%N = Ok 1%N
  ∧ @get_fndecl_from_callee example_tree_cc callee_store 1%N = Ok 1%N.
Proof.
  split; [reflexivity|].
  by destruct (@get_fndecl_from_callee_result example_tree_cc callee_store 3%N 1%N
                 eq_refl) as (_ & _ & ->).
Defined.

(** ** mark_use keeps expressions non-null *)

Section MarkUseInvariant.
Context `{!global_trees} `{!tree_h}.




End MarkUseInvariant.


(** ** pointer_offset_expression *)

Section PointerOffsetProperties.
Context `{!global_trees} `{!fold_const_h}.

(** X23.  pointer_offset_expression propagates errors: when the base, its
    type, the index or the element type is error_mark_node, the result is
    error_mark_node and nothing is built.  The element type is read before
    any of these tests, so a base without a type is dereferenced whatever
    the index is. *)
Theorem pointer_offset_expression_errors (s : store) (base_tree index_tree : tree)
    (location : N) (base_type : tree) :
  TREE_TYPE s base_tree = Ok base_type →
  (base_type = NULL_TREE →
     pointer_offset_expression s base_tree index_tree location = Undefined)
  ∧ (∀ element_type_tree,
       TREE_TYPE s base_type = Ok element_type_tree →
       base_tree = error_mark_node ∨ base_type = error_mark_node
       ∨ index_tree = error_mark_node ∨ element_type_tree = error_mark_node →
       pointer_offset_expression s base_tree index_tree location
       = Ok (error_mark_node, s)).
Proof.
  intros Hbase. unfold pointer_offset_expression. rewrite Hbase.
  cbn [mbind outcome_bind]. split.
  - intros ->. done.
  - intros ety Hety Herr. rewrite Hety. cbn [mbind outcome_bind].
    destruct Herr as [Hx|[Hx|[Hx|Hx]]];
      rewrite (bool_decide_true _ Hx); by rewrite ?orb_true_r.
Qed.

End PointerOffsetProperties.

Lemma pointer_offset_expression_errors_witness :
  TREE_TYPE read_store 1%N = Ok 2%N
  ∧ @pointer_offset_expression example_globals example_fold_const_h read_store
      1%N 100%N 0%N
    = Ok (100%N, read_store).
Proof.
  split; [reflexivity|].
  destruct (@pointer_offset_expression_errors example_globals example_fold_const_h
              read_store 1%N 100%N 0%N 2%N eq_refl) as [_ Herr].
  apply (Herr 0%N eq_refl). right. right. left. reflexivity.
Defined.

(** * Properties of the conversion to void *)

(** One step through a sequence of accesses that yields a value. *)
Tactic Notation "bind_step" "as" ident(x) ident(E) :=
  lazymatch goal with
  | |- mbind _ ?m = Ok _ → _ =>
      destruct m as [x| | |] eqn:E; [cbn [mbind outcome_bind]|done..]
  end.

Section ConvertToVoidProperties.
Context `{!global_trees} `{!tree_h} `{!tree_cc} `{!convert_h}.

Lemma convert_to_void_S (fuel : nat) (b : build) (s : store) (log : list diagnostic)
    (expr : tree) (implicit : impl_conv_void) :
  convert_to_void (S fuel) b s log expr implicit
  = let loc := expr_loc_or_input_loc s expr in
    err ← c_or (Ok (bool_decide (expr = error_mark_node)))
               (ty ← TREE_TYPE s expr; Ok (bool_decide (ty = error_mark_node)));
    if err : bool then Ok (error_mark_node, s, log)
    else
      r ← mark_discarded_use (S fuel) s expr;
      let expr := r.1 in
      s ← (if bool_decide (implicit = ICV_CAST) then mark_exp_read (S fuel) r.2 expr
           else Ok r.2);
      ty ← TREE_TYPE s expr;
      if bool_decide (ty = NULL_TREE) then Ok (expr, s, log)
      else
        void ← VOID_TYPE_P s ty;
        if void : bool then Ok (expr, s, log)
        else
          c ← TREE_CODE s expr;
          r ← match c with
              | COND_EXPR =>
                  op1 ← TREE_OPERAND s expr 1;
                  op2 ← TREE_OPERAND s expr 2;
                  side_effects ←
                    c_or (c_and (Ok (bool_decide (op1 ≠ NULL_TREE)))
                                (TREE_SIDE_EFFECTS s op1))
                         (TREE_SIDE_EFFECTS s op2);
                  let arms := λ i1 i2 : impl_conv_void,
                    r1 ← (if bool_decide (op1 ≠ NULL_TREE)
                          then convert_to_void fuel b s log op1 i1
                          else Ok (NULL_TREE, s, log));
                    r2 ← convert_to_void fuel b r1.1.2 r1.2 op2 i2;
                    Ok (r1.1.1, r2) in
                  a ← (if bool_decide (implicit ≠ ICV_CAST) && negb side_effects
                       then arms ICV_SECOND_OF_COND ICV_THIRD_OF_COND
                       else arms ICV_CAST ICV_CAST);
                  let new_op1 := a.1 in
                  let new_op2 := a.2.1.1 in
                  ty2 ← TREE_TYPE a.2.1.2 new_op2;
                  op0 ← TREE_OPERAND a.2.1.2 expr 0;
                  let e := build3_loc loc COND_EXPR ty2 op0 new_op1 new_op2 a.2.1.2 in
                  Ok (e.1, e.2, a.2.2)
              | COMPOUND_EXPR =>
                  op1 ← TREE_OPERAND s expr 1;
                  n ← (if bool_decide (implicit ≠ ICV_CAST)
                          && negb (warning_suppressed_p s expr all_warnings)
                       then convert_to_void fuel b s log op1 ICV_RIGHT_OF_COMMA
                       else convert_to_void fuel b s log op1 ICV_CAST);
                  let new_op1 := n.1.1 in
                  if bool_decide (new_op1 ≠ op1) then
                    ty1 ← TREE_TYPE n.1.2 new_op1;
                    op0 ← TREE_OPERAND n.1.2 expr 0;
                    let t := build2_loc loc COMPOUND_EXPR ty1 op0 new_op1 n.1.2 in
                    Ok (t.1, t.2, n.2)
                  else Ok (expr, n.1.2, n.2)
              | NON_LVALUE_EXPR | NOP_EXPR => Ok (expr, s, log)
              | CALL_EXPR =>
                  log ← maybe_warn_nodiscard s log expr implicit;
                  Ok (expr, s, log)
              | INDIRECT_REF =>
                  type ← TREE_TYPE s expr;
                  op0 ← TREE_OPERAND s expr 0;
                  ty0 ← TREE_TYPE s op0;
                  is_reference ← TYPE_REF_P s ty0;
                  is_volatile ← TYPE_VOLATILE b s type;
                  is_complete ← COMPLETE_TYPE_P b s type;
                  log ← (if is_volatile && negb is_complete then
                           Ok (warning loc no_option
                                 (not_accessed_incomplete_type implicit type) :: log)
                         else if is_volatile && is_reference then
                           Ok (warning loc no_option
                                 (not_accessed_implicit_dereference implicit type)
                               :: log)
                         else
                           a ← c_and (Ok is_volatile) (TREE_ADDRESSABLE b s type);
                           if a : bool then
                             Ok (warning loc no_option
                                   (not_accessed_non_trivially_copyable implicit type)
                                 :: log)
                           else Ok log);
                  strip ← c_or (Ok (is_reference || negb is_volatile || negb is_complete))
                               (TREE_ADDRESSABLE b s type);
                  if strip : bool then
                    let log :=
                      if warn_unused_value && bool_decide (implicit ≠ ICV_CAST)
                         && negb (warning_suppressed_p s expr OPT_Wunused_value)
                         && negb is_reference
                      then warning loc OPT_Wunused_value value_computed_is_not_used :: log
                      else log in
                    expr ← TREE_OPERAND s expr 0;
                    c ← TREE_CODE s expr;
                    log ← (if bool_decide (c = CALL_EXPR)
                           then maybe_warn_nodiscard s log expr implicit else Ok log);
                    Ok (expr, s, log)
                  else Ok (expr, s, log)
              | VAR_DECL =>
                  type ← TREE_TYPE s expr;
                  is_complete ← COMPLETE_TYPE_P b s type;
                  w ← c_and (TYPE_VOLATILE b s type) (Ok (negb is_complete));
                  Ok (expr, s,
                      if w : bool
                      then warning loc no_option
                             (not_accessed_incomplete_variable implicit expr type) :: log
                      else log)
              | _ => Ok (expr, s, log)
              end;
          se ← TREE_SIDE_EFFECTS r.1.2 r.1.1;
          Ok (if se : bool then r.1.1 else void_node, r.1.2, r.2).
Proof. reflexivity. Qed.

(** X24.  maybe_warn_nodiscard gives no diagnostic for an explicit cast to
    void.  For any other conversion it gives at most one warning, which
    -Wunused-result controls, and the notes that follow it are given only
    when warning_at reported that the warning was emitted. *)
Theorem maybe_warn_nodiscard_diagnostics (s : store) (log log' : list diagnostic) (expr : tree)
    (implicit : impl_conv_void) :
  maybe_warn_nodiscard s log expr implicit = Ok log' →
  ∃ new, log' = new ++ log
         ∧ (implicit = ICV_CAST → new = [])
         ∧ (new = []
            ∨ ∃ loc m notes,
                new = notes ++ [warning loc OPT_Wunused_result m]
                ∧ Forall (λ d, ∃ l m', d = note l m') notes
                ∧ (notes ≠ [] → warning_at loc OPT_Wunused_result m s = true)).
Proof.
  assert (Hnone : ∃ new : list diagnostic, log = new ++ log
            ∧ (implicit = ICV_CAST → new = [])
            ∧ (new = []
               ∨ ∃ loc m notes,
                   new = notes ++ [warning loc OPT_Wunused_result m]
                   ∧ Forall (λ d, ∃ l m', d = note l m') notes
                   ∧ (notes ≠ [] → warning_at loc OPT_Wunused_result m s = true))).
  { exists []. split; [done|]. split; [done|]. by left. }
  unfold maybe_warn_nodiscard.
  bind_step as c Ec. bind_step as call Ecall. cbv zeta. bind_step as callee Ecallee.
  destruct (bool_decide (callee = NULL_TREE)); [by intros [= <-]|].
  bind_step as type Etype. bind_step as indirect Eind. bind_step as type' Etype'.
  bind_step as rettype Eret. bind_step as fn Efn.
  unfold c_and. cbn [mbind outcome_bind].
  bind_step as on_fn Eon. destruct on_fn.
  - assert (Hcast : implicit ≠ ICV_CAST).
    { destruct (bool_decide (implicit ≠ ICV_CAST)) eqn:Hi; [|done].
      by apply bool_decide_eq_true in Hi. }
    bind_step as attr Eattr. bind_step as msg Emsg.
    destruct (warning_at _ _ _ s) eqn:Hw.
    + bind_step as l El. intros [= <-].
      eexists [_; _]. split; [reflexivity|]. split; [done|]. right.
      eexists _, _, [_]. split; [reflexivity|]. split; [|done].
      constructor; [by eexists _, _|constructor].
    + intros [= <-].
      eexists [_]. split; [reflexivity|]. split; [done|]. right.
      eexists _, _, []. split; [reflexivity|]. split; [constructor|done].
  - bind_step as on_type Eot. destruct on_type; [|by intros [= <-]].
    assert (Hcast : implicit ≠ ICV_CAST).
    { destruct (bool_decide (implicit ≠ ICV_CAST)) eqn:Hi; [|done].
      by apply bool_decide_eq_true in Hi. }
    bind_step as attr Eattr. bind_step as msg Emsg.
    destruct (warning_at _ _ _ s) eqn:Hw.
    + bind_step as log2 Elog2. bind_step as nm Enm. bind_step as l El.
      intros [= <-]. revert Elog2.
      destruct (bool_decide (fn ≠ NULL_TREE)).
      * bind_step as l' El'. intros [= <-].
        eexists [_; _; _]. split; [reflexivity|]. split; [done|]. right.
        eexists _, _, [_; _]. split; [reflexivity|]. split; [|done].
        repeat (constructor; [by eexists _, _|]). constructor.
      * intros [= <-].
        eexists [_; _]. split; [reflexivity|]. split; [done|]. right.
        eexists _, _, [_]. split; [reflexivity|]. split; [|done].
        constructor; [by eexists _, _|constructor].
    + intros [= <-].
      eexists [_]. split; [reflexivity|]. split; [done|]. right.
      eexists _, _, []. split; [reflexivity|]. split; [constructor|done].
Qed.

Lemma cast_diagnostics_nil (log : list diagnostic) :
  ∃ new, log = new ++ log ∧ Forall cast_diagnostic new.
Proof. by exists []. Qed.

Lemma cast_diagnostics_cons (loc : N) (m : message) (log log' : list diagnostic) :
  message_implicit m = Some ICV_CAST →
  (∃ new, log' = new ++ log ∧ Forall cast_diagnostic new) →
  ∃ new, warning loc no_option m :: log' = new ++ log ∧ Forall cast_diagnostic new.
Proof.
  intros Hm (new & -> & Hnew). exists (warning loc no_option m :: new).
  split; [done|]. constructor; [by exists loc, m|done].
Qed.

Lemma cast_diagnostics_trans (log log1 log2 : list diagnostic) :
  (∃ new, log1 = new ++ log ∧ Forall cast_diagnostic new) →
  (∃ new, log2 = new ++ log1 ∧ Forall cast_diagnostic new) →
  ∃ new, log2 = new ++ log ∧ Forall cast_diagnostic new.
Proof.
  intros (new1 & -> & Hn1) (new2 & -> & Hn2). exists (new2 ++ new1).
  split; [by rewrite app_assoc|]. by apply Forall_app.
Qed.

Lemma maybe_warn_nodiscard_cast (s : store) (log log' : list diagnostic) (expr : tree) :
  maybe_warn_nodiscard s log expr ICV_CAST = Ok log' → log' = log.
Proof.
  unfold maybe_warn_nodiscard.
  bind_step as c Ec. bind_step as call Ecall. cbv zeta. bind_step as callee Ecallee.
  destruct (bool_decide (callee = NULL_TREE)); [by intros [= <-]|].
  bind_step as type Etype. bind_step as indirect Eind. bind_step as type' Etype'.
  bind_step as rettype Eret. bind_step as fn Efn.
  unfold c_and. change (bool_decide (ICV_CAST ≠ ICV_CAST)) with false.
  cbn [andb mbind outcome_bind]. by intros [= <-].
Qed.

(** X25.  An explicit cast to void is quiet: with ICV_CAST, at every depth
    of the operands of COND_EXPRs and COMPOUND_EXPRs, convert_to_void adds
    to the diagnostics only warnings that no option controls, in their
    wording for a cast; it never gives the -Wunused-value warning, a
    [[nodiscard]] warning or a note. *)
Theorem convert_to_void_cast_is_quiet (fuel : nat) (b : build) (s s' : store)
    (log log' : list diagnostic) (expr r : tree) :
  convert_to_void fuel b s log expr ICV_CAST = Ok (r, s', log') →
  ∃ new, log' = new ++ log ∧ Forall cast_diagnostic new.
Proof.
  revert s s' log log' expr r.
  induction fuel as [|fuel IH]; intros s s' log log' expr r; [done|].
  rewrite convert_to_void_S. cbv zeta.
  bind_step as err Eerr.
  destruct err; [intros [= <- <- <-]; apply cast_diagnostics_nil|].
  bind_step as rd Erd. bind_step as s1 Es1. bind_step as ty Ety.
  destruct (bool_decide (ty = NULL_TREE));
    [intros [= <- <- <-]; apply cast_diagnostics_nil|].
  bind_step as void Ev.
  destruct void; [intros [= <- <- <-]; apply cast_diagnostics_nil|].
  bind_step as c Ec. bind_step as rr Err. bind_step as se Ese.
  intros [= <- <- <-]. revert Err.
  change (bool_decide (ICV_CAST ≠ ICV_CAST)) with false. cbn [andb].
  destruct c; try (intros [= <-]; apply cast_diagnostics_nil).
  - (* VAR_DECL *)
    bind_step as is_complete Ecomp. bind_step as w Ew. intros [= <-]. cbn [snd].
    destruct w; [|apply cast_diagnostics_nil].
    apply cast_diagnostics_cons; [done|apply cast_diagnostics_nil].
  - (* INDIRECT_REF *)
    bind_step as op0 Eop0. bind_step as ty0 Ety0. bind_step as is_reference Eref.
    bind_step as is_volatile Evol. bind_step as is_complete Ecomp.
    bind_step as log1 Elog1.
    assert (Hlog1 : ∃ new, log1 = new ++ log ∧ Forall cast_diagnostic new).
    { revert Elog1.
      destruct (is_volatile && negb is_complete);
        [intros [= <-]; apply cast_diagnostics_cons; [done|apply cast_diagnostics_nil]|].
      destruct (is_volatile && is_reference);
        [intros [= <-]; apply cast_diagnostics_cons; [done|apply cast_diagnostics_nil]|].
      bind_step as a Ea. destruct a; intros [= <-]; [|apply cast_diagnostics_nil].
      apply cast_diagnostics_cons; [done|apply cast_diagnostics_nil]. }
    bind_step as strip Estrip. destruct strip; [|by intros [= <-]].
    rewrite andb_false_r. cbn [andb mbind outcome_bind].
    bind_step as c' Ec'. bind_step as log2 Elog2.
    intros [= <-]. cbn [snd]. revert Elog2.
    destruct (bool_decide (c' = CALL_EXPR)); [|by intros [= <-]].
    intros Hw. by rewrite (maybe_warn_nodiscard_cast _ _ _ _ Hw).
  - (* COMPOUND_EXPR *)
    bind_step as op1 Eop1. bind_step as n En. destruct n as [[n1 s2] log2].
    apply IH in En. cbn [fst snd].
    destruct (bool_decide (n1 ≠ op1)); [|by intros [= <-]].
    bind_step as ty1 Ety1. bind_step as op0 Eop0. by intros [= <-].
  - (* COND_EXPR *)
    bind_step as op1 Eop1. bind_step as op2 Eop2. bind_step as side_effects Ese'.
    bind_step as a Ea. bind_step as ty2 Ety2. bind_step as op0 Eop0.
    intros [= <-]. cbn [snd]. revert Ea.
    bind_step as r1 Er1. bind_step as r2 Er2. intros [= <-]. cbn [fst snd].
    destruct r2 as [[t2 s2] log2]. apply IH in Er2. cbn [snd].
    apply (cast_diagnostics_trans log r1.2); [|done].
    revert Er1. destruct (bool_decide (op1 ≠ NULL_TREE)).
    + destruct r1 as [[t1 s3] log1]. apply IH.
    + intros [= <-]. apply cast_diagnostics_nil.
  - (* CALL_EXPR *)
    bind_step as log1 Elog1. intros [= <-]. cbn [snd].
    rewrite (maybe_warn_nodiscard_cast _ _ _ _ Elog1). apply cast_diagnostics_nil.
Qed.


End ConvertToVoidProperties.

Lemma maybe_warn_nodiscard_diagnostics_witness :
  ∃ loc m notes,
    @maybe_warn_nodiscard example_tree_h example_tree_cc nodiscard_convert_h
      call_store [] 4%N ICV_STATEMENT
    = Ok (notes ++ [warning loc OPT_Wunused_result m])
    ∧ Forall (λ d, ∃ l m', d = note l m') notes.
Proof.
  destruct (@maybe_warn_nodiscard_diagnostics example_tree_h example_tree_cc
              nodiscard_convert_h call_store [] _ 4%N ICV_STATEMENT eq_refl)
    as (new & Hnew & _ & [->|(loc & m & notes & -> & Hnotes & _)]); [done|].
  exists loc, m, notes. split; [|done].
  rewrite app_nil_r in Hnew. rewrite <- Hnew. reflexivity.
Defined.

Lemma convert_to_void_cast_is_quiet_witness :
  ∃ r s' new,
    @convert_to_void example_globals example_tree_h example_tree_cc example_convert_h
      3 checking volatile_store [] 1%N ICV_CAST
    = Ok (r, s', new ++ [])
    ∧ Forall cast_diagnostic new.
Proof.
  destruct (@convert_to_void_cast_is_quiet example_globals example_tree_h
              example_tree_cc example_convert_h 3 checking volatile_store _ [] _ 1%N _
              eq_refl) as (new & Hnew & Hcast).
  eexists _, _, new. split; [by rewrite <- Hnew|done].
Defined.

